(** * The PySP inter-scenario plugin (pyomo/pysp/plugins/interscenario.py)

    A shallow embedding of the cut-generation and coordination code of the
    plugin.  Python floats are modelled by exact rationals ([Q]); Python
    dictionaries keyed by variable id or scenario name by [gmap string _];
    Python lists by [list].  Exceptions are modelled by [option] (a raised
    [KeyError], [IndexError] or [ValueError] is [None]) or, where the state
    that is left behind matters, by an explicit outcome type. *)

From Stdlib Require Import QArith Qabs Qround Lqa Sorted.
From stdpp Require Import gmap strings list fin_maps.

Local Open Scope Q_scope.

(* ===================================================================== *)
(** * Part I: the embedding                                               *)
(* ===================================================================== *)

(** ** Numbers *)

(** [a > b] on floats, as a boolean. *)
Definition Qgtb (a b : Q) : bool := negb (Qle_bool a b).

(** ** Dictionaries [{var_id : float}] *)

(** Python's [d1 == d2] on dictionaries: the same keys, and numerically equal
    values under every key. *)
Definition dict_eq (a b : gmap string Q) : Prop :=
  map_relation (λ _ x y, x == y) (λ _ _, False) (λ _ _, False) a b.

#[global] Instance Qeq_decision (x y : Q) : Decision (x == y) := Qeq_dec x y.

#[global] Instance dict_eq_dec : RelDecision dict_eq.
Proof. intros a b. unfold dict_eq. apply _. Defined.

Definition dict_eqb (a b : gmap string Q) : bool := bool_decide (dict_eq a b).

(** ** Scenarios and the scenario tree *)

(** A scenario of the tree: its name, its first-stage solution
    ([scenario._x[rootNode._name]]), its probability and its cost. *)
Record scenario := Scenario {
  _name : string;
  _x : gmap string Q;
  _probability : Q;
  _cost : Q
}.

(** An entry of [self.unique_scenario_solutions]: the tuple
    [(varmap, scenario_name_list)]. *)
Definition solution : Type := gmap string Q * list string.

(** ** [_collect_unique_scenario_solutions] *)

(** The body of the loop over [rootNode._scenarios]: the inner [for _sol in
    self.unique_scenario_solutions] with its [break], and the [if not found]
    that follows it. *)
Fixpoint register_scenario (sols : list solution) (s : scenario) : list solution :=
  match sols with
  | [] => [(_x s, [_name s])]
  | _sol :: rest =>
      if dict_eqb (_x s) _sol.1
      then (_sol.1, _sol.2 ++ [_name s]) :: rest
      else _sol :: register_scenario rest s
  end.

Definition _collect_unique_scenario_solutions (scenarios : list scenario)
  : list solution :=
  fold_left register_scenario scenarios [].

(** ** The plugin object *)

(** An entry of a cut list: the tuple [(distance, cut)] returned by the
    separation problem, or one of the strings the code stores in its place
    ([".  "], ["!!!!"], ["????"], ["?  "]). *)
Inductive cut_entry :=
| CutTuple (distance : Q) (cut : gmap string (Q * Q))
| CutString (s : string).

(** [c == s] for a string [s]: a tuple is never equal to a string. *)
Definition cut_eq_str (c : cut_entry) (s : string) : bool :=
  match c with
  | CutTuple _ _ => false
  | CutString s' => bool_decide (s' = s)
  end.

(** [type(c) is tuple] *)
Definition is_tuple (c : cut_entry) : bool :=
  match c with CutTuple _ _ => true | CutString _ => false end.

(** The attributes of [InterScenarioPlugin] that the modelled methods read or
    write: the configuration of [__init__], the state of [reset],
    [_sense_to_min] of [post_ph_initialization], and the per-run attributes
    [unique_scenario_solutions] and [feasible_objectives]. *)
Record plugin := Plugin {
  epsilon : Q;
  iterationInterval : Z;
  rhoScale : Q;
  rhoDamping : Q;
  cutThreshold_minDiff : Q;
  cutThreshold_crossCut : Q;
  recutThreshold : Q;
  recutBoundImprovement : Q;
  incumbent : option (Q * solution * nat);
  rho : option (gmap string Q);
  x_deviation : option (gmap string Q);
  feasibility_cuts : list (list cut_entry);
  optimality_cuts : list (gmap string Q * gmap string Q);
  lastRun : Z;
  average_solution : option Q;
  _sense_to_min : Q;
  unique_scenario_solutions : list solution;
  feasible_objectives : list (option Q)
}.

Definition set_incumbent (v : option (Q * solution * nat)) (p : plugin) : plugin :=
  Plugin (epsilon p) (iterationInterval p) (rhoScale p) (rhoDamping p)
    (cutThreshold_minDiff p) (cutThreshold_crossCut p) (recutThreshold p)
    (recutBoundImprovement p) v (rho p) (x_deviation p) (feasibility_cuts p)
    (optimality_cuts p) (lastRun p) (average_solution p) (_sense_to_min p)
    (unique_scenario_solutions p) (feasible_objectives p).

Definition set_rho (v : option (gmap string Q)) (p : plugin) : plugin :=
  Plugin (epsilon p) (iterationInterval p) (rhoScale p) (rhoDamping p)
    (cutThreshold_minDiff p) (cutThreshold_crossCut p) (recutThreshold p)
    (recutBoundImprovement p) (incumbent p) v (x_deviation p) (feasibility_cuts p)
    (optimality_cuts p) (lastRun p) (average_solution p) (_sense_to_min p)
    (unique_scenario_solutions p) (feasible_objectives p).

Definition set_x_deviation (v : option (gmap string Q)) (p : plugin) : plugin :=
  Plugin (epsilon p) (iterationInterval p) (rhoScale p) (rhoDamping p)
    (cutThreshold_minDiff p) (cutThreshold_crossCut p) (recutThreshold p)
    (recutBoundImprovement p) (incumbent p) (rho p) v (feasibility_cuts p)
    (optimality_cuts p) (lastRun p) (average_solution p) (_sense_to_min p)
    (unique_scenario_solutions p) (feasible_objectives p).

Definition set_feasibility_cuts (v : list (list cut_entry)) (p : plugin) : plugin :=
  Plugin (epsilon p) (iterationInterval p) (rhoScale p) (rhoDamping p)
    (cutThreshold_minDiff p) (cutThreshold_crossCut p) (recutThreshold p)
    (recutBoundImprovement p) (incumbent p) (rho p) (x_deviation p) v
    (optimality_cuts p) (lastRun p) (average_solution p) (_sense_to_min p)
    (unique_scenario_solutions p) (feasible_objectives p).

Definition set_optimality_cuts (v : list (gmap string Q * gmap string Q))
    (p : plugin) : plugin :=
  Plugin (epsilon p) (iterationInterval p) (rhoScale p) (rhoDamping p)
    (cutThreshold_minDiff p) (cutThreshold_crossCut p) (recutThreshold p)
    (recutBoundImprovement p) (incumbent p) (rho p) (x_deviation p)
    (feasibility_cuts p) v (lastRun p) (average_solution p) (_sense_to_min p)
    (unique_scenario_solutions p) (feasible_objectives p).

Definition set_lastRun (v : Z) (p : plugin) : plugin :=
  Plugin (epsilon p) (iterationInterval p) (rhoScale p) (rhoDamping p)
    (cutThreshold_minDiff p) (cutThreshold_crossCut p) (recutThreshold p)
    (recutBoundImprovement p) (incumbent p) (rho p) (x_deviation p)
    (feasibility_cuts p) (optimality_cuts p) v (average_solution p)
    (_sense_to_min p) (unique_scenario_solutions p) (feasible_objectives p).

Definition set_average_solution (v : option Q) (p : plugin) : plugin :=
  Plugin (epsilon p) (iterationInterval p) (rhoScale p) (rhoDamping p)
    (cutThreshold_minDiff p) (cutThreshold_crossCut p) (recutThreshold p)
    (recutBoundImprovement p) (incumbent p) (rho p) (x_deviation p)
    (feasibility_cuts p) (optimality_cuts p) (lastRun p) v
    (_sense_to_min p) (unique_scenario_solutions p) (feasible_objectives p).

Definition set_sense_to_min (v : Q) (p : plugin) : plugin :=
  Plugin (epsilon p) (iterationInterval p) (rhoScale p) (rhoDamping p)
    (cutThreshold_minDiff p) (cutThreshold_crossCut p) (recutThreshold p)
    (recutBoundImprovement p) (incumbent p) (rho p) (x_deviation p)
    (feasibility_cuts p) (optimality_cuts p) (lastRun p) (average_solution p)
    v (unique_scenario_solutions p) (feasible_objectives p).

Definition set_unique_scenario_solutions (v : list solution) (p : plugin) : plugin :=
  Plugin (epsilon p) (iterationInterval p) (rhoScale p) (rhoDamping p)
    (cutThreshold_minDiff p) (cutThreshold_crossCut p) (recutThreshold p)
    (recutBoundImprovement p) (incumbent p) (rho p) (x_deviation p)
    (feasibility_cuts p) (optimality_cuts p) (lastRun p) (average_solution p)
    (_sense_to_min p) v (feasible_objectives p).

Definition set_feasible_objectives (v : list (option Q)) (p : plugin) : plugin :=
  Plugin (epsilon p) (iterationInterval p) (rhoScale p) (rhoDamping p)
    (cutThreshold_minDiff p) (cutThreshold_crossCut p) (recutThreshold p)
    (recutBoundImprovement p) (incumbent p) (rho p) (x_deviation p)
    (feasibility_cuts p) (optimality_cuts p) (lastRun p) (average_solution p)
    (_sense_to_min p) (unique_scenario_solutions p) v.

(** [InterScenarioPlugin.__init__]; the attributes that only [reset] and the
    later hooks assign start out empty. *)
Definition __init__ : plugin :=
  Plugin 0 10 (75 # 100) (2 # 10) (10 # 100) 1 (33 # 100) (5 # 1000)
    None None None [] [] 0 None 1 [] [].

(** [InterScenarioPlugin.reset] (the convergence bookkeeping is not
    modelled). *)
Definition reset (p : plugin) : plugin :=
  set_average_solution None
    (set_lastRun 0
       (set_optimality_cuts []
          (set_feasibility_cuts []
             (set_x_deviation None (set_rho None (set_incumbent None p)))))).

(** ** The PH object and its scenario tree *)

Inductive objective_sense := minimize | maximize.

(** The domain of a first-stage variable, as [_update_incumbent] tells them
    apart: in [_BinaryDomains], in [_IntegerDomains], or neither. *)
Inductive domain := BinaryDomain | IntegerDomain | OtherDomain.

(** The attributes of [ph] and of the root node of its scenario tree that the
    plugin reads. *)
Record PH := {
  _objective_sense : objective_sense;
  _current_iteration : Z;
  _scenarios : list scenario;
  _variable_datas : gmap string domain;
  _fixed : gset string;
  _xbars : gmap string Q
}.

(** [self._sense_to_min = 1 if ph._objective_sense == minimize else -1], the
    assignment of [post_ph_initialization]. *)
Definition post_ph_initialization (ph : PH) (p : plugin) : plugin :=
  set_sense_to_min
    (match _objective_sense ph with minimize => 1 | maximize => -1 end) p.

(** ** [_compute_objective] and [_update_incumbent] *)

(** [enumerate(l)] *)
Definition enumerate {A} (l : list A) : list (nat * A) := imap pair l.

(** The inner loop of [_compute_objective] for one solution: [None] is an
    [IndexError]; [Some None] is the [obj = None; break]. *)
Fixpoint objective_loop (partial_obj_values : list (list (option Q)))
    (soln_id : nat) (probability : list (nat * Q)) (obj : Q)
  : option (option Q) :=
  match probability with
  | [] => Some (Some obj)
  | (scen_or_bundle_id, p) :: rest =>
      row ← partial_obj_values !! scen_or_bundle_id;
      v ← row !! soln_id;
      match v with
      | None => Some None
      | Some o => objective_loop partial_obj_values soln_id rest (obj + p * o)
      end
  end.

Definition _compute_objective (self : plugin)
    (partial_obj_values : list (list (option Q))) (probability : list Q)
  : option (list (option Q)) :=
  mapM (λ soln_id,
          objective_loop partial_obj_values soln_id (enumerate probability) 0)
       (seq 0 (length (unique_scenario_solutions self))).

(** [min(l, key=operator.itemgetter(1))] on a non-empty list [x :: l]: the
    first element whose key is minimal. *)
Fixpoint min_itemgetter_1 (x : nat * Q) (l : list (nat * Q)) : nat * Q :=
  match l with
  | [] => x
  | y :: rest => min_itemgetter_1 (if Qgtb x.2 y.2 then y else x) rest
  end.

(** The loop over [rootNode._variable_datas]: [None] is the early [return]
    at a variable whose domain is neither binary nor integer. *)
Fixpoint classify_variables (vars : list (string * domain)) (fixed : gset string)
    (binary_vars integer_vars : list string) : option (list string * list string) :=
  match vars with
  | [] => Some (binary_vars, integer_vars)
  | (_id, dom) :: rest =>
      if decide (_id ∈ fixed) then
        classify_variables rest fixed binary_vars integer_vars
      else
        match dom with
        | BinaryDomain =>
            classify_variables rest fixed (binary_vars ++ [_id]) integer_vars
        | IntegerDomain =>
            classify_variables rest fixed binary_vars (integer_vars ++ [_id])
        | OtherDomain => None
        end
  end.

(** [dict((vid, _x[vid]) for vid in vars)]; [None] is a [KeyError]. *)
Definition restrict_dict (_x : gmap string Q) (vars : list string)
  : option (gmap string Q) :=
  kvs ← mapM (λ vid, v ← _x !! vid; Some (vid, v)) vars;
  Some (list_to_map kvs).

(** [_update_incumbent]; [None] is an exception ([IndexError], [KeyError]). *)
Definition _update_incumbent (ph : PH) (self : plugin) : option plugin :=
  let feasible_obj :=
    omap (λ o : nat * option Q, v ← o.2; Some (o.1, v))
         (enumerate (feasible_objectives self)) in
  match feasible_obj with
  | [] => Some self
  | x :: xs =>
      let '(best_id, best_obj) :=
        min_itemgetter_1 (x.1, _sense_to_min self * x.2)
          ((λ x : nat * Q, (x.1, _sense_to_min self * x.2)) <$> xs) in
      self1 ←
        (if match incumbent self with
            | None => true
            | Some inc => Qgtb (inc.1.1 * _sense_to_min self) best_obj
            end
         then
           sol ← unique_scenario_solutions self !! best_id;
           Some (set_incumbent
                   (Some (best_obj * _sense_to_min self, sol, best_id)) self)
         else Some self);
      if (length feasible_obj <=? 1)%nat then Some self1
      else
        match classify_variables (map_to_list (_variable_datas ph))
                (_fixed ph) [] [] with
        | None => Some self1
        | Some (binary_vars, integer_vars) =>
            cuts ← mapM (λ o : nat * Q,
                           sol ← unique_scenario_solutions self1 !! o.1;
                           b ← restrict_dict sol.1 binary_vars;
                           i ← restrict_dict sol.1 integer_vars;
                           Some (b, i))
                        (filter (λ o : nat * Q, o.1 ≠ best_id) feasible_obj);
            Some (set_optimality_cuts (optimality_cuts self1 ++ cuts) self1)
        end
  end.

(** Steps (1), (3) and (5) of [_interscenario_plugin] as far as the incumbent
    is concerned: the candidates are installed, [self.feasible_objectives] is
    computed from the partial objectives the subproblems returned, and the
    incumbent is updated. *)
Definition incumbent_cycle (ph : PH) (self : plugin)
    (run : list solution * list (list (option Q)) * list Q) : option plugin :=
  let '(sols, partial_obj_values, probability) := run in
  let self := set_unique_scenario_solutions sols self in
  objs ← _compute_objective self partial_obj_values probability;
  _update_incumbent ph (set_feasible_objectives objs self).

(** A sequence of such cycles; the states after each cycle, oldest first. *)
Fixpoint incumbent_cycles (ph : PH) (self : plugin)
    (runs : list (list solution * list (list (option Q)) * list Q))
  : option (list plugin) :=
  match runs with
  | [] => Some []
  | run :: rest =>
      self' ← incumbent_cycle ph self run;
      trace ← incumbent_cycles ph self' rest;
      Some (self' :: trace)
  end.

(** ** [_distribute_cuts] *)

(** A bundle of the scenario tree. *)
Record bundle := Bundle {
  bundle_name : string;
  _scenario_names : list string;
  bundle_probability : Q
}.

(** A subproblem: a scenario of [_scenario_tree._scenarios], or a bundle of
    [_scenario_tree._scenario_bundles] when the tree contains bundles. *)
Inductive subproblem :=
| OfScenario (s : scenario)
| OfBundle (b : bundle).

Definition problem_name (problem : subproblem) : string :=
  match problem with
  | OfScenario s => _name s
  | OfBundle b => bundle_name b
  end.

Definition problem_probability (problem : subproblem) : Q :=
  match problem with
  | OfScenario s => _probability s
  | OfBundle b => bundle_probability b
  end.

(** [sorted(l)] on floats: a stable insertion sort. *)
Fixpoint insert_sorted (x : Q) (l : list Q) : list Q :=
  match l with
  | [] => [x]
  | y :: rest => if Qgtb y x then x :: y :: rest else y :: insert_sorted x rest
  end.

Definition sorted (l : list Q) : list Q :=
  fold_left (λ acc x, insert_sorted x acc) l [].

(** [int(q)]: truncation towards zero. *)
Definition int (q : Q) : Z := Z.quot (Qnum q) (Z.pos (Qden q)).

(** [l[i]] for a Python integer [i]: negative indices count from the end;
    [None] is an [IndexError]. *)
Definition py_index {A} (l : list A) (i : Z) : option A :=
  if (0 <=? i)%Z then l !! Z.to_nat i
  else if (0 <=? Z.of_nat (length l) + i)%Z
       then l !! Z.to_nat (Z.of_nat (length l) + i)
       else None.

(** [c[0]] of a cut tuple. *)
Definition magnitude (c : cut_entry) : option Q :=
  match c with CutTuple d _ => Some d | CutString _ => None end.

(** [type(c) is tuple and c[0] > threshold] *)
Definition above (threshold : Q) (c : cut_entry) : bool :=
  match c with
  | CutTuple d _ => Qgtb d threshold
  | CutString _ => false
  end.

(** The list [cutObj]. *)
Definition cutObj (self : plugin) : list Q :=
  sorted (omap magnitude
            (filter (λ c, above (cutThreshold_minDiff self) c = true)
                    (concat (feasibility_cuts self)))).

(** [allCutThreshold]; [None] is an [IndexError].  The product under [int]
    is taken in exact rationals, without the rounding of a float product. *)
Definition allCutThreshold (self : plugin) : option Q :=
  match cutObj self with
  | [] => Some 1
  | _ :: _ =>
      py_index (cutObj self)
        (Z.min (int ((1 - cutThreshold_crossCut self)
                     * inject_Z (Z.of_nat (length (cutObj self)))))
               (Z.of_nat (length (cutObj self)) - 1))
  end.

(** [c[id] for c in self.feasibility_cuts if type(c[id]) is tuple and
    c[id][0] > threshold]; [None] is an [IndexError]. *)
Definition column_cuts (self : plugin) (id : nat) (threshold : Q)
  : option (list cut_entry) :=
  col ← mapM (λ c : list cut_entry, c !! id) (feasibility_cuts self);
  Some (filter (λ c, above threshold c = true) col).

(** The loop [for scenario in get_scenarios(problem)] that sets [found].  For
    a bundle [get_scenarios] yields scenario names, and [scenario._name] on a
    string is an [AttributeError] ([None]). *)
Definition found_in (problem : subproblem) (s : list string) : option bool :=
  match problem with
  | OfScenario sc => Some (bool_decide (_name sc ∈ s))
  | OfBundle b =>
      match _scenario_names b with
      | [] => Some false
      | _ :: _ => None
      end
  end.

(** The loop over [enumerate(self.unique_scenario_solutions)] that collects
    the list [cuts] of one subproblem. *)
Fixpoint collect_cuts (self : plugin) (threshold : Q) (problem : subproblem)
    (sols : list (nat * solution)) (cuts : list cut_entry)
  : option (list cut_entry) :=
  match sols with
  | [] => Some cuts
  | (id, (x, s)) :: rest =>
      found ← found_in problem s;
      cuts' ←
        (if found : bool then
           new ← column_cuts self id (cutThreshold_minDiff self);
           Some (cuts ++ new)
         else
           obj ← feasible_objectives self !! id;
           match obj with
           | None =>
               new ← column_cuts self id threshold;
               Some (cuts ++ new)
           | Some _ => Some cuts
           end);
      collect_cuts self threshold problem rest cuts'
  end.

(** One call of [add_new_cuts]: the subproblem it is made for and the
    feasibility and optimality cuts it is given. *)
Record delivery := Delivery {
  to : string;
  feasibility : list cut_entry;
  optimality : list (gmap string Q * gmap string Q)
}.

(** The loop over the subproblems. *)
Fixpoint distribute_loop (self : plugin) (threshold : Q)
    (subproblems : list subproblem) : option (list delivery) :=
  match subproblems with
  | [] => Some []
  | problem :: rest =>
      cuts ← collect_cuts self threshold problem
                (enumerate (unique_scenario_solutions self)) [];
      sent ← distribute_loop self threshold rest;
      match cuts, optimality_cuts self with
      | [], [] => Some sent
      | _, _ =>
          Some (Delivery (problem_name problem) cuts (optimality_cuts self) :: sent)
      end
  end.

(** [_distribute_cuts] on the subproblems of the tree (local solver manager):
    the calls of [add_new_cuts] it makes, in order, and the plugin with its
    two cut lists emptied. *)
Definition _distribute_cuts (subproblems : list subproblem) (self : plugin)
  : option (list delivery * plugin) :=
  threshold ← allCutThreshold self;
  sent ← distribute_loop self threshold subproblems;
  Some (sent, set_optimality_cuts [] (set_feasibility_cuts [] self)).

(** ** Solvers and models *)

(** Modelled from the spec: [pyomo.opt.SolverStatus] is not among the source
    files; the members are those of Pyomo's enumeration. *)
Module SolverStatus.
Inductive t := ok | warning | error | aborted | unknown.
End SolverStatus.

(** Modelled from the spec: [pyomo.opt.TerminationCondition] is not among
    the source files; the members are those of Pyomo's enumeration. *)
Module TerminationCondition.
Inductive t :=
| unknown | maxTimeLimit | maxIterations | minFunctionValue | minStepLength
| globallyOptimal | locallyOptimal | optimal | maxEvaluations | other
| unbounded | infeasible | invalidProblem | intermediateNonInteger
| noSolution | solverFailure | internalSolverError | error
| userInterrupt | resourceInterrupt | licensingProblems.
End TerminationCondition.

#[global] Instance SolverStatus_eq_dec : EqDecision SolverStatus.t.
Proof. solve_decision. Defined.

#[global] Instance TerminationCondition_eq_dec : EqDecision TerminationCondition.t.
Proof. solve_decision. Defined.

Definition ALLOW_VARIABLE_SLACK : bool := false.

(** [tc in _acceptable_termination_conditions] *)
Definition _acceptable_termination_conditions (tc : TerminationCondition.t) : bool :=
  match tc with
  | TerminationCondition.optimal
  | TerminationCondition.globallyOptimal
  | TerminationCondition.locallyOptimal => true
  | _ => false
  end.

(** [tc in _infeasible_termination_conditions] *)
Definition _infeasible_termination_conditions (tc : TerminationCondition.t) : bool :=
  match tc with
  | TerminationCondition.infeasible
  | TerminationCondition.invalidProblem => true
  | _ => false
  end.

(** The part of a modified instance ([get_modified_instance]) that the plugin
    code reads and writes.  [relaxed] records whether [core.relax_discrete] is
    applied; the separation variables are fixed, freed and bounded together,
    so one flag and one pair of bounds stand for all of them;
    [original_obj_value] and [dual] hold what the last loaded solution gave
    for the original objective and for the multipliers of
    [fixed_variables_constraint]; [discrete_stage2_vars] is the entry of
    [get_dual_values.discrete_stage2_vars] for this model. *)
Record model := Model {
  model_epsilon : Q;
  relaxed : bool;
  original_obj_active : bool;
  separation_obj_active : bool;
  sep_fixed : bool;
  sep_bounds : option Q * option Q;
  separation_variables : gmap string Q;
  fixed_variable_values : gmap string Q;
  original_obj_value : Q;
  dual : gmap string Q;
  discrete_stage2_vars : option bool
}.

Definition set_relaxed (v : bool) (m : model) : model :=
  Model (model_epsilon m) v (original_obj_active m) (separation_obj_active m)
    (sep_fixed m) (sep_bounds m) (separation_variables m)
    (fixed_variable_values m) (original_obj_value m) (dual m)
    (discrete_stage2_vars m).

Definition set_original_obj_active (v : bool) (m : model) : model :=
  Model (model_epsilon m) (relaxed m) v (separation_obj_active m)
    (sep_fixed m) (sep_bounds m) (separation_variables m)
    (fixed_variable_values m) (original_obj_value m) (dual m)
    (discrete_stage2_vars m).

Definition set_separation_obj_active (v : bool) (m : model) : model :=
  Model (model_epsilon m) (relaxed m) (original_obj_active m) v
    (sep_fixed m) (sep_bounds m) (separation_variables m)
    (fixed_variable_values m) (original_obj_value m) (dual m)
    (discrete_stage2_vars m).

Definition set_sep_fixed (v : bool) (m : model) : model :=
  Model (model_epsilon m) (relaxed m) (original_obj_active m)
    (separation_obj_active m) v (sep_bounds m) (separation_variables m)
    (fixed_variable_values m) (original_obj_value m) (dual m)
    (discrete_stage2_vars m).

Definition set_sep_bounds (v : option Q * option Q) (m : model) : model :=
  Model (model_epsilon m) (relaxed m) (original_obj_active m)
    (separation_obj_active m) (sep_fixed m) v (separation_variables m)
    (fixed_variable_values m) (original_obj_value m) (dual m)
    (discrete_stage2_vars m).

Definition set_separation_variables (v : gmap string Q) (m : model) : model :=
  Model (model_epsilon m) (relaxed m) (original_obj_active m)
    (separation_obj_active m) (sep_fixed m) (sep_bounds m) v
    (fixed_variable_values m) (original_obj_value m) (dual m)
    (discrete_stage2_vars m).

Definition set_fixed_variable_values (v : gmap string Q) (m : model) : model :=
  Model (model_epsilon m) (relaxed m) (original_obj_active m)
    (separation_obj_active m) (sep_fixed m) (sep_bounds m)
    (separation_variables m) v (original_obj_value m) (dual m)
    (discrete_stage2_vars m).

Definition set_original_obj_value (v : Q) (m : model) : model :=
  Model (model_epsilon m) (relaxed m) (original_obj_active m)
    (separation_obj_active m) (sep_fixed m) (sep_bounds m)
    (separation_variables m) (fixed_variable_values m) v (dual m)
    (discrete_stage2_vars m).

Definition set_dual (v : gmap string Q) (m : model) : model :=
  Model (model_epsilon m) (relaxed m) (original_obj_active m)
    (separation_obj_active m) (sep_fixed m) (sep_bounds m)
    (separation_variables m) (fixed_variable_values m) (original_obj_value m) v
    (discrete_stage2_vars m).

Definition set_discrete_stage2_vars (v : option bool) (m : model) : model :=
  Model (model_epsilon m) (relaxed m) (original_obj_active m)
    (separation_obj_active m) (sep_fixed m) (sep_bounds m)
    (separation_variables m) (fixed_variable_values m) (original_obj_value m)
    (dual m) v.

(** What a solver returns: [results.solver.status],
    [results.solver.termination_condition], and the solution that
    [model.solutions.load_from(results)] loads. *)
Record results := Results {
  status : SolverStatus.t;
  termination_condition : TerminationCondition.t;
  sol_separation_variables : gmap string Q;
  sol_original_obj : Q;
  sol_dual : gmap string Q
}.

(** A solver: its name, and what [solve] does on a model of a given
    subproblem in a given state ([None]: the call raises). *)
Record solver := Solver {
  solver_name : string;
  solve : string → model → option results
}.

(** [model.solutions.load_from(results)]: the values of the solution replace
    the stored ones; variables that are fixed keep their value. *)
Definition load_from (r : results) (m : model) : model :=
  set_dual (sol_dual r)
    (set_original_obj_value (sol_original_obj r)
       (set_separation_variables
          (if sep_fixed m then separation_variables m
           else sol_separation_variables r ∪ separation_variables m) m)).

(** [_sep.fix(0)] *)
Definition fix_0 (m : model) : model :=
  set_sep_fixed true
    (set_separation_variables ((λ _, 0) <$> separation_variables m) m).

(** The model that [get_modified_instance] builds for the first-stage
    variables [var_ids]. *)
Definition new_modified_instance (var_ids : gset string) (epsilon : Q) : model :=
  let zeros : gmap string Q := gset_to_gmap 0 var_ids in
  let m := Model epsilon false true false false (None, None) zeros zeros 0 ∅ None in
  if ALLOW_VARIABLE_SLACK
  then set_sep_bounds (Some (- epsilon), Some epsilon) m
  else fix_0 m.

(** ** Computations that raise *)

(** The process state: the cache [get_modified_instance.data], the depth of
    the output redirections ([pyutilib.misc.setup_redirect]), and the log of
    the [solve] calls made so far (solver name, model name), latest last. *)
Record world := World {
  data : gmap string model;
  redirects : nat;
  calls : list (string * string)
}.

(** A call either returns a value or raises; both leave a state behind. *)
Inductive outcome (A : Type) :=
| Returned (w : world) (a : A)
| Raised (w : world).
Arguments Returned {A} w a.
Arguments Raised {A} w.

Definition M (A : Type) : Type := world → outcome A.

#[global] Instance M_ret : MRet M := λ A a w, Returned w a.

#[global] Instance M_bind : MBind M := λ A B f c w,
  match c w with
  | Returned w' a => f a w'
  | Raised w' => Raised w'
  end.

Definition raise {A} : M A := λ w, Raised w.

(** [try: body finally: final] *)
Definition try_finally {A} (body : M A) (final : world → world) : M A := λ w,
  match body w with
  | Returned w' a => Returned (final w') a
  | Raised w' => Raised (final w')
  end.

(** [try: body except: handler] with a bare [except]. *)
Definition try_except {A} (body handler : M A) : M A := λ w,
  match body w with
  | Returned w' a => Returned w' a
  | Raised w' => handler w'
  end.

Definition get_model (name : string) : M model := λ w,
  match data w !! name with
  | Some m => Returned w m
  | None => Raised w
  end.

Definition modify_model (name : string) (f : model → model) : M unit := λ w,
  Returned (World (alter f name (data w)) (redirects w) (calls w)) tt.

Definition setup_redirect : M unit := λ w,
  Returned (World (data w) (S (redirects w)) (calls w)) tt.

Definition reset_redirect (w : world) : world :=
  World (data w) (pred (redirects w)) (calls w).

(** [solver.solve(model, ...)] *)
Definition call_solve (s : solver) (name : string) : M results := λ w,
  let w' := World (data w) (redirects w) (calls w ++ [(solver_name s, name)]) in
  match data w !! name with
  | Some m =>
      match solve s name m with
      | Some r => Returned w' r
      | None => Raised w'
      end
  | None => Raised w
  end.

(** A value that may be missing ([KeyError], [ValueError], [IndexError]). *)
Definition of_option {A} (o : option A) : M A := λ w,
  match o with
  | Some a => Returned w a
  | None => Raised w
  end.

(** ** [solve_separation_problem] *)

(** [dict((vid, (value(_sep[vid]), value(_par[vid]))) for vid in STAGE1VAR)] *)
Definition separation_cut (m : model) : option (gmap string (Q * Q)) :=
  kvs ← mapM (λ kv : string * Q,
                s ← separation_variables m !! kv.1; Some (kv.1, (s, kv.2)))
             (map_to_list (fixed_variable_values m));
  Some (list_to_map kvs).

(** [value(model._interscenario_plugin.separation_obj)] *)
Definition separation_obj_value (m : model) : option Q :=
  vs ← mapM (λ kv : string * Q, separation_variables m !! kv.1)
            (map_to_list (fixed_variable_values m));
  Some (foldr (λ s acc, s ^ 2 + acc) 0 vs).

Section separation.

(** [math.sqrt], a parameter of the development. *)
Variable sqrt : Q → Q.

Definition solve_separation_problem (solver : solver) (model : string)
    (fallback : bool) : M cut_entry :=
  modify_model model (set_relaxed true) ;;
  modify_model model (set_original_obj_active false) ;;
  modify_model model (set_separation_obj_active true) ;;
  modify_model model
    (if ALLOW_VARIABLE_SLACK then set_sep_bounds (None, None)
     else set_sep_fixed false) ;;
  (* SOLVE *)
  setup_redirect ;;
  results ← try_finally (call_solve solver model) reset_redirect;
  let ss := status results in
  let tc := termination_condition results in
  ans ←
    (if bool_decide (ss = SolverStatus.ok) && _acceptable_termination_conditions tc
     then
       modify_model model (load_from results) ;;
       m ← get_model model;
       cut ← of_option (separation_cut m);
       obj ← of_option (separation_obj_value m);
       mret (CutTuple (sqrt obj) cut)
     else if _infeasible_termination_conditions tc
          then mret (CutString "!!!!")
          else mret (CutString "????"));
  modify_model model (set_original_obj_active true) ;;
  modify_model model (set_separation_obj_active false) ;;
  modify_model model
    (if ALLOW_VARIABLE_SLACK
     then λ m, set_sep_bounds (Some (- model_epsilon m), Some (model_epsilon m)) m
     else fix_0) ;;
  modify_model model (set_relaxed false) ;;
  mret ans.

End separation.

(** ** [get_dual_values] *)

(** [duals[varid] = model.dual[_con[varid]]] for [varid] in [STAGE1VAR]. *)
Definition read_duals (m : model) : option (gmap string Q) :=
  kvs ← mapM (λ kv : string * Q, d ← dual m !! kv.1; Some (kv.1, d))
             (map_to_list (fixed_variable_values m));
  Some (list_to_map kvs).

(** The body of [get_dual_values] below the first [if], for the value
    [discrete] of [get_dual_values.discrete_stage2_vars[id(model)]]. *)
Definition get_dual_values_body (solver : solver) (model : string)
    (discrete : bool) : M (gmap string Q) :=
  if discrete then
    modify_model model (set_relaxed true) ;;
    (* SOLVE *)
    results ← call_solve solver model;
    let ss := status results in
    let tc := termination_condition results in
    duals ←
      (if bool_decide (ss = SolverStatus.ok)
          && _acceptable_termination_conditions tc
       then
         modify_model model (load_from results) ;;
         m ← get_model model;
         of_option (read_duals m)
       else mret ∅);
    modify_model model (set_relaxed false) ;;
    mret duals
  else
    m ← get_model model;
    of_option (read_duals m).

Definition get_dual_values (solver : solver) (model : string)
  : M (gmap string Q) :=
  m ← get_model model;
  match discrete_stage2_vars m with
  | None =>
      try_except
        (modify_model model (set_discrete_stage2_vars (Some false)) ;;
         get_dual_values_body solver model false)
        (modify_model model (set_discrete_stage2_vars (Some true)) ;;
         get_dual_values_body solver model true)
  | Some discrete => get_dual_values_body solver model discrete
  end.

(** ** [get_modified_instance] and [solve_fixed_scenario_solutions] *)

Definition get_modified_instance (var_ids : gset string) (name : string)
    (epsilon : Q) : M unit := λ w,
  match data w !! name with
  | Some _ => Returned w tt
  | None =>
      Returned (World (<[name := new_modified_instance var_ids epsilon]> (data w))
                      (redirects w) (calls w)) tt
  end.

(** The scenarios that are local to a subproblem. *)
Definition local_scenarios (problem : subproblem) : list string :=
  match problem with
  | OfScenario s => [_name s]
  | OfBundle b => _scenario_names b
  end.

(** [assert len(var_values) == len(_param)] and the loop
    [_param[var_id] = var_value]; assigning outside the index set of the
    parameter is a [KeyError].  Which assignments precede that [KeyError]
    depends on the iteration order of the dictionary; the state that the
    exception leaves is not tracked, and the call raises with the state it
    was entered with. *)
Definition set_fixed_values (model : string) (var_values : gmap string Q) : M unit :=
  m ← get_model model;
  if bool_decide (size var_values = size (fixed_variable_values m)) then
    if bool_decide (dom var_values ⊆ dom (fixed_variable_values m)) then
      modify_model model
        (λ m, set_fixed_variable_values (var_values ∪ fixed_variable_values m) m)
    else raise
  else raise.

Section evaluation.

Variable sqrt : Q → Q.

(** The three lists that [solve_fixed_scenario_solutions] fills. *)
Definition evaluation : Type :=
  list (option Q) * list (option (gmap string Q)) * list cut_entry.

(** The body of the loop over [scenario_solutions].  The branch under
    [elif True or ...] is taken whenever the first one is not, so the final
    [else] of the source is never reached. *)
Definition evaluate_solution (ph_solver ipopt : solver) (model : string)
    (local_scenarios : list string) (acc : evaluation) (sol : solution)
  : M evaluation :=
  let '(obj_values, dual_values, cutlist) := acc in
  let '(var_values, scenario_name_list) := sol in
  let local := existsb (λ scenario, bool_decide (scenario ∈ scenario_name_list))
                 local_scenarios in
  (if local then mret tt else mret tt) ;;
  set_fixed_values model var_values ;;
  setup_redirect ;;
  results ← try_finally (call_solve ph_solver model) reset_redirect;
  let ss := status results in
  let tc := termination_condition results in
  if bool_decide (ss = SolverStatus.ok) && _acceptable_termination_conditions tc
  then
    modify_model model (load_from results) ;;
    m ← get_model model;
    duals ← get_dual_values ph_solver model;
    mret (obj_values ++ [Some (original_obj_value m)],
          dual_values ++ [Some duals],
          cutlist ++ [CutString ".  "])
  else
    cut ← solve_separation_problem sqrt ph_solver model true;
    cut ← (if cut_eq_str cut "????"
           then solve_separation_problem sqrt ipopt model false
           else mret cut);
    mret (obj_values ++ [None], dual_values ++ [None], cutlist ++ [cut]).

Fixpoint evaluate_solutions (ph_solver ipopt : solver) (model : string)
    (local_scenarios : list string) (acc : evaluation)
    (scenario_solutions : list solution) : M evaluation :=
  match scenario_solutions with
  | [] => mret acc
  | sol :: rest =>
      acc' ← evaluate_solution ph_solver ipopt model local_scenarios acc sol;
      evaluate_solutions ph_solver ipopt model local_scenarios acc' rest
  end.

Definition solve_fixed_scenario_solutions (ph_solver ipopt : solver)
    (var_ids : gset string) (scenario_or_bundle : subproblem)
    (scenario_solutions : list solution) (epsilon : Q) : M evaluation :=
  get_modified_instance var_ids (problem_name scenario_or_bundle) epsilon ;;
  evaluate_solutions ph_solver ipopt (problem_name scenario_or_bundle)
    (local_scenarios scenario_or_bundle) ([], [], []) scenario_solutions.

(** [_solve_interscenario_solutions] with the local solver manager: the rows
    of partial objectives, duals and cuts, one per subproblem, and the list
    of the subproblem probabilities. *)
Fixpoint _solve_interscenario_solutions (ph_solver ipopt : solver)
    (var_ids : gset string) (self : plugin) (subproblems : list subproblem)
  : M (list (list (option Q)) * list (list (option (gmap string Q)))
       * list (list cut_entry) * list Q) :=
  match subproblems with
  | [] => mret ([], [], [], [])
  | problem :: rest =>
      _tmp ← solve_fixed_scenario_solutions ph_solver ipopt var_ids problem
               (unique_scenario_solutions self) (epsilon self);
      more ← _solve_interscenario_solutions ph_solver ipopt var_ids self rest;
      mret (_tmp.1.1 :: more.1.1.1, _tmp.1.2 :: more.1.1.2,
            _tmp.2 :: more.1.2, problem_probability problem :: more.2)
  end.

End evaluation.

(** ** The phases of [solve_separation_problem] on one model *)

(** The model as [solve_separation_problem] hands it to the solver. *)
Definition prepare_separation (m : model) : model :=
  (if ALLOW_VARIABLE_SLACK then set_sep_bounds (None, None)
   else set_sep_fixed false)
    (set_separation_obj_active true
       (set_original_obj_active false (set_relaxed true m))).

(** The statements of [solve_separation_problem] after [output_buffer.close()]. *)
Definition restore_separation (m : model) : model :=
  set_relaxed false
    ((if ALLOW_VARIABLE_SLACK
      then λ m, set_sep_bounds (Some (- model_epsilon m), Some (model_epsilon m)) m
      else fix_0)
       (set_separation_obj_active false (set_original_obj_active true m))).

(** The world with the model [name] replaced and one more [solve] call logged. *)
Definition after_solve (w : world) (solver : solver) (name : string) (m : model)
  : world :=
  World (<[name := m]> (data w)) (redirects w)
        (calls w ++ [(solver_name solver, name)]).

(** The state in which [get_modified_instance] creates a model and in which
    [solve_separation_problem] is meant to leave it: discrete domains not
    relaxed, the original objective active, the separation objective
    inactive, the separation variables fixed at zero. *)
Definition base_state (m : model) : Prop :=
  relaxed m = false ∧ original_obj_active m = true ∧
  separation_obj_active m = false ∧ sep_fixed m = true ∧
  map_Forall (λ _ v, v = 0) (separation_variables m).

(** An instance of the parameter [math.sqrt] for concrete runs: exact on the
    squares of rationals in lowest terms. *)
Definition rational_sqrt (q : Q) : Q := Z.sqrt (Qnum q) # Pos.sqrt (Qden q).

(** ** [_process_dual_information] and the rho update *)

(** [ph._scenario_tree.get_scenario(name)]; [None] is a [KeyError]. *)
Definition get_scenario (ph : PH) (name : string) : option scenario :=
  snd <$> list_find (λ s, _name s = name) (_scenarios ph).

(** The inner loop that accumulates [soln_prob[soln_id]], from [0.]. *)
Definition solution_probability (ph : PH) (names : list string) : option Q :=
  fold_left (λ acc src_scen_name,
               a ← acc;
               src_scen ← get_scenario ph src_scen_name;
               Some (a + _probability src_scen))
            names (Some 0).

(** [max(l)] and [min(l)] on floats: the first greatest and the first least
    element; [None] is the [ValueError] of an empty sequence. *)
Definition py_max (l : list Q) : option Q :=
  match l with
  | [] => None
  | x :: rest => Some (fold_left (λ m y, if Qgtb y m then y else m) rest x)
  end.

Definition py_min (l : list Q) : option Q :=
  match l with
  | [] => None
  | x :: rest => Some (fold_left (λ m y, if Qgtb m y then y else m) rest x)
  end.

(** [max(s[0][v] for s in sols) - min(s[0][v] for s in sols)] *)
Definition spread (sols : list solution) (v : string) : option Q :=
  values ← mapM (λ s : solution, s.1 !! v) sols;
  hi ← py_max values;
  lo ← py_min values;
  Some (hi - lo).

(** [dict((v, f(v)) for v in keys)]; [None] when some [f(v)] raises. *)
Definition dict_from_keys (keys : gmap string Q) (f : string → option Q)
  : option (gmap string Q) :=
  if bool_decide (map_Forall (λ v _, is_Some (f v)) keys)
  then Some (map_imap (λ v _, f v) keys)
  else None.

(** The value assigned to [self.x_deviation] when it is [None]. *)
Definition compute_x_deviation (xbar : gmap string Q) (sols : list solution)
  : option (gmap string Q) :=
  dict_from_keys xbar (spread sols).

(** [for k, x in iteritems(items): acc[k] += g(k, x)]; the keys of a
    dictionary are distinct, so every entry of [acc] is updated at most once.
    [None] when [acc[k]] or [g(k, x)] raises for some item. *)
Definition dict_iadd (acc items : gmap string Q) (g : string → Q → option Q)
  : option (gmap string Q) :=
  if bool_decide (map_Forall (λ k x, is_Some (acc !! k) ∧ is_Some (g k x)) items)
  then Some (map_imap (λ k a, Some (match items !! k ≫= g k with
                                   | Some y => a + y
                                   | None => a
                                   end)) acc)
  else None.

(** [dict((v, 0.) for v in xbar)] *)
Definition zero_dict (xbar : gmap string Q) : gmap string Q := (λ _, 0) <$> xbar.

(** The loop over [enumerate(probability)] that accumulates [avg_dual] and
    [p_total] for the solution [soln_id]; [None] is an [IndexError] or a
    [KeyError]. *)
Fixpoint avg_dual_loop (dual_values : list (list (option (gmap string Q))))
    (soln_id : nat) (probability : list (nat * Q))
    (avg_dual : gmap string Q) (p_total : Q) : option (gmap string Q * Q) :=
  match probability with
  | [] => Some (avg_dual, p_total)
  | (scen_id, p) :: rest =>
      row ← dual_values !! scen_id;
      entry ← row !! soln_id;
      match entry with
      | None => avg_dual_loop dual_values soln_id rest avg_dual p_total
      | Some duals =>
          avg_dual' ← dict_iadd avg_dual duals (λ _ d, Some (d * p));
          avg_dual_loop dual_values soln_id rest avg_dual' (p_total + p)
      end
  end.

(** The loop over [enumerate(soln_prob)] that accumulates [weighted_rho];
    a division by zero raises. *)
Fixpoint weighted_rho_loop (xbar x_deviation : gmap string Q)
    (dual_values : list (list (option (gmap string Q)))) (probability : list Q)
    (soln_prob : list (nat * Q)) (weighted_rho : gmap string Q)
  : option (gmap string Q) :=
  match soln_prob with
  | [] => Some weighted_rho
  | (soln_id, soln_p) :: rest =>
      r ← avg_dual_loop dual_values soln_id (enumerate probability)
             (zero_dict xbar) 0;
      let avg_dual : gmap string Q :=
        if Qeq_bool (snd r) 0 then fst r else (λ a, a / snd r) <$> fst r in
      weighted_rho' ←
        dict_iadd weighted_rho x_deviation
          (λ v x_dev,
             a ← avg_dual !! v;
             if Qeq_bool (x_dev + 1) 0 then None
             else Some (soln_p * a / (x_dev + 1)));
      weighted_rho_loop xbar x_deviation dual_values probability rest weighted_rho'
  end.

(** [for v in xbar: weighted_rho[v] = abs(weighted_rho[v])] *)
Definition abs_over (xbar weighted_rho : gmap string Q) : option (gmap string Q) :=
  if bool_decide (map_Forall (λ v _, is_Some (weighted_rho !! v)) xbar)
  then Some (map_imap (λ v r, Some (if bool_decide (is_Some (xbar !! v))
                                    then Qabs r else r)) weighted_rho)
  else None.

(** The part of [_process_dual_information] that follows the assignment of
    [self.x_deviation]; the value it returns is [weighted_rho]. *)
Definition weighted_rho (ph : PH) (x_deviation : gmap string Q)
    (dual_values : list (list (option (gmap string Q)))) (probability : list Q)
    (soln_prob : list Q) : option (gmap string Q) :=
  w ← weighted_rho_loop (_xbars ph) x_deviation dual_values probability
         (enumerate soln_prob) (zero_dict (_xbars ph));
  abs_over (_xbars ph) w.

(** [_process_dual_information]: the plugin with [x_deviation] assigned, and
    the returned [weighted_rho].  The statistics gathered after the
    [return]-value is complete ([var_info], [dual_info] and the loop that
    starts with [break]) neither raise nor change anything and are left
    out. *)
Definition _process_dual_information (ph : PH) (self : plugin)
    (dual_values : list (list (option (gmap string Q)))) (probability : list Q)
  : option (plugin * gmap string Q) :=
  soln_prob ← mapM (λ soln_info : solution, solution_probability ph soln_info.2)
                   (unique_scenario_solutions self);
  x_dev ← match x_deviation self with
          | None => compute_x_deviation (_xbars ph) (unique_scenario_solutions self)
          | Some x_dev => Some x_dev
          end;
  new_rho ← weighted_rho ph x_dev dual_values probability soln_prob;
  Some (set_x_deviation (Some x_dev) self, new_rho).

(** Step (7) of [_interscenario_plugin]: the rho estimates are initialised
    from [new_rho], or moved towards it. *)
Definition update_rho (self : plugin) (new_rho : gmap string Q) : option plugin :=
  match rho self with
  | None => Some (set_rho (Some ((λ r, rhoScale self * r) <$> new_rho)) self)
  | Some rho0 =>
      if bool_decide (map_Forall (λ v _, is_Some (rho0 !! v)) new_rho)
      then Some (set_rho
                   (Some (map_imap
                            (λ v old,
                               Some (match new_rho !! v with
                                     | Some r =>
                                         old + rhoDamping self
                                               * (rhoScale self * r - old)
                                     | None => old
                                     end)) rho0)) self)
      else None
  end.

(** One run of the plugin as far as rho is concerned: the candidates of the
    run are installed, the duals that the subproblems returned are processed
    and the rho estimates are updated. *)
Definition rho_cycle (self : plugin)
    (run : PH * list solution * list (list (option (gmap string Q))) * list Q)
  : option (plugin * gmap string Q) :=
  let '(ph, sols, dual_values, probability) := run in
  r ← _process_dual_information ph (set_unique_scenario_solutions sols self)
         dual_values probability;
  self' ← update_rho r.1 r.2;
  Some (self', r.2).

(** A sequence of such runs: the states after each run and the [new_rho] of
    each run, oldest first. *)
Fixpoint rho_cycles (self : plugin)
    (runs : list (PH * list solution * list (list (option (gmap string Q)))
                  * list Q))
  : option (list (plugin * gmap string Q)) :=
  match runs with
  | [] => Some []
  | run :: rest =>
      r ← rho_cycle self run;
      trace ← rho_cycles r.1 rest;
      Some (r :: trace)
  end.

(** ** The weighted average of the duals, as the specification words it *)

Definition Qsum (l : list Q) : Q := foldr Qplus 0 l.




(** ** Notions used in the statements *)

(** The scenario names that reported a vector equal to [v], in the order of
    the scenario list. *)
Definition names_of (v : gmap string Q) (scenarios : list scenario) : list string :=
  _name <$> filter (λ s, dict_eq (_x s) v) scenarios.

(** No two vectors of the list are equal dictionaries. *)
Fixpoint pairwise_distinct (vs : list (gmap string Q)) : Prop :=
  match vs with
  | [] => True
  | v :: rest => Forall (λ w, ¬ dict_eq v w) rest ∧ pairwise_distinct rest
  end.

(** What the loop of [_collect_unique_scenario_solutions] maintains. *)
Definition registry_inv (scenarios : list scenario) (reg : list solution) : Prop :=
  pairwise_distinct reg.*1 ∧
  Forall (λ c, c.2 = names_of c.1 scenarios) reg ∧
  Forall (λ s, Exists (λ c, dict_eq (_x s) c.1) reg) scenarios.

(** The sense factor is [1] or [-1]. *)
Definition sense_ok (self : plugin) : Prop :=
  _sense_to_min self == 1 ∨ _sense_to_min self == -1.

(** What one candidate contributes to the cuts of a subproblem: the cuts of
    the candidate's column above [cutThreshold_minDiff] when the subproblem
    owns the candidate, and those above the cutoff when it does not and the
    candidate is not globally feasible. *)
Definition contributes (self : plugin) (threshold : Q) (problem : subproblem)
    (id : nat) (sol : solution) (e : cut_entry) : Prop :=
  (∃ row, row ∈ feasibility_cuts self ∧ row !! id = Some e) ∧
  ((found_in problem sol.2 = Some true ∧
    above (cutThreshold_minDiff self) e = true) ∨
   (found_in problem sol.2 = Some false ∧
    feasible_objectives self !! id = Some None ∧
    above threshold e = true)).

(** A two-scenario run used below: candidate 0 comes from scenario A,
    candidate 1 from scenario B; A is infeasible for candidate 1 without a
    cut, and B returned one cut tuple of magnitude [d] for candidate 0. *)
Definition two_scenario_run (minDiff crossCut d : Q) : plugin :=
  Plugin 0 10 (75 # 100) (2 # 10) minDiff crossCut (33 # 100) (5 # 1000)
    None None None
    [[CutString ".  "; CutString "!!!!"];
     [CutTuple d {["x" := (1 # 2, 0)]}; CutString ".  "]]
    [] 0 None 1
    [({["x" := 0]}, ["A"]); ({["x" := 1]}, ["B"])]
    [None; None].

Definition two_scenarios : list subproblem :=
  [OfScenario (Scenario "A" {["x" := 0]} (1 # 2) 0);
   OfScenario (Scenario "B" {["x" := 1]} (1 # 2) 0)].

(** What a separation solve can answer: a cut tuple or one of the two
    failure strings. *)
Definition separation_answer (c : cut_entry) : Prop :=
  is_tuple c = true ∨ c = CutString "!!!!" ∨ c = CutString "????".

(** One slot of the three result lists: a feasible evaluation (objective,
    duals and the string [".  "]), or an infeasible one (no objective, no
    duals, and the answer of the separation problem). *)
Definition slot (o : option Q) (d : option (gmap string Q)) (c : cut_entry) : Prop :=
  (is_Some o ∧ is_Some d ∧ c = CutString ".  ") ∨
  (o = None ∧ d = None ∧ separation_answer c).

(** The data of the runs used below: scenario A and scenario B disagree, and
    each returned duals for its own candidate only. *)
Definition example_ph : PH :=
  {| _objective_sense := minimize; _current_iteration := 0;
     _scenarios := [Scenario "A" {["x" := 1]} (1 # 2) 0;
                    Scenario "B" {["x" := 3]} (1 # 2) 0];
     _variable_datas := ∅; _fixed := ∅; _xbars := {["x" := 2]} |}.

Definition example_run (b : Q)
  : PH * list solution * list (list (option (gmap string Q))) * list Q :=
  (example_ph, [({["x" := 1]}, ["A"]); ({["x" := b]}, ["B"])],
   [[Some {["x" := 4]}; None]; [None; Some {["x" := -2]}]], [1 # 2; 1 # 2]).

(** The state that a call leaves behind, whether it returns or raises. *)
Definition state_of {A} (o : outcome A) : world :=
  match o with
  | Returned w _ => w
  | Raised w => w
  end.

(** The configuration in which a model is evaluated at a candidate: discrete
    domains not relaxed, the original objective active, the separation
    objective inactive, the separation variables fixed. *)
Definition evaluation_state (m : model) : Prop :=
  relaxed m = false ∧ original_obj_active m = true ∧
  separation_obj_active m = false ∧ sep_fixed m = true.

(** From [w] to [w']: only the model [name] was written (it is now [m']),
    the depth of the output redirection is the same, and the [solve] calls
    [extra], all of them on the model [name], were made. *)
Definition advances (name : string) (w w' : world) (m' : model)
    (extra : list (string * string)) : Prop :=
  data w' = <[name := m']> (data w) ∧ redirects w' = redirects w ∧
  calls w' = calls w ++ extra ∧ Forall (λ c, c.2 = name) extra.


(** ** [add_new_cuts] *)

(** A point at which the constraints of a cut list are evaluated: the values
    of the first-stage variables ([_src[i]()]) and of the auxiliary variables
    of the two [VarList]s [abs_int_vars] (within [NonNegativeIntegers]) and
    [abs_binary_vars] (within [Binary]). *)
Record point := Point {
  value_of : string → Q;
  abs_int_value : nat → N;
  abs_binary_value : nat → bool
}.

Definition int_value (p : point) (i : nat) : Q := inject_Z (Z.of_N (abs_int_value p i)).

Definition binary_value (p : point) (i : nat) : Q :=
  if abs_binary_value p i then 1 else 0.

(** A constraint, as the set of points that satisfy it. *)
Definition constraint : Type := point → bool.

(** The block [m._interscenario_plugin] as [add_new_cuts] uses it: the map
    [local_stage1_varmap] (the first-stage variables, each with its upper
    bound [ub], [None] when it has none), the constraint list [cutlist], and
    the number of variables in each of the two [VarList]s. *)
Record cut_block := CutBlock {
  local_stage1_varmap : gmap string (option Q);
  cutlist : list constraint;
  abs_int_vars : nat;
  abs_binary_vars : nat
}.

(** [_cl.add(c)] *)
Definition add_constraint (c : constraint) (m : cut_block) : cut_block :=
  CutBlock (local_stage1_varmap m) (cutlist m ++ [c]) (abs_int_vars m)
    (abs_binary_vars m).

(** [m._interscenario_plugin.abs_int_vars.add()] and
    [m._interscenario_plugin.abs_binary_vars.add()]: the index of the new
    variable (a [VarList] counts from 1) and the block that holds it. *)
Definition abs_int_vars_add (m : cut_block) : nat * cut_block :=
  (S (abs_int_vars m),
   CutBlock (local_stage1_varmap m) (cutlist m) (S (abs_int_vars m))
     (abs_binary_vars m)).

Definition abs_binary_vars_add (m : cut_block) : nat * cut_block :=
  (S (abs_binary_vars m),
   CutBlock (local_stage1_varmap m) (cutlist m) (abs_int_vars m)
     (S (abs_binary_vars m))).

(** The entries of [cut] that pass [if abs(_sep) > epsilon]. *)
Definition cut_terms (epsilon : Q) (cut : gmap string (Q * Q))
  : list (string * (Q * Q)) :=
  filter (λ t : string * (Q * Q), Qgtb (Qabs t.2.1) epsilon = true)
         (map_to_list cut).

(** The value at a point of
    [sum(2 * (_sep*(1-cut_epsilon)) * (_src[i]() - (_par+_sep*(1-cut_epsilon))) ...)]. *)
Definition feasibility_expr (cut_epsilon : Q) (terms : list (string * (Q * Q)))
    (p : point) : Q :=
  foldl (λ acc t,
           acc + 2 * (t.2.1 * (1 - cut_epsilon))
                 * (value_of p t.1 - (t.2.2 + t.2.1 * (1 - cut_epsilon))))
        0 terms.

(** The loop over [feasibility_cuts] on one block.  A sum without terms is
    the integer [0], for which [expr is not 0] is false; a sum with terms is
    an expression.  [None] is an exception: an entry that is not a tuple
    cannot be unpacked, and [_src[i]] is a [KeyError] for a variable that
    the block does not have. *)
Fixpoint add_feasibility_cuts (epsilon cut_epsilon : Q)
    (feasibility_cuts : list cut_entry) (m : cut_block) : option cut_block :=
  match feasibility_cuts with
  | [] => Some m
  | CutString _ :: _ => None
  | CutTuple cut_obj cut :: rest =>
      let terms := cut_terms epsilon cut in
      if bool_decide (Forall (λ t, is_Some (local_stage1_varmap m !! t.1)) terms)
      then
        add_feasibility_cuts epsilon cut_epsilon rest
          (match terms with
           | [] => m
           | _ :: _ =>
               add_constraint
                 (λ p, Qle_bool 0 (feasibility_expr cut_epsilon terms p)) m
           end)
      else None
  end.

(** The loop over [iteritems(cut[1])]: two integer and two binary variables
    and four constraints per integer variable of the cut; [None] is the
    [KeyError] of [_src[vid]] or the [TypeError] of a missing upper bound. *)
Fixpoint integer_terms (vals : list (string * Q)) (m : cut_block)
    (_int_binaries : list nat) : option (cut_block * list nat) :=
  match vals with
  | [] => Some (m, _int_binaries)
  | (vid, val) :: rest =>
      let '(b, m) := abs_int_vars_add m in
      let '(c, m) := abs_int_vars_add m in
      let '(z, m) := abs_binary_vars_add m in
      let '(y, m) := abs_binary_vars_add m in
      let m :=
        add_constraint
          (λ p, Qle_bool (binary_value p z) (int_value p b + int_value p c)) m in
      var ← local_stage1_varmap m !! vid;
      ub ← var;
      let m :=
        add_constraint (λ p, Qle_bool (int_value p b) (ub * binary_value p y)) m in
      let m :=
        add_constraint
          (λ p, Qle_bool (int_value p c) (ub * (1 - binary_value p y))) m in
      let m :=
        add_constraint
          (λ p, Qeq_bool (value_of p vid - val) (int_value p c - int_value p b))
          m in
      integer_terms rest m (_int_binaries ++ [z])
  end.

(** [sum(_int_binaries)] at a point. *)
Definition int_binaries_expr (_int_binaries : list nat) (p : point) : Q :=
  foldl (λ acc z, acc + binary_value p z) 0 _int_binaries.

(** [sum(_src[vid]() if val<0.5 else (1-_src[vid]()) for vid,val in
    iteritems(cut[0]))] at a point. *)
Definition binary_expr (vals : list (string * Q)) (p : point) : Q :=
  foldl (λ acc t,
           acc + (if Qgtb (1 # 2) t.2 then value_of p t.1
                  else 1 - value_of p t.1))
        0 vals.

(** The loop over [optimality_cuts] on one block.  A cut without binary and
    without integer variables gives the constant comparison [0 >= 1], which
    a constraint list does not accept ([None], as for a [KeyError]). *)
Fixpoint add_optimality_cuts
    (optimality_cuts : list (gmap string Q * gmap string Q)) (m : cut_block)
  : option cut_block :=
  match optimality_cuts with
  | [] => Some m
  | cut :: rest =>
      r ← integer_terms (map_to_list cut.2) m [];
      let binaries := map_to_list cut.1 in
      if bool_decide (Forall (λ t, is_Some (local_stage1_varmap r.1 !! t.1))
                        binaries)
      then
        match r.2, binaries with
        | [], [] => None
        | _, _ =>
            add_optimality_cuts rest
              (add_constraint
                 (λ p, Qle_bool 1 (int_binaries_expr r.2 p + binary_expr binaries p))
                 r.1)
        end
      else None
  end.

(** The body of the loop [for m in (base_model, model)]. *)
Definition add_cuts (epsilon : Q) (feasibility_cuts : list cut_entry)
    (optimality_cuts : list (gmap string Q * gmap string Q)) (m : cut_block)
  : option cut_block :=
  m ← add_feasibility_cuts epsilon epsilon feasibility_cuts m;
  add_optimality_cuts optimality_cuts m.

(** [add_new_cuts] on the blocks of the base model and of the modified
    instance, for the value [epsilon] of the instance's parameter. *)
Definition add_new_cuts (epsilon : Q) (feasibility_cuts : list cut_entry)
    (optimality_cuts : list (gmap string Q * gmap string Q))
    (base_model model : cut_block) : option (cut_block * cut_block) :=
  base_model' ← add_cuts epsilon feasibility_cuts optimality_cuts base_model;
  model' ← add_cuts epsilon feasibility_cuts optimality_cuts model;
  Some (base_model', model').


(** ** [_solve_interscenario_solutions] with the distributed solver manager *)

Section distributed.

(** The action handles of the solver manager. *)
Context {handle : Type} `{EqDecision handle}.

(** [l.index(x)]: the first position of [x]; [None] is the [ValueError]. *)
Definition list_index (l : list handle) (x : handle) : option nat :=
  fst <$> list_find (λ y, y = x) l.

(** The three result lists of the distributed branch: an entry is [None]
    (the placeholder of [r.extend([None]*num_results)]) until the result of
    its subproblem is stored. *)
Definition result_slots : Type :=
  list (option (list (option Q)))
  * list (option (list (option (gmap string Q))))
  * list (option (list cut_entry)).

(** The loop [while (num_results_so_far < num_results)], for the
    [num_results - num_results_so_far] passes that are left: [wait_any] lists
    the handles that [ph._solver_manager.wait_any()] returns, in order of
    completion, and [get_results] is [ph._solver_manager.get_results];
    [None] is an exception. *)
Fixpoint collect_results (action_handles : list handle)
    (get_results : handle → option evaluation) (passes : nat)
    (wait_any : list handle) (results : result_slots) : option result_slots :=
  match passes with
  | O => Some results
  | S passes =>
      match wait_any with
      | [] => None
      | _ah :: wait_any =>
          _ah_id ← list_index action_handles _ah;
          _tmp ← get_results _ah;
          collect_results action_handles get_results passes wait_any
            (<[_ah_id := Some _tmp.1.1]> results.1.1,
             <[_ah_id := Some _tmp.1.2]> results.1.2,
             <[_ah_id := Some _tmp.2]> results.2)
      end
  end.

(** The distributed branch of [_solve_interscenario_solutions]:
    [action_handles] are the handles that the calls of
    [ph._solver_manager.queue] returned, one per subproblem, in order. *)
Definition _solve_interscenario_solutions_distributed
    (subproblems : list subproblem) (action_handles : list handle)
    (get_results : handle → option evaluation) (wait_any : list handle)
  : option (result_slots * list Q) :=
  let probability := problem_probability <$> subproblems in
  let num_results := length action_handles in
  results ← collect_results action_handles get_results num_results wait_any
              (replicate num_results None, replicate num_results None,
               replicate num_results None);
  Some (results, probability).

End distributed.


(** ** [pre_iteration_k_solves] and the cost statistics *)

(** [pre_iteration_k_solves]: the cuts are distributed when there are any;
    the calls of [add_new_cuts] made, and the plugin afterwards. *)
Definition pre_iteration_k_solves (subproblems : list subproblem) (self : plugin)
  : option (list delivery * plugin) :=
  match feasibility_cuts self, optimality_cuts self with
  | [], [] => Some ([], self)
  | _, _ => _distribute_cuts subproblems self
  end.

(** [max(a, b)] on two floats. *)
Definition py_max2 (a b : Q) : Q := if Qgtb b a then b else a.

(** The cost statistics of [_interscenario_plugin] (between step (3) and
    step (4)): [scenarioCosts], [scenarioProb], [_avg], [_max], [_min] and
    [_del_avg] are computed, [self.average_solution] is assigned and the
    summary line is formatted.  [None] is an exception: the [KeyError] of
    [get_scenario], the [ValueError] of [max] on an empty sequence, or a
    division by zero. *)
Definition scenario_statistics (ph : PH) (self : plugin) : option plugin :=
  scens ← mapM (get_scenario ph) (concat (snd <$> unique_scenario_solutions self));
  let scenarioCosts := _cost <$> scens in
  let scenarioProb := _probability <$> scens in
  let _avg := foldl Qplus 0 (zip_with Qmult scenarioProb scenarioCosts) in
  _max ← py_max scenarioCosts;
  _min ← py_min scenarioCosts;
  _del_avg ←
    match average_solution self with
    | None => Some tt
    | Some _prev =>
        if Qeq_bool (py_max2 (Qabs _avg) (Qabs _prev)) 0 then None else Some tt
    end;
  if Qeq_bool _avg 0 then None
  else Some (set_average_solution (Some _avg) self).


(* ===================================================================== *)
(** * Part II: properties                                                 *)
(* ===================================================================== *)

(** ** Dictionary equality is an equivalence *)

Lemma dict_eq_lookup (a b : gmap string Q) :
  dict_eq a b ↔
  ∀ k, match a !! k, b !! k with
       | Some x, Some y => x == y
       | None, None => True
       | _, _ => False
       end.
Proof.
  unfold dict_eq, map_relation, option_relation.
  split; intros H k; specialize (H k);
    destruct (a !! k), (b !! k); tauto.
Qed.

Lemma dict_eq_refl a : dict_eq a a.
Proof.
  apply dict_eq_lookup. intros k. destruct (a !! k); [reflexivity | exact I].
Qed.

Lemma dict_eq_sym a b : dict_eq a b → dict_eq b a.
Proof.
  rewrite !dict_eq_lookup. intros H k. specialize (H k).
  destruct (a !! k), (b !! k); try tauto. symmetry. exact H.
Qed.

Lemma dict_eq_trans a b c : dict_eq a b → dict_eq b c → dict_eq a c.
Proof.
  rewrite !dict_eq_lookup. intros H1 H2 k.
  specialize (H1 k). specialize (H2 k).
  destruct (a !! k), (b !! k), (c !! k); try tauto.
  etransitivity; eassumption.
Qed.

Lemma dict_eqb_true a b : dict_eqb a b = true ↔ dict_eq a b.
Proof. unfold dict_eqb. apply bool_decide_eq_true. Qed.

Lemma dict_eqb_false a b : dict_eqb a b = false ↔ ¬ dict_eq a b.
Proof. unfold dict_eqb. apply bool_decide_eq_false. Qed.

(** ** The solution registry *)

Lemma names_of_snoc v scenarios s :
  names_of v (scenarios ++ [s]) =
  names_of v scenarios ++ (if decide (dict_eq (_x s) v) then [_name s] else []).
Proof.
  unfold names_of. rewrite filter_app, fmap_app. f_equal.
  rewrite filter_cons, filter_nil. destruct (decide _); reflexivity.
Qed.

Lemma pairwise_distinct_snoc vs v :
  pairwise_distinct vs → Forall (λ w, ¬ dict_eq v w) vs →
  pairwise_distinct (vs ++ [v]).
Proof.
  induction vs as [|w vs IH]; simpl.
  - intros _ _. split; [constructor | exact I].
  - intros [Hw Hvs] Hv. apply Forall_cons in Hv as [Hvw Hv']. split.
    + apply Forall_app. split; [exact Hw |].
      constructor; [| constructor]. intros E. apply Hvw, dict_eq_sym, E.
    + apply IH; assumption.
Qed.

Lemma pairwise_distinct_lookup vs i j a b :
  pairwise_distinct vs → vs !! i = Some a → vs !! j = Some b →
  dict_eq a b → i = j.
Proof.
  revert i j. induction vs as [|v vs IH]; intros i j Hpd Hi Hj E.
  - destruct i; discriminate.
  - destruct Hpd as [Hv Hvs]. destruct i as [|i], j as [|j]; simpl in *.
    + reflexivity.
    + injection Hi as <-. exfalso.
      apply (proj1 (Forall_forall _ _) Hv b); [| exact E].
      eapply list_elem_of_lookup_2, Hj.
    + injection Hj as <-. exfalso.
      apply (proj1 (Forall_forall _ _) Hv a); [| apply dict_eq_sym, E].
      eapply list_elem_of_lookup_2, Hi.
    + f_equal. eapply IH; eassumption.
Qed.

(** The vectors of the registry after one more scenario: unchanged when some
    candidate matches, one more vector at the end otherwise. *)
Lemma register_scenario_vectors sols s :
  (Exists (λ c, dict_eq (_x s) c.1) sols ∧
   (register_scenario sols s).*1 = sols.*1) ∨
  (Forall (λ c, ¬ dict_eq (_x s) c.1) sols ∧
   register_scenario sols s = sols ++ [(_x s, [_name s])]).
Proof.
  induction sols as [|c sols IH]; simpl.
  - right. split; [constructor | reflexivity].
  - destruct (dict_eqb (_x s) c.1) eqn:E.
    + left. apply dict_eqb_true in E. split; [left; exact E | reflexivity].
    + apply dict_eqb_false in E. destruct IH as [[Hex Hv] | [Hall Hr]].
      * left. split; [right; exact Hex |]. simpl. f_equal. exact Hv.
      * right. split; [constructor; assumption |]. simpl. f_equal. exact Hr.
Qed.

Lemma register_scenario_names scenarios sols s :
  pairwise_distinct sols.*1 →
  (Forall (λ c, ¬ dict_eq (_x s) c.1) sols → names_of (_x s) scenarios = []) →
  Forall (λ c, c.2 = names_of c.1 scenarios) sols →
  Forall (λ c, c.2 = names_of c.1 (scenarios ++ [s])) (register_scenario sols s).
Proof.
  induction sols as [|c sols IH]; simpl; intros Hpd Hnew Hold.
  - constructor; [| constructor]. simpl. rewrite names_of_snoc, Hnew by constructor.
    rewrite decide_True by apply dict_eq_refl. reflexivity.
  - destruct Hpd as [Hc Hpd]. apply Forall_cons in Hold as [Hhd Htl].
    destruct (dict_eqb (_x s) c.1) eqn:E.
    + apply dict_eqb_true in E. constructor.
      * simpl. rewrite names_of_snoc, decide_True by exact E. rewrite Hhd. reflexivity.
      * rewrite Forall_forall in Htl |- *. intros c' Hc'.
        rewrite names_of_snoc, decide_False, app_nil_r; [apply Htl, Hc' |].
        intros E'. rewrite Forall_forall in Hc.
        apply (Hc c'.1); [apply list_elem_of_fmap; eauto |].
        eapply dict_eq_trans; [apply dict_eq_sym, E | exact E'].
    + apply dict_eqb_false in E. constructor.
      * rewrite names_of_snoc, decide_False, app_nil_r by exact E. exact Hhd.
      * apply IH; [exact Hpd | | exact Htl].
        intros Hall. apply Hnew. constructor; assumption.
Qed.

Lemma names_of_nil_iff v scenarios :
  names_of v scenarios = [] ↔ Forall (λ s, ¬ dict_eq (_x s) v) scenarios.
Proof.
  unfold names_of. induction scenarios as [|s l IH].
  - split; [constructor | reflexivity].
  - rewrite filter_cons. destruct (decide (dict_eq (_x s) v)) as [E|E].
    + split; [discriminate |]. intros H. apply Forall_cons in H as [H _]. tauto.
    + rewrite IH. split; [constructor; assumption |].
      intros H. apply Forall_cons in H as [_ H]. exact H.
Qed.

Lemma registry_inv_step scenarios reg s :
  registry_inv scenarios reg →
  registry_inv (scenarios ++ [s]) (register_scenario reg s).
Proof.
  intros (Hpd & Hnames & Hcover).
  assert (Hnew : Forall (λ c, ¬ dict_eq (_x s) c.1) reg →
                 names_of (_x s) scenarios = []).
  { intros Hall. apply names_of_nil_iff.
    rewrite Forall_forall in Hcover |- *. intros s' Hs' E.
    specialize (Hcover s' Hs'). apply Exists_exists in Hcover as (c & Hc & Hsc).
    rewrite Forall_forall in Hall. apply (Hall c Hc).
    eapply dict_eq_trans; [apply dict_eq_sym, E | exact Hsc]. }
  split; [| split].
  - destruct (register_scenario_vectors reg s) as [[_ Hv] | [Hall Hr]].
    + rewrite Hv. exact Hpd.
    + rewrite Hr, fmap_app. simpl. apply pairwise_distinct_snoc; [exact Hpd |].
      apply Forall_forall. intros w Hw.
      apply list_elem_of_fmap in Hw as (c & -> & Hc).
      apply (proj1 (Forall_forall _ _) Hall c Hc).
  - apply register_scenario_names; assumption.
  - assert (Hmono : ∀ v, Exists (λ c, dict_eq v c.1) reg →
                         Exists (λ c, dict_eq v c.1) (register_scenario reg s)).
    { intros v Hex. apply Exists_exists in Hex as (c & Hc & E).
      assert (Hin : c.1 ∈ (register_scenario reg s).*1).
      { destruct (register_scenario_vectors reg s) as [[_ Hv] | [_ Hr]].
        - rewrite Hv. apply list_elem_of_fmap. eauto.
        - rewrite Hr, fmap_app. apply elem_of_app. left.
          apply list_elem_of_fmap. eauto. }
      apply list_elem_of_fmap in Hin as (c' & Heq & Hc').
      apply Exists_exists. exists c'. split; [exact Hc' |].
      rewrite <- Heq. exact E. }
    apply Forall_app. split.
    + eapply Forall_impl; [exact Hcover |]. intros s'. apply Hmono.
    + constructor; [| constructor].
      destruct (register_scenario_vectors reg s) as [[Hex _] | [_ Hr]].
      * apply Hmono, Hex.
      * rewrite Hr. apply Exists_app. right. left. apply dict_eq_refl.
Qed.

Lemma register_scenario_nonempty sols s :
  Forall (λ c : solution, c.2 ≠ []) sols →
  Forall (λ c : solution, c.2 ≠ []) (register_scenario sols s).
Proof.
  induction sols as [|c sols IH]; simpl; intros H.
  - constructor; [discriminate | constructor].
  - apply Forall_cons in H as [Hc H]. destruct (dict_eqb (_x s) c.1).
    + constructor; [| exact H]. simpl. intros E. apply app_eq_nil in E as [_ E].
      discriminate.
    + constructor; [exact Hc | apply IH, H].
Qed.

Lemma collect_unique_nonempty scenarios :
  Forall (λ c : solution, c.2 ≠ []) (_collect_unique_scenario_solutions scenarios).
Proof.
  unfold _collect_unique_scenario_solutions.
  induction scenarios as [|s l IH] using rev_ind.
  - constructor.
  - rewrite fold_left_app. simpl. apply register_scenario_nonempty, IH.
Qed.

Lemma registry_inv_fold scenarios :
  registry_inv scenarios (_collect_unique_scenario_solutions scenarios).
Proof.
  unfold _collect_unique_scenario_solutions.
  induction scenarios as [|s l IH] using rev_ind.
  - repeat split; constructor.
  - rewrite fold_left_app. simpl. apply registry_inv_step, IH.
Qed.

(** C7. After [_collect_unique_scenario_solutions] the registry holds one
    candidate per distinct first-stage vector under exact dictionary equality:
    no two entries carry equal vectors, every scenario's vector is carried by
    an entry, and the name list of an entry is exactly the names of all the
    scenarios that reported that vector, in the order of the scenario list
    (so two scenarios with equal vectors share one entry). *)
Theorem collect_unique_scenario_solutions_dedup (scenarios : list scenario) :
  let reg := _collect_unique_scenario_solutions scenarios in
  (∀ i j ci cj, reg !! i = Some ci → reg !! j = Some cj →
                dict_eq ci.1 cj.1 → i = j) ∧
  (∀ s, s ∈ scenarios → ∃ c, c ∈ reg ∧ dict_eq (_x s) c.1) ∧
  (∀ c, c ∈ reg →
        c.2 ≠ [] ∧
        c.2 = _name <$> filter (λ s, dict_eq (_x s) c.1) scenarios).
Proof.
  intros reg. subst reg.
  destruct (registry_inv_fold scenarios) as (Hpd & Hnames & Hcover).
  split; [| split].
  - intros i j ci cj Hi Hj E.
    apply (pairwise_distinct_lookup _ i j ci.1 cj.1 Hpd); try assumption.
    + rewrite list_lookup_fmap. unfold solution in *. rewrite Hi. reflexivity.
    + rewrite list_lookup_fmap. unfold solution in *. rewrite Hj. reflexivity.
  - intros s Hs. rewrite Forall_forall in Hcover.
    apply Exists_exists. apply Hcover, Hs.
  - intros c Hc. rewrite Forall_forall in Hnames.
    split; [| apply Hnames, Hc].
    pose proof (collect_unique_nonempty scenarios) as Hne.
    rewrite Forall_forall in Hne. apply Hne, Hc.
Qed.

(** The example of the specification: A and B report [{x1:1, x2:0}], C
    reports [{x1:0, x2:1}]; two candidates, the first owned by A and B. *)
Example collect_unique_example :
  let v10 : gmap string Q := <["x1" := 1]> (<["x2" := 0]> ∅) in
  let v01 : gmap string Q := <["x1" := 0]> (<["x2" := 1]> ∅) in
  _collect_unique_scenario_solutions
    [Scenario "A" v10 (1#2) 0; Scenario "B" v10 (3#10) 0; Scenario "C" v01 (1#5) 0]
  = [(v10, ["A"; "B"]); (v01, ["C"])].
Proof. vm_compute. reflexivity. Qed.

(** ** The incumbent *)

Lemma Qgtb_true_iff a b : Qgtb a b = true ↔ b < a.
Proof.
  unfold Qgtb. rewrite negb_true_iff, <- not_true_iff_false, Qle_bool_iff.
  split; [apply Qnot_le_lt | apply Qlt_not_le].
Qed.

Lemma Qgtb_false_iff a b : Qgtb a b = false ↔ a <= b.
Proof. unfold Qgtb. rewrite negb_false_iff. apply Qle_bool_iff. Qed.

Lemma min_itemgetter_1_spec x l :
  let m := min_itemgetter_1 x l in
  m ∈ x :: l ∧ ∀ y, y ∈ x :: l → m.2 <= y.2.
Proof.
  revert x. induction l as [|y l IH]; intros x; simpl.
  - split; [left |]. intros z Hz. apply list_elem_of_singleton in Hz as ->.
    apply Qle_refl.
  - destruct (IH (if Qgtb x.2 y.2 then y else x)) as [Hin Hmin]. split.
    + apply elem_of_cons in Hin as [-> | Hin].
      * destruct (Qgtb x.2 y.2); [right; left | left].
      * right; right; exact Hin.
    + intros z Hz.
      assert (Hb : (if Qgtb x.2 y.2 then y else x).2 <= x.2 ∧
                   (if Qgtb x.2 y.2 then y else x).2 <= y.2).
      { destruct (Qgtb x.2 y.2) eqn:E.
        - apply Qgtb_true_iff in E. split; [apply Qlt_le_weak, E | apply Qle_refl].
        - apply Qgtb_false_iff in E. split; [apply Qle_refl | exact E]. }
      pose proof (Hmin _ (list_elem_of_here _ _)) as H0.
      apply elem_of_cons in Hz as [-> | Hz].
      * eapply Qle_trans; [exact H0 | apply Hb].
      * apply elem_of_cons in Hz as [-> | Hz].
        -- eapply Qle_trans; [exact H0 | apply Hb].
        -- apply Hmin. right. exact Hz.
Qed.

Lemma elem_of_enumerate {A} (l : list A) i x :
  (i, x) ∈ enumerate l ↔ l !! i = Some x.
Proof.
  unfold enumerate. rewrite list_elem_of_lookup. split.
  - intros [j Hj]. rewrite list_lookup_imap in Hj.
    destruct (l !! j) eqn:E; simpl in Hj; [| discriminate].
    injection Hj as <- <-. exact E.
  - intros H. exists i. rewrite list_lookup_imap, H. reflexivity.
Qed.

(** The list [feasible_obj] of [_update_incumbent]. *)
Lemma elem_of_feasible_obj (objs : list (option Q)) i v :
  (i, v) ∈ omap (λ o : nat * option Q, v ← o.2; Some (o.1, v)) (enumerate objs)
  ↔ objs !! i = Some (Some v).
Proof.
  rewrite list_elem_of_omap. split.
  - intros [[j o] [Hin Heq]]. simpl in Heq. destruct o as [w|]; [| discriminate].
    simpl in Heq. injection Heq as -> ->. apply elem_of_enumerate, Hin.
  - intros H. exists (i, Some v). split; [apply elem_of_enumerate, H | reflexivity].
Qed.

Lemma post_ph_initialization_sense_ok ph p : sense_ok (post_ph_initialization ph p).
Proof.
  unfold sense_ok, post_ph_initialization. simpl.
  destruct (_objective_sense ph); [left | right]; reflexivity.
Qed.

(** One call of [_update_incumbent]: either the incumbent is left as it was,
    or it is replaced by a candidate with a feasible objective that is
    minimal among the feasible ones and strictly better (sense-adjusted)
    than the old incumbent. *)
Lemma update_incumbent_step ph self self' :
  _update_incumbent ph self = Some self' →
  _sense_to_min self' = _sense_to_min self ∧
  (incumbent self' = incumbent self ∨
   ∃ id o sol,
     feasible_objectives self !! id = Some (Some o) ∧
     unique_scenario_solutions self !! id = Some sol ∧
     incumbent self' =
       Some (_sense_to_min self * o * _sense_to_min self, sol, id) ∧
     (∀ j o', feasible_objectives self !! j = Some (Some o') →
              _sense_to_min self * o <= _sense_to_min self * o') ∧
     match incumbent self with
     | None => True
     | Some old => _sense_to_min self * o < old.1.1 * _sense_to_min self
     end).
Proof.
  unfold _update_incumbent.
  set (fo := omap _ (enumerate (feasible_objectives self))).
  assert (Hfo : ∀ i v, (i, v) ∈ fo ↔ feasible_objectives self !! i = Some (Some v))
    by apply elem_of_feasible_obj.
  destruct fo as [|x xs] eqn:Efo.
  { intros [= <-]. split; [reflexivity | left; reflexivity]. }
  set (s := _sense_to_min self) in *.
  pose proof (min_itemgetter_1_spec (x.1, s * x.2)
                ((λ x : nat * Q, (x.1, s * x.2)) <$> xs)) as [Hin Hmin].
  destruct (min_itemgetter_1 _ _) as [best_id best_obj]. simpl in Hmin.
  change ((x.1, s * x.2) :: ((λ x : nat * Q, (x.1, s * x.2)) <$> xs))
    with ((λ x : nat * Q, (x.1, s * x.2)) <$> (x :: xs)) in Hin, Hmin.
  apply list_elem_of_fmap in Hin as ([id o] & Heq & Hino). simpl in Heq.
  injection Heq as -> ->.
  assert (Hstep : ∀ self1 : plugin,
    (if match incumbent self with
        | None => true
        | Some inc => Qgtb (inc.1.1 * s) (s * o)
        end
     then sol ← unique_scenario_solutions self !! id;
          Some (set_incumbent (Some (s * o * s, sol, id)) self)
     else Some self) = Some self1 →
    _sense_to_min self1 = s ∧ optimality_cuts self1 = optimality_cuts self ∧
    (incumbent self1 = incumbent self ∨
     ∃ sol, unique_scenario_solutions self !! id = Some sol ∧
            incumbent self1 = Some (s * o * s, sol, id) ∧
            match incumbent self with
            | None => True
            | Some old => s * o < old.1.1 * s
            end)).
  { intros self1. destruct (incumbent self) as [inc|] eqn:Einc.
    - destruct (Qgtb (inc.1.1 * s) (s * o)) eqn:Egt.
      + destruct (unique_scenario_solutions self !! id) as [sol|]; simpl; [| discriminate].
        intros [= <-]. simpl. repeat split. right. exists sol.
        repeat split. apply Qgtb_true_iff, Egt.
      + intros [= <-]. repeat split. rewrite Einc. left. reflexivity.
    - destruct (unique_scenario_solutions self !! id) as [sol|]; simpl; [| discriminate].
      intros [= <-]. simpl. repeat split. right. exists sol. repeat split. }
  assert (Hfinish : ∀ self1 : plugin,
    _sense_to_min self1 = s ∧ optimality_cuts self1 = optimality_cuts self ∧
    (incumbent self1 = incumbent self ∨
     ∃ sol, unique_scenario_solutions self !! id = Some sol ∧
            incumbent self1 = Some (s * o * s, sol, id) ∧
            match incumbent self with
            | None => True
            | Some old => s * o < old.1.1 * s
            end) →
    _sense_to_min self1 = s ∧
    (incumbent self1 = incumbent self ∨
     ∃ id0 o0 sol,
       feasible_objectives self !! id0 = Some (Some o0) ∧
       unique_scenario_solutions self !! id0 = Some sol ∧
       incumbent self1 = Some (s * o0 * s, sol, id0) ∧
       (∀ j o', feasible_objectives self !! j = Some (Some o') → s * o0 <= s * o') ∧
       match incumbent self with
       | None => True
       | Some old => s * o0 < old.1.1 * s
       end)).
  { intros self1 (Hs & _ & [Hsame | (sol & Hsol & Hinc & Hlt)]).
    - split; [exact Hs | left; exact Hsame].
    - split; [exact Hs |]. right. exists id, o, sol. repeat split; try assumption.
      + apply Hfo, Hino.
      + intros j o' Hj. apply Hfo in Hj.
        apply (Hmin (j, s * o')). apply list_elem_of_fmap. exists (j, o'). split; [reflexivity | exact Hj]. }
  intros H. apply bind_Some in H as (self1 & H1 & H2).
  apply Hstep in H1.
  destruct (length (x :: xs) <=? 1)%nat.
  { injection H2 as <-. apply Hfinish, H1. }
  destruct (classify_variables _ _ _ _) as [[binary_vars integer_vars]|].
  - apply bind_Some in H2 as (cuts & _ & [= <-]). simpl. apply Hfinish.
    destruct H1 as (? & ? & ?). repeat split; simpl; assumption.
  - injection H2 as <-. apply Hfinish, H1.
Qed.


(** A candidate whose objective [_compute_objective] reports is feasible for
    every scenario or bundle of the probability list. *)
Lemma objective_loop_feasible partial_obj_values soln_id (probability : list Q) :
  ∀ k obj v,
    objective_loop partial_obj_values soln_id
      (imap (λ i, pair (k + i)%nat) probability) obj = Some (Some v) →
    ∀ i pr, probability !! i = Some pr →
      ∃ row o, partial_obj_values !! (k + i)%nat = Some row ∧
               row !! soln_id = Some (Some o).
Proof.
  induction probability as [|p rest IH]; intros k obj v H i pr Hi.
  - destruct i; discriminate.
  - simpl in H. rewrite Nat.add_0_r in H.
    destruct (partial_obj_values !! k) as [row|] eqn:Erow; simpl in H; [| discriminate].
    destruct (row !! soln_id) as [[o|]|] eqn:Eo; simpl in H; try discriminate.
    destruct i as [|i].
    + rewrite Nat.add_0_r. eauto.
    + simpl in Hi. rewrite (imap_ext _ (λ i, pair (S k + i)%nat)) in H
        by (intros; simpl; f_equal; lia).
      replace (k + S i)%nat with (S k + i)%nat by lia.
      eapply IH; eassumption.
Qed.

Lemma compute_objective_lookup self partial_obj_values probability objs id o :
  _compute_objective self partial_obj_values probability = Some objs →
  objs !! id = Some o →
  objective_loop partial_obj_values id (enumerate probability) 0 = Some o.
Proof.
  unfold _compute_objective. intros H Hid. apply mapM_Some in H.
  destruct (Forall2_lookup_r _ _ _ _ _ H Hid) as (j & Hj & Hf).
  apply lookup_seq in Hj as [-> _]. exact Hf.
Qed.

(** One cycle: the sense factor is kept, and the incumbent is kept or
    replaced by a strictly better candidate that is feasible for every
    scenario. *)
Lemma incumbent_cycle_step ph self sols partial_obj_values probability self' :
  sense_ok self →
  incumbent_cycle ph self (sols, partial_obj_values, probability) = Some self' →
  _sense_to_min self' = _sense_to_min self ∧
  ∀ old, incumbent self = Some old →
    ∃ new, incumbent self' = Some new ∧
      new.1.1 * _sense_to_min self' <= old.1.1 * _sense_to_min self ∧
      (new = old ∨
       (new.1.1 * _sense_to_min self' < old.1.1 * _sense_to_min self ∧
        sols !! new.2 = Some new.1.2 ∧
        (∃ o, objective_loop partial_obj_values new.2 (enumerate probability) 0
                = Some (Some o) ∧ new.1.1 == o) ∧
        ∀ scen_id pr, probability !! scen_id = Some pr →
          ∃ row o, partial_obj_values !! scen_id = Some row ∧
                   row !! new.2 = Some (Some o))).
Proof.
  intros Hs H. unfold incumbent_cycle in H.
  apply bind_Some in H as (objs & Hobjs & H).
  apply update_incumbent_step in H as [Hsense Hinc]. simpl in Hsense, Hinc.
  split; [exact Hsense |]. intros old Hold. rewrite Hsense.
  set (s := _sense_to_min self) in *.
  assert (Hss : s * s == 1).
  { unfold sense_ok in Hs. fold s in Hs. destruct Hs as [Hs | Hs]; rewrite Hs; reflexivity. }
  destruct Hinc as [Hsame | (id & o & sol & Hid & Hsol & Hnew & _ & Hlt)].
  - exists old. split; [congruence |]. split; [apply Qle_refl | left; reflexivity].
  - rewrite Hold in Hlt. exists (s * o * s, sol, id). simpl.
    assert (Hadj : s * o * s * s == s * o).
    { rewrite <- Qmult_assoc, Hss. apply Qmult_1_r. }
    split; [exact Hnew |]. split; [rewrite Hadj; apply Qlt_le_weak, Hlt |].
    right. split; [rewrite Hadj; exact Hlt |]. split; [exact Hsol |].
    pose proof (compute_objective_lookup _ _ _ _ _ _ Hobjs Hid) as Hloop.
    split.
    + exists o. split; [exact Hloop |].
      rewrite (Qmult_comm s o), <- Qmult_assoc, Hss. apply Qmult_1_r.
    + intros scen_id pr Hpr.
      apply (objective_loop_feasible _ _ probability 0%nat 0 o Hloop scen_id pr Hpr).
Qed.

(** C3. Across any sequence of incumbent updates (from any state whose sense
    factor is 1 or -1, in particular the state after [reset] and
    [post_ph_initialization]), the sense-adjusted incumbent objective never
    increases: each update either leaves the incumbent as it is, or replaces
    it by a candidate that is feasible for every scenario and whose
    sense-adjusted expected objective is strictly smaller. *)
Theorem incumbent_monotone ph self runs trace :
  sense_ok self →
  incumbent_cycles ph self runs = Some trace →
  ∀ k before after sols partial_obj_values probability old,
    (self :: trace) !! k = Some before →
    trace !! k = Some after →
    runs !! k = Some (sols, partial_obj_values, probability) →
    incumbent before = Some old →
    ∃ new, incumbent after = Some new ∧
      new.1.1 * _sense_to_min after <= old.1.1 * _sense_to_min before ∧
      (new = old ∨
       (new.1.1 * _sense_to_min after < old.1.1 * _sense_to_min before ∧
        sols !! new.2 = Some new.1.2 ∧
        (∃ o, objective_loop partial_obj_values new.2 (enumerate probability) 0
                = Some (Some o) ∧ new.1.1 == o) ∧
        ∀ scen_id pr, probability !! scen_id = Some pr →
          ∃ row o, partial_obj_values !! scen_id = Some row ∧
                   row !! new.2 = Some (Some o))).
Proof.
  revert self trace. induction runs as [|run runs IH]; intros self trace Hs H k.
  - intros before after sols pov pr old _ _ Hk. destruct k; discriminate.
  - simpl in H. apply bind_Some in H as (self' & Hcycle & H).
    apply bind_Some in H as (trace' & Htrace & [= <-]).
    destruct run as [[sols0 pov0] pr0].
    pose proof (incumbent_cycle_step _ _ _ _ _ _ Hs Hcycle) as [Hsense Hstep].
    destruct k as [|k]; intros before after sols pov pr old Hb Ha Hr Hold.
    + simpl in Hb, Ha, Hr. injection Hb as <-. injection Ha as <-.
      injection Hr as <- <- <-. apply Hstep, Hold.
    + simpl in Ha, Hr. change ((self :: self' :: trace') !! S k)
        with ((self' :: trace') !! k) in Hb.
      eapply (IH self' trace'); try eassumption.
      unfold sense_ok. rewrite Hsense. exact Hs.
Qed.

(** An instance: a minimisation run of two cycles; the second cycle finds a
    better candidate. *)
Lemma incumbent_monotone_witness :
  let ph := {| _objective_sense := minimize; _current_iteration := 0;
               _scenarios := []; _variable_datas := ∅; _fixed := ∅;
               _xbars := ∅ |} in
  let self := post_ph_initialization ph (reset __init__) in
  let c0 : solution := (∅, ["A"]) in
  let c1 : solution := (∅, ["B"]) in
  let run0 := ([c0; c1], [[Some 4; None]; [Some 6; Some 1]], [1 # 2; 1 # 2]) in
  let run1 := ([c0; c1], [[Some 4; Some 2]; [Some 6; Some 1]], [1 # 2; 1 # 2]) in
  let trace := default [] (incumbent_cycles ph self [run0; run1]) in
  let before := default self (trace !! 0%nat) in
  let after := default self (trace !! 1%nat) in
  let old := default (0, c0, 0%nat) (incumbent before) in
  sense_ok self ∧
  incumbent_cycles ph self [run0; run1] = Some trace ∧
  incumbent before = Some old ∧
  ∃ new, incumbent after = Some new ∧
         new.1.1 * _sense_to_min after <= old.1.1 * _sense_to_min before.
Proof.
  intros ph self c0 c1 run0 run1 trace before after old.
  assert (Hs : sense_ok self) by apply post_ph_initialization_sense_ok.
  assert (Ht : incumbent_cycles ph self [run0; run1] = Some trace)
    by (vm_compute; reflexivity).
  assert (Ho : incumbent before = Some old) by (vm_compute; reflexivity).
  split; [exact Hs |]. split; [exact Ht |]. split; [exact Ho |].
  destruct (incumbent_monotone ph self [run0; run1] trace Hs Ht 1%nat before after
              [c0; c1] [[Some 4; Some 2]; [Some 6; Some 1]] [1 # 2; 1 # 2] old)
    as (new & Hnew & Hle & _).
  - vm_compute. reflexivity.
  - vm_compute. reflexivity.
  - reflexivity.
  - exact Ho.
  - exists new. split; assumption.
Defined.


(** ** Distribution of the feasibility cuts *)

Lemma elem_of_insert_sorted x l e : e ∈ insert_sorted x l ↔ e = x ∨ e ∈ l.
Proof.
  induction l as [|y l IH]; simpl.
  - rewrite list_elem_of_singleton, elem_of_nil. tauto.
  - destruct (Qgtb y x).
    + rewrite elem_of_cons. tauto.
    + rewrite !elem_of_cons, IH. tauto.
Qed.

Lemma insert_sorted_StronglySorted x l :
  StronglySorted Qle l → StronglySorted Qle (insert_sorted x l).
Proof.
  induction 1 as [|y l Hl IH Hy]; simpl.
  - repeat constructor.
  - destruct (Qgtb y x) eqn:E.
    + apply Qgtb_true_iff in E. constructor; [constructor; assumption |].
      constructor; [apply Qlt_le_weak, E |].
      eapply Forall_impl; [exact Hy |]. intros z Hz. simpl in Hz.
      eapply Qle_trans; [apply Qlt_le_weak, E | exact Hz].
    + apply Qgtb_false_iff in E. constructor; [exact IH |].
      apply Forall_forall. intros z Hz. apply elem_of_insert_sorted in Hz as [-> | Hz].
      * exact E.
      * rewrite Forall_forall in Hy. apply Hy, Hz.
Qed.

Lemma sorted_spec l :
  StronglySorted Qle (sorted l) ∧ ∀ e, e ∈ sorted l ↔ e ∈ l.
Proof.
  unfold sorted.
  assert (H : ∀ acc, StronglySorted Qle acc →
    StronglySorted Qle (fold_left (λ acc x, insert_sorted x acc) l acc) ∧
    ∀ e, e ∈ fold_left (λ acc x, insert_sorted x acc) l acc ↔ e ∈ acc ∨ e ∈ l).
  { induction l as [|x l IH]; intros acc Hacc; simpl.
    - split; [exact Hacc |]. intros e. rewrite elem_of_nil. tauto.
    - destruct (IH (insert_sorted x acc) (insert_sorted_StronglySorted _ _ Hacc))
        as [Hs He].
      split; [exact Hs |]. intros e.
      rewrite He, elem_of_insert_sorted, elem_of_cons. tauto. }
  destruct (H [] (SSorted_nil _)) as [Hs He]. split; [exact Hs |].
  intros e. rewrite He, elem_of_nil. tauto.
Qed.

(** The first element of a sorted list is a least element of the list. *)
Lemma sorted_head l h t :
  sorted l = h :: t → h ∈ l ∧ ∀ d, d ∈ l → h <= d.
Proof.
  intros E. destruct (sorted_spec l) as [Hs He]. rewrite E in Hs, He.
  split; [apply He; left |]. intros d Hd. apply He in Hd.
  apply elem_of_cons in Hd as [-> | Hd]; [apply Qle_refl |].
  apply StronglySorted_inv in Hs as [_ Hh]. rewrite Forall_forall in Hh.
  apply Hh, Hd.
Qed.

Lemma above_true_iff threshold c :
  above threshold c = true ↔ ∃ d cut, c = CutTuple d cut ∧ threshold < d.
Proof.
  destruct c as [d cut | s]; simpl.
  - rewrite Qgtb_true_iff. split; [eauto |]. intros (? & ? & [= <- <-] & H). exact H.
  - split; [discriminate |]. intros (? & ? & ? & _). discriminate.
Qed.

Lemma elem_of_concat {A} (ls : list (list A)) x :
  x ∈ concat ls ↔ ∃ l, l ∈ ls ∧ x ∈ l.
Proof.
  induction ls as [|l ls IH]; simpl.
  - rewrite elem_of_nil. split; [tauto |]. intros (l & Hl & _).
    apply elem_of_nil in Hl. exact Hl.
  - rewrite elem_of_app, IH. split.
    + intros [H | (l' & Hl' & H)]; [exists l; split; [left | exact H] |].
      exists l'. split; [right; exact Hl' | exact H].
    + intros (l' & Hl' & H). apply elem_of_cons in Hl' as [-> | Hl']; eauto.
Qed.

(** The magnitudes of [cutObj]: those of the cut tuples of the library that
    exceed [cutThreshold_minDiff]. *)
Lemma elem_of_cutObj self d :
  d ∈ cutObj self ↔
  cutThreshold_minDiff self < d ∧
  ∃ row cut, row ∈ feasibility_cuts self ∧ CutTuple d cut ∈ row.
Proof.
  unfold cutObj. rewrite (proj2 (sorted_spec _)), list_elem_of_omap. split.
  - intros (c & Hc & Hm). apply list_elem_of_filter in Hc as [Hab Hc].
    destruct c as [d' cut | s]; simpl in Hm; [| discriminate]. injection Hm as ->.
    simpl in Hab. apply Qgtb_true_iff in Hab. split; [exact Hab |].
    apply elem_of_concat in Hc as (row & Hrow & Hc). eauto.
  - intros (Hd & row & cut & Hrow & Hc). exists (CutTuple d cut). split; [| reflexivity].
    apply list_elem_of_filter. split; [simpl; apply Qgtb_true_iff, Hd |].
    apply elem_of_concat. eauto.
Qed.

Lemma py_index_elem_of {A} (l : list A) i x : py_index l i = Some x → x ∈ l.
Proof.
  unfold py_index. destruct (0 <=? i)%Z; [apply list_elem_of_lookup_2 |].
  destruct (0 <=? _)%Z; [apply list_elem_of_lookup_2 | discriminate].
Qed.

(** The cutoff: an element of [cutObj], or the constant [1] when [cutObj] is
    empty. *)
Lemma allCutThreshold_cases self thr :
  allCutThreshold self = Some thr →
  (cutObj self = [] ∧ thr = 1) ∨ thr ∈ cutObj self.
Proof.
  unfold allCutThreshold. destruct (cutObj self) as [|h t] eqn:E.
  - intros [= <-]. left. split; reflexivity.
  - intros H. right. eapply py_index_elem_of, H.
Qed.

Lemma int_zero q : q == 0 → int q = 0%Z.
Proof.
  unfold Qeq, int. simpl. intros H. rewrite Z.mul_1_r in H. rewrite H.
  apply Z.quot_0_l. discriminate.
Qed.

(** With [cutThreshold_crossCut = 1] the cutoff is the first, hence the
    weakest, element of [cutObj]. *)
Lemma allCutThreshold_crossCut_one self :
  cutThreshold_crossCut self == 1 → cutObj self ≠ [] →
  ∃ thr, allCutThreshold self = Some thr ∧ thr ∈ cutObj self ∧
         ∀ d, d ∈ cutObj self → thr <= d.
Proof.
  intros Hc Hne. unfold allCutThreshold.
  destruct (cutObj self) as [|h t] eqn:E; [congruence |].
  rewrite int_zero by (rewrite Hc; ring).
  rewrite Z.min_l by (simpl; lia). exists h. split; [reflexivity |].
  split; [left |]. intros d Hd. unfold cutObj in E.
  pose proof (sorted_head _ _ _ E) as [_ Hmin]. apply Hmin.
  apply (proj2 (sorted_spec _)). rewrite E. exact Hd.
Qed.


Lemma column_cuts_elem self id threshold col e :
  column_cuts self id threshold = Some col →
  e ∈ col ↔
  above threshold e = true ∧
  ∃ row, row ∈ feasibility_cuts self ∧ row !! id = Some e.
Proof.
  unfold column_cuts. intros H. apply bind_Some in H as (col0 & Hcol & [= <-]).
  apply mapM_Some in Hcol. rewrite list_elem_of_filter.
  split; intros [Hab H]; (split; [exact Hab |]).
  - apply list_elem_of_lookup in H as [i Hi].
    destruct (Forall2_lookup_r _ _ _ _ _ Hcol Hi) as (row & Hrow & He).
    exists row. split; [eapply list_elem_of_lookup_2, Hrow | exact He].
  - destruct H as (row & Hrow & He). apply list_elem_of_lookup in Hrow as [i Hi].
    destruct (Forall2_lookup_l _ _ _ _ _ Hcol Hi) as (e' & He' & Heq).
    rewrite He in Heq. injection Heq as <-. eapply list_elem_of_lookup_2, He'.
Qed.

Lemma collect_cuts_elem self threshold problem sols cuts r :
  collect_cuts self threshold problem sols cuts = Some r →
  ∀ e, e ∈ r ↔
       e ∈ cuts ∨
       ∃ id sol, (id, sol) ∈ sols ∧ contributes self threshold problem id sol e.
Proof.
  revert cuts. induction sols as [|[id [x s]] sols IH]; intros cuts H e.
  - simpl in H. injection H as <-. split; [tauto |].
    intros [H | (? & ? & H & _)]; [exact H | apply elem_of_nil in H; tauto].
  - simpl in H. apply bind_Some in H as (found & Hfound & H).
    apply bind_Some in H as (cuts' & Hcuts' & H).
    rewrite (IH _ H e). clear IH H.
    assert (Hc : e ∈ cuts' ↔
                 e ∈ cuts ∨ contributes self threshold problem id (x, s) e).
    { unfold contributes. simpl. rewrite Hfound. destruct found.
      - apply bind_Some in Hcuts' as (new & Hnew & [= <-]).
        rewrite elem_of_app, (column_cuts_elem _ _ _ _ e Hnew).
        split; [| intros [H | (H1 & [(_ & H2) | (H2 & _)])]; [tauto | tauto | discriminate]].
        intros [H | [H1 H2]]; [tauto |]. right. split; [exact H2 | left; tauto].
      - apply bind_Some in Hcuts' as (obj & Hobj & Hcuts'). rewrite Hobj.
        destruct obj as [o|].
        + injection Hcuts' as <-.
          split; [tauto |]. intros [H | (_ & [(H & _) | (_ & H & _)])];
            [exact H | discriminate | discriminate].
        + apply bind_Some in Hcuts' as (new & Hnew & [= <-]).
          rewrite elem_of_app, (column_cuts_elem _ _ _ _ e Hnew).
          split; [| intros [H | (H1 & [(H2 & _) | (_ & _ & H2)])]; [tauto | discriminate | tauto]].
          intros [H | [H1 H2]]; [tauto |]. right. split; [exact H2 | right; tauto]. }
    rewrite Hc. split.
    + intros [[H | H] | (id' & sol' & Hin & H)].
      * left; exact H.
      * right. exists id, (x, s). split; [left | exact H].
      * right. exists id', sol'. split; [right; exact Hin | exact H].
    + intros [H | (id' & sol' & Hin & H)]; [tauto |].
      apply elem_of_cons in Hin as [[= -> ->] | Hin]; [tauto |].
      right. eauto.
Qed.

Lemma distribute_loop_elem self threshold subproblems sent :
  distribute_loop self threshold subproblems = Some sent →
  (∀ problem, problem ∈ subproblems →
     ∃ cuts, collect_cuts self threshold problem
               (enumerate (unique_scenario_solutions self)) [] = Some cuts ∧
             (cuts ≠ [] →
              Delivery (problem_name problem) cuts (optimality_cuts self) ∈ sent)) ∧
  (∀ dl, dl ∈ sent →
     ∃ problem, problem ∈ subproblems ∧
       collect_cuts self threshold problem
         (enumerate (unique_scenario_solutions self)) [] = Some (feasibility dl)).
Proof.
  revert sent. induction subproblems as [|problem rest IH]; intros sent H.
  - simpl in H. injection H as <-. split.
    + intros ? Hin. apply elem_of_nil in Hin. tauto.
    + intros ? Hin. apply elem_of_nil in Hin. tauto.
  - simpl in H. apply bind_Some in H as (cuts & Hcuts & H).
    apply bind_Some in H as (sent' & Hsent' & H).
    destruct (IH _ Hsent') as [IH1 IH2]. clear IH.
    assert (Hsub : ∀ dl, dl ∈ sent' → dl ∈ sent).
    { intros dl Hdl. destruct cuts, (optimality_cuts self); injection H as <-;
        try exact Hdl; right; exact Hdl. }
    split.
    + intros problem' Hin. apply elem_of_cons in Hin as [-> | Hin].
      * exists cuts. split; [exact Hcuts |]. intros Hne.
        destruct cuts; [congruence |]. injection H as <-. left.
      * destruct (IH1 _ Hin) as (cuts' & Hc & Hd). exists cuts'.
        split; [exact Hc |]. intros Hne. apply Hsub, Hd, Hne.
    + intros dl Hdl.
      assert (Hcase : dl = Delivery (problem_name problem) cuts (optimality_cuts self)
                      ∨ dl ∈ sent').
      { destruct cuts, (optimality_cuts self); injection H as <-;
          try (right; exact Hdl); apply elem_of_cons in Hdl; exact Hdl. }
      destruct Hcase as [-> | Hin].
      * exists problem. split; [left | exact Hcuts].
      * destruct (IH2 _ Hin) as (problem' & Hp & Hc). exists problem'.
        split; [right; exact Hp | exact Hc].
Qed.

(** Every call of [add_new_cuts] is made for a subproblem of the list, with
    the cuts that the loop over the candidates collected for it. *)
Lemma distribute_loop_from self threshold subproblems :
  ∀ sent,
    distribute_loop self threshold subproblems = Some sent →
    ∀ dl, dl ∈ sent →
      ∃ problem, problem ∈ subproblems ∧ to dl = problem_name problem ∧
        collect_cuts self threshold problem
          (enumerate (unique_scenario_solutions self)) [] = Some (feasibility dl).
Proof.
  induction subproblems as [|problem rest IH]; intros sent Hsent dl Hdl;
    simpl in Hsent.
  - injection Hsent as <-. apply elem_of_nil in Hdl as [].
  - apply bind_Some in Hsent as (cuts & Hcuts & Hsent).
    apply bind_Some in Hsent as (sent1 & Hrest & Hsent).
    assert (Hback : dl ∈ sent1 →
              ∃ problem0, problem0 ∈ problem :: rest ∧
                to dl = problem_name problem0 ∧
                collect_cuts self threshold problem0
                  (enumerate (unique_scenario_solutions self)) []
                  = Some (feasibility dl)).
    { intros Hin. destruct (IH sent1 Hrest dl Hin) as (p0 & Hp0 & Hto & Hc).
      exists p0. split; [right; exact Hp0 |]. split; assumption. }
    assert (Hnew : dl = Delivery (problem_name problem) cuts (optimality_cuts self) →
              ∃ problem0, problem0 ∈ problem :: rest ∧
                to dl = problem_name problem0 ∧
                collect_cuts self threshold problem0
                  (enumerate (unique_scenario_solutions self)) []
                  = Some (feasibility dl)).
    { intros ->. exists problem. split; [left |]. split; [reflexivity | exact Hcuts]. }
    destruct cuts as [|c cuts], (optimality_cuts self) as [|o os];
      injection Hsent as <-;
      try (apply elem_of_cons in Hdl as [Hdl | Hdl]; [apply Hnew, Hdl |]);
      apply Hback, Hdl.
Qed.

(** X1. When some library cut exceeds the minimum threshold, or the minimum
    threshold is at most the constant [1] that stands in for the cutoff of an
    empty [cutObj], every cut that is handed to [add_new_cuts] exceeds the
    minimum threshold. *)
Lemma distribute_cuts_above_minDiff subproblems self sent self' :
  cutObj self ≠ [] ∨ cutThreshold_minDiff self <= 1 →
  _distribute_cuts subproblems self = Some (sent, self') →
  ∀ dl e, dl ∈ sent → e ∈ feasibility dl →
    ∃ d cut, e = CutTuple d cut ∧ cutThreshold_minDiff self < d.
Proof.
  intros Hcfg H dl e Hdl He. unfold _distribute_cuts in H.
  apply bind_Some in H as (thr & Hthr & H).
  apply bind_Some in H as (sent0 & Hsent & [= <- <-]).
  destruct (distribute_loop_elem _ _ _ _ Hsent) as [_ Hfrom].
  destruct (Hfrom dl Hdl) as (problem & _ & Hcollect).
  apply (collect_cuts_elem _ _ _ _ _ _ Hcollect e) in He
    as [He | (id & sol & _ & _ & [(_ & Hab) | (_ & _ & Hab)])].
  - apply elem_of_nil in He. tauto.
  - apply above_true_iff, Hab.
  - apply above_true_iff in Hab as (d & cut & -> & Hd). exists d, cut.
    split; [reflexivity |].
    destruct (allCutThreshold_cases _ _ Hthr) as [[Hnil ->] | Hin].
    + destruct Hcfg as [Hne | Hle]; [congruence |].
      eapply Qle_lt_trans; eassumption.
    + apply elem_of_cutObj in Hin as [Hmin _]. eapply Qlt_trans; eassumption.
Qed.

Lemma distribute_cuts_above_minDiff_witness :
  let self := two_scenario_run (1 # 10) 1 (1 # 2) in
  let sent := default [] (fst <$> _distribute_cuts two_scenarios self) in
  let dl := default (Delivery "" [] []) (sent !! 0%nat) in
  let e := default (CutString "") (feasibility dl !! 0%nat) in
  cutObj self ≠ [] ∧ dl ∈ sent ∧ e ∈ feasibility dl ∧
  ∃ d cut, e = CutTuple d cut ∧ cutThreshold_minDiff self < d.
Proof.
  intros self sent dl e.
  assert (Hne : cutObj self ≠ []) by (vm_compute; discriminate).
  assert (Hdl : dl ∈ sent) by (vm_compute; left).
  assert (He : e ∈ feasibility dl) by (vm_compute; left).
  repeat (split; [assumption |]).
  apply (distribute_cuts_above_minDiff two_scenarios self sent
           (set_optimality_cuts [] (set_feasibility_cuts [] self))
           (or_introl Hne) eq_refl dl e Hdl He).
Defined.

(** C4. With [cutThreshold_minDiff = 2] and a library whose only cut has
    magnitude 3/2, [cutObj] is empty, the cutoff falls back to the constant
    [1], and [_distribute_cuts] hands the cut of magnitude 3/2, which is below
    the minimum threshold, to scenario B. *)
Theorem distribute_cuts_below_minDiff :
  let self := two_scenario_run 2 1 (3 # 2) in
  cutObj self = [] ∧
  allCutThreshold self = Some 1 ∧
  (fst <$> _distribute_cuts two_scenarios self) =
    Some [Delivery "B" [CutTuple (3 # 2) {["x" := (1 # 2, 0)]}] []] ∧
  ¬ cutThreshold_minDiff self < 3 # 2.
Proof.
  intros self. repeat split.
  intros H. vm_compute in H. discriminate.
Qed.

(** C5, as stated, fails: with [cutThreshold_crossCut = 1] and
    [cutThreshold_minDiff = 1/10], the only library cut has magnitude 1/2,
    above the minimum threshold; candidate 0 is not globally feasible and
    scenario B does not own it, yet the cut is sent to A only. *)
Lemma crossCut_one_withholds_weakest :
  let self := two_scenario_run (1 # 10) 1 (1 # 2) in
  let c := CutTuple (1 # 2) {["x" := (1 # 2, 0)]} in
  cutThreshold_crossCut self == 1 ∧
  cutThreshold_minDiff self < 1 # 2 ∧
  feasible_objectives self !! 0%nat = Some None ∧
  unique_scenario_solutions self !! 0%nat = Some ({["x" := 0]}, ["A"]) ∧
  (∃ row, row ∈ feasibility_cuts self ∧ row !! 0%nat = Some c) ∧
  allCutThreshold self = Some (1 # 2) ∧
  ∃ sent self',
    _distribute_cuts two_scenarios self = Some (sent, self') ∧
    sent = [Delivery "A" [c] []] ∧
    ¬ ∃ dl, dl ∈ sent ∧ to dl = "B" ∧ c ∈ feasibility dl.
Proof.
  intros self c. repeat split.
  - eexists. split; [right; left | reflexivity].
  - eexists _, _. split; [reflexivity |]. split; [reflexivity |].
    intros (dl & Hdl & Hto & _). apply list_elem_of_singleton in Hdl. subst dl.
    discriminate.
Qed.

(** C5, amended.  With [cutThreshold_crossCut = 1] and a non-empty [cutObj],
    the cutoff is the weakest magnitude of the library above the minimum
    threshold, and every cut tuple of the library whose magnitude is strictly
    above that cutoff is handed to every scenario that does not own the cut's
    candidate, provided the candidate is not globally feasible.  A cut whose
    magnitude is at the cutoff or below it (the weakest cut above the
    minimum and its ties) is not sent on behalf of a candidate that the
    receiving subproblem does not own: wherever such a cut is handed over,
    it is in the column of a candidate that the subproblem owns. *)
Theorem distribute_cuts_crossCut_one subproblems self sent self' :
  cutThreshold_crossCut self == 1 →
  cutObj self ≠ [] →
  _distribute_cuts subproblems self = Some (sent, self') →
  ∃ thr,
    allCutThreshold self = Some thr ∧
    thr ∈ cutObj self ∧
    (∀ d, d ∈ cutObj self → thr <= d) ∧
    (∀ sc id sol row d cut,
       OfScenario sc ∈ subproblems →
       unique_scenario_solutions self !! id = Some sol →
       _name sc ∉ sol.2 →
       feasible_objectives self !! id = Some None →
       row ∈ feasibility_cuts self →
       row !! id = Some (CutTuple d cut) →
       thr < d →
       ∃ dl, dl ∈ sent ∧ to dl = _name sc ∧ CutTuple d cut ∈ feasibility dl) ∧
    ∀ dl, dl ∈ sent →
      ∃ problem,
        problem ∈ subproblems ∧ to dl = problem_name problem ∧
        ∀ d cut, CutTuple d cut ∈ feasibility dl → d <= thr →
          ∃ id sol row,
            unique_scenario_solutions self !! id = Some sol ∧
            found_in problem sol.2 = Some true ∧
            row ∈ feasibility_cuts self ∧
            row !! id = Some (CutTuple d cut) ∧
            cutThreshold_minDiff self < d.
Proof.
  intros Hc Hne H.
  destruct (allCutThreshold_crossCut_one self Hc Hne) as (thr & Hthr & Hin & Hmin).
  exists thr. split; [exact Hthr |]. split; [exact Hin |]. split; [exact Hmin |].
  unfold _distribute_cuts in H. rewrite Hthr in H. simpl in H.
  apply bind_Some in H as (sent0 & Hsent & [= <- <-]).
  split.
  - intros sc id sol row d cut Hsc Hsol Hown Hfo Hrow Hid Hd.
    destruct (distribute_loop_elem _ _ _ _ Hsent) as [Hto _].
    destruct (Hto _ Hsc) as (cuts & Hcollect & Hdl).
    assert (Hcut : CutTuple d cut ∈ cuts).
    { apply (collect_cuts_elem _ _ _ _ _ _ Hcollect). right. exists id, sol.
      split; [apply elem_of_enumerate, Hsol |]. split; [eauto |]. right.
      split; [| split; [exact Hfo | simpl; apply Qgtb_true_iff, Hd]].
      simpl. f_equal. apply bool_decide_eq_false. exact Hown. }
    eexists. split; [apply Hdl |].
    + intros ->. apply elem_of_nil in Hcut. exact Hcut.
    + split; [reflexivity | exact Hcut].
  - intros dl Hdl.
    destruct (distribute_loop_from _ _ _ _ Hsent dl Hdl)
      as (problem & Hp & Hto & Hcollect).
    exists problem. split; [exact Hp |]. split; [exact Hto |].
    intros d cut He Hle.
    apply (collect_cuts_elem _ _ _ _ _ _ Hcollect) in He
      as [He | (id & sol & Hsol & (row & Hrow & Hid) & Hab)].
    { apply elem_of_nil in He as []. }
    apply elem_of_enumerate in Hsol.
    destruct Hab as [(Hfound & Hab) | (_ & _ & Hab)].
    + exists id, sol, row. repeat (split; [assumption |]).
      simpl in Hab. apply Qgtb_true_iff, Hab.
    + simpl in Hab. apply Qgtb_true_iff in Hab.
      exfalso. apply (Qlt_not_le _ _ Hab), Hle.
Qed.

Lemma distribute_cuts_crossCut_one_witness :
  let self := two_scenario_run (1 # 10) 1 (1 # 2) in
  let self2 :=
    set_feasibility_cuts
      [[CutString ".  "; CutString "!!!!"];
       [CutTuple (1 # 2) {["x" := (1 # 2, 0)]}; CutString ".  "];
       [CutTuple (3 # 4) {["x" := (3 # 4, 0)]}; CutString ".  "]] self in
  let subproblems :=
    two_scenarios ++ [OfScenario (Scenario "C" {["x" := 1]} (0 # 1) 0)] in
  ∃ dl, dl ∈ default [] (fst <$> _distribute_cuts subproblems self2) ∧
        to dl = "B" ∧
        CutTuple (3 # 4) {["x" := (3 # 4, 0)]} ∈ feasibility dl.
Proof.
  intros self self2 subproblems.
  destruct (_distribute_cuts subproblems self2) as [[sent self']|] eqn:E;
    [| vm_compute in E; discriminate].
  destruct (distribute_cuts_crossCut_one subproblems self2 sent self')
    as (thr & Hthr & _ & _ & Hall & _).
  - reflexivity.
  - vm_compute. discriminate.
  - exact E.
  - assert (Ht : thr = 1 # 2) by (vm_compute in Hthr; congruence).
    apply (Hall (Scenario "B" {["x" := 1]} (1 # 2) 0) 0%nat ({["x" := 0]}, ["A"])
             [CutTuple (3 # 4) {["x" := (3 # 4, 0)]}; CutString ".  "]
             (3 # 4) {["x" := (3 # 4, 0)]}).
    + right. left.
    + reflexivity.
    + simpl. intros Hin. apply list_elem_of_singleton in Hin. discriminate.
    + reflexivity.
    + right. right. left.
    + reflexivity.
    + rewrite Ht. reflexivity.
Defined.


(** ** The separation problem *)

Lemma alter_Some {A} (f : A → A) (m : gmap string A) i x :
  m !! i = Some x → alter f i m = <[i := f x]> m.
Proof.
  intros H. apply map_eq. intros j. destruct (decide (i = j)) as [<- | Hne].
  - rewrite lookup_alter_eq, lookup_insert_eq, H. reflexivity.
  - rewrite lookup_alter_ne, lookup_insert_ne by exact Hne. reflexivity.
Qed.

Section bind_rules.

Context {A B : Type} (k : A → M B).

Lemma bind_ret a w : M_bind A B k (mret a) w = k a w.
Proof. reflexivity. Qed.

Lemma bind_raise w : M_bind A B k raise w = Raised w.
Proof. reflexivity. Qed.

Lemma bind_of_option_Some a w : M_bind A B k (of_option (Some a)) w = k a w.
Proof. reflexivity. Qed.

Lemma bind_of_option_None w : M_bind A B k (of_option None) w = Raised w.
Proof. reflexivity. Qed.

End bind_rules.

Lemma bind_assoc {A B C} (k : B → M C) (k' : A → M B) (c : M A) w :
  M_bind B C k (M_bind A B k' c) w = M_bind A C (λ a, M_bind B C k (k' a)) c w.
Proof. unfold M_bind. destruct (c w); reflexivity. Qed.

Lemma bind_modify {B} (k : unit → M B) name f w m :
  data w !! name = Some m →
  M_bind unit B k (modify_model name f) w =
  k tt (World (<[name := f m]> (data w)) (redirects w) (calls w)).
Proof.
  intros H. unfold M_bind, modify_model. rewrite (alter_Some _ _ _ _ H). reflexivity.
Qed.

Lemma bind_get {B} (k : model → M B) name w m :
  data w !! name = Some m → M_bind model B k (get_model name) w = k m w.
Proof. intros H. unfold M_bind, get_model. rewrite H. reflexivity. Qed.

Lemma bind_setup_redirect {B} (k : unit → M B) w :
  M_bind unit B k setup_redirect w =
  k tt (World (data w) (S (redirects w)) (calls w)).
Proof. reflexivity. Qed.

Lemma bind_call_solve {B} (k : results → M B) s name w m :
  data w !! name = Some m →
  M_bind results B k (call_solve s name) w =
  match solve s name m with
  | Some r => k r (World (data w) (redirects w) (calls w ++ [(solver_name s, name)]))
  | None => Raised (World (data w) (redirects w) (calls w ++ [(solver_name s, name)]))
  end.
Proof.
  intros H. unfold M_bind, call_solve. rewrite H.
  destruct (solve s name m); reflexivity.
Qed.

Lemma bind_try_finally_call_solve {B} (k : results → M B) s name w m :
  data w !! name = Some m →
  M_bind results B k (try_finally (call_solve s name) reset_redirect) w =
  match solve s name m with
  | Some r =>
      k r (World (data w) (pred (redirects w)) (calls w ++ [(solver_name s, name)]))
  | None =>
      Raised (World (data w) (pred (redirects w)) (calls w ++ [(solver_name s, name)]))
  end.
Proof.
  intros H. unfold M_bind, try_finally, call_solve. rewrite H.
  destruct (solve s name m); reflexivity.
Qed.

(** Runs the straight-line part of a computation on a known model. *)
Ltac lookup_model := simpl; first [eassumption | apply lookup_insert_eq].

Ltac run_model :=
  unfold mbind;
  repeat first
    [ rewrite insert_insert_eq
    | rewrite bind_assoc
    | rewrite bind_ret
    | rewrite bind_setup_redirect
    | erewrite bind_modify by lookup_model
    | erewrite bind_get by lookup_model
    | erewrite bind_try_finally_call_solve by lookup_model
    | progress cbn [data redirects calls pred] ].

(** The solver raises: the exception leaves the model as it was prepared for
    the solve; only the output redirection is undone. *)
Lemma solve_separation_problem_raises sqrt solver name fallback w m :
  data w !! name = Some m →
  solve solver name (prepare_separation m) = None →
  solve_separation_problem sqrt solver name fallback w =
  Raised (after_solve w solver name (prepare_separation m)).
Proof.
  intros Hm Hs. unfold solve_separation_problem. run_model.
  change (set_sep_fixed false _) with (prepare_separation m). rewrite Hs.
  reflexivity.
Qed.

(** The solver returns a status that is not acceptable. *)
Lemma solve_separation_problem_fails sqrt solver name fallback w m r :
  data w !! name = Some m →
  solve solver name (prepare_separation m) = Some r →
  bool_decide (status r = SolverStatus.ok)
    && _acceptable_termination_conditions (termination_condition r) = false →
  solve_separation_problem sqrt solver name fallback w =
  Returned (after_solve w solver name (restore_separation (prepare_separation m)))
    (CutString (if _infeasible_termination_conditions (termination_condition r)
                then "!!!!" else "????")).
Proof.
  intros Hm Hs Hok. unfold solve_separation_problem. run_model.
  change (set_sep_fixed false _) with (prepare_separation m). rewrite Hs, Hok.
  destruct (_infeasible_termination_conditions _); run_model; reflexivity.
Qed.

(** The solver returns an acceptable status. *)
Lemma solve_separation_problem_succeeds sqrt solver name fallback w m r :
  data w !! name = Some m →
  solve solver name (prepare_separation m) = Some r →
  bool_decide (status r = SolverStatus.ok)
    && _acceptable_termination_conditions (termination_condition r) = true →
  let loaded := load_from r (prepare_separation m) in
  solve_separation_problem sqrt solver name fallback w =
  match separation_cut loaded, separation_obj_value loaded with
  | Some cut, Some obj =>
      Returned (after_solve w solver name (restore_separation loaded))
        (CutTuple (sqrt obj) cut)
  | _, _ => Raised (after_solve w solver name loaded)
  end.
Proof.
  intros Hm Hs Hok loaded. unfold solve_separation_problem. run_model.
  change (set_sep_fixed false _) with (prepare_separation m). rewrite Hs, Hok.
  run_model. change (load_from r _) with loaded.
  destruct (separation_cut loaded) as [cut|]; [| reflexivity].
  rewrite bind_of_option_Some. run_model.
  destruct (separation_obj_value loaded) as [obj|]; [| reflexivity].
  rewrite bind_of_option_Some. run_model. reflexivity.
Qed.


Lemma fix_0_zero m : map_Forall (λ _ v, v = 0) (separation_variables (fix_0 m)).
Proof.
  intros i v Hv. simpl in Hv. rewrite lookup_fmap in Hv.
  destruct (separation_variables m !! i); simpl in Hv; congruence.
Qed.

Lemma restore_separation_base_state m : base_state (restore_separation m).
Proof.
  unfold base_state. do 4 (split; [reflexivity |]).
  exact (fix_0_zero (set_separation_obj_active false (set_original_obj_active true m))).
Qed.

Lemma new_modified_instance_base_state var_ids epsilon :
  base_state (new_modified_instance var_ids epsilon).
Proof.
  unfold base_state. do 4 (split; [reflexivity |]).
  exact (fix_0_zero (Model epsilon false true false false (None, None)
                       (gset_to_gmap 0 var_ids) (gset_to_gmap 0 var_ids) 0 ∅ None)).
Qed.

Lemma after_solve_other w solver name m n :
  n ≠ name → data (after_solve w solver name m) !! n = data w !! n.
Proof. intros Hne. simpl. apply lookup_insert_ne. congruence. Qed.

(** C1, as stated, fails: when [solver.solve] raises, the exception leaves
    [solve_separation_problem] with the discrete domains still relaxed, the
    original objective deactivated, the separation objective active and the
    separation variables free; only the output redirection is undone. *)
Lemma separation_not_restored_on_exception :
  let raising := Solver "cplex" (λ _ _, None) in
  let m := new_modified_instance {["x"]} 0 in
  let w := World {["A" := m]} 0 [] in
  base_state m ∧
  ∃ w' m',
    solve_separation_problem rational_sqrt raising "A" true w = Raised w' ∧
    redirects w' = 0%nat ∧
    data w' !! "A" = Some m' ∧
    relaxed m' = true ∧ original_obj_active m' = false ∧
    separation_obj_active m' = true ∧ sep_fixed m' = false ∧
    ¬ base_state m'.
Proof.
  intros raising m w. split.
  - apply new_modified_instance_base_state.
  - exists (after_solve w raising "A" (prepare_separation m)), (prepare_separation m).
    split; [apply solve_separation_problem_raises; reflexivity |].
    repeat split. intros (H & _). discriminate.
Qed.

(** C1, amended.  Whenever [solve_separation_problem] returns, whatever the
    status the solver reported, the model is back in its base state (discrete
    domains not relaxed, original objective active, separation objective
    inactive, separation variables fixed at zero), its fixed values are
    untouched, the other models are untouched and the output redirection is
    undone.  Whenever the call raises, only the output redirection is undone:
    the model is left as it was prepared for the solve (discrete domains
    relaxed, original objective inactive, separation objective active,
    separation variables free), so it is not in its base state.  An
    exception of the solver is not caught: the call raises with the prepared
    model in place. *)
Theorem solve_separation_problem_restores sqrt solver name fallback w m :
  data w !! name = Some m →
  match solve_separation_problem sqrt solver name fallback w with
  | Returned w' ans =>
      redirects w' = redirects w ∧
      (∀ n, n ≠ name → data w' !! n = data w !! n) ∧
      ∃ m', data w' !! name = Some m' ∧ base_state m' ∧
            fixed_variable_values m' = fixed_variable_values m
  | Raised w' =>
      redirects w' = redirects w ∧
      (∀ n, n ≠ name → data w' !! n = data w !! n) ∧
      ∃ m', data w' !! name = Some m' ∧
            relaxed m' = true ∧ original_obj_active m' = false ∧
            separation_obj_active m' = true ∧ sep_fixed m' = false ∧
            ¬ base_state m' ∧
            fixed_variable_values m' = fixed_variable_values m
  end ∧
  (solve solver name (prepare_separation m) = None →
   solve_separation_problem sqrt solver name fallback w
     = Raised (after_solve w solver name (prepare_separation m))).
Proof.
  intros Hm. split; [| apply solve_separation_problem_raises, Hm].
  assert (Hraised : ∀ mx,
            relaxed mx = true → original_obj_active mx = false →
            separation_obj_active mx = true → sep_fixed mx = false →
            fixed_variable_values mx = fixed_variable_values m →
            redirects (after_solve w solver name mx) = redirects w ∧
            (∀ n, n ≠ name → data (after_solve w solver name mx) !! n = data w !! n) ∧
            ∃ m', data (after_solve w solver name mx) !! name = Some m' ∧
                  relaxed m' = true ∧ original_obj_active m' = false ∧
                  separation_obj_active m' = true ∧ sep_fixed m' = false ∧
                  ¬ base_state m' ∧
                  fixed_variable_values m' = fixed_variable_values m).
  { intros mx H1 H2 H3 H4 H5. split; [reflexivity |].
    split; [intros n Hn; apply after_solve_other, Hn |].
    exists mx. split; [apply lookup_insert_eq |].
    repeat (split; [assumption |]). split; [| exact H5].
    intros (Hr & _). congruence. }
  destruct (solve solver name (prepare_separation m)) as [r|] eqn:Hs.
  - destruct (bool_decide (status r = SolverStatus.ok)
              && _acceptable_termination_conditions (termination_condition r)) eqn:Hok.
    + rewrite (solve_separation_problem_succeeds _ _ _ _ _ _ _ Hm Hs Hok). cbv zeta.
      destruct (separation_cut _); [| apply Hraised; reflexivity].
      destruct (separation_obj_value _); [| apply Hraised; reflexivity].
      split; [reflexivity |]. split; [intros n Hn; apply after_solve_other, Hn |].
      eexists. split; [apply lookup_insert_eq |].
      split; [apply restore_separation_base_state | reflexivity].
    + rewrite (solve_separation_problem_fails _ _ _ _ _ _ _ Hm Hs Hok).
      split; [reflexivity |]. split; [intros n Hn; apply after_solve_other, Hn |].
      eexists. split; [apply lookup_insert_eq |].
      split; [apply restore_separation_base_state | reflexivity].
  - rewrite (solve_separation_problem_raises _ _ _ _ _ _ Hm Hs).
    apply Hraised; reflexivity.
Qed.

Lemma solve_separation_problem_restores_witness :
  let cplex := Solver "cplex" (λ _ _,
    Some (Results SolverStatus.ok TerminationCondition.optimal
            {["x" := 1 # 2]} 0 ∅)) in
  let m := set_fixed_variable_values {["x" := 1]} (new_modified_instance {["x"]} 0) in
  let w := World {["A" := m]} 0 [] in
  ∃ w' m',
    solve_separation_problem rational_sqrt cplex "A" true w =
      Returned w' (CutTuple (1 # 2) {["x" := (1 # 2, 1)]}) ∧
    data w' !! "A" = Some m' ∧ base_state m'.
Proof.
  intros cplex m w.
  pose proof (solve_separation_problem_restores rational_sqrt cplex "A" true w m
                eq_refl) as [H _].
  destruct (solve_separation_problem rational_sqrt cplex "A" true w)
    as [w' ans|w'] eqn:E; [| vm_compute in E; discriminate].
  destruct H as (_ & _ & m' & Hm' & Hbase & _).
  exists w', m'. split; [| split; assumption].
  f_equal. vm_compute in E. injection E as _ <-. reflexivity.
Defined.


(** ** The evaluation of the candidates *)

Lemma bind_Returned_inv {A B} (k : A → M B) (c : M A) w w' b :
  M_bind A B k c w = Returned w' b →
  ∃ w1 a, c w = Returned w1 a ∧ k a w1 = Returned w' b.
Proof. unfold M_bind. destruct (c w) as [w1 a|w1]; [eauto | discriminate]. Qed.

Lemma solve_separation_problem_answer sqrt solver name fallback w w' ans :
  solve_separation_problem sqrt solver name fallback w = Returned w' ans →
  separation_answer ans.
Proof.
  unfold solve_separation_problem, mbind. intros H.
  do 5 (apply bind_Returned_inv in H as (? & ? & _ & H)).
  apply bind_Returned_inv in H as (? & r & _ & H).
  apply bind_Returned_inv in H as (? & ans' & Hans & H).
  do 4 (apply bind_Returned_inv in H as (? & ? & _ & H)).
  injection H as _ <-.
  destruct (bool_decide _ && _).
  - apply bind_Returned_inv in Hans as (? & ? & _ & Hans).
    do 3 (apply bind_Returned_inv in Hans as (? & ? & _ & Hans)).
    injection Hans as _ <-. left. reflexivity.
  - destruct (_infeasible_termination_conditions _); injection Hans as _ <-;
      right; [left | right]; reflexivity.
Qed.

(** Every pass of the loop, for a candidate of the subproblem's own scenarios
    or not, appends exactly one entry to each of the three lists. *)
Lemma evaluate_solution_appends sqrt ph_solver ipopt name locals acc sol w w' acc' :
  evaluate_solution sqrt ph_solver ipopt name locals acc sol w = Returned w' acc' →
  ∃ o d c, acc' = (acc.1.1 ++ [o], acc.1.2 ++ [d], acc.2 ++ [c]) ∧ slot o d c.
Proof.
  destruct acc as [[objs duals] cuts], sol as [var_values names].
  unfold evaluate_solution, mbind. intros H.
  do 3 (apply bind_Returned_inv in H as (? & ? & _ & H)).
  apply bind_Returned_inv in H as (? & r & _ & H).
  destruct (bool_decide _ && _).
  - do 3 (apply bind_Returned_inv in H as (? & ? & _ & H)).
    injection H as _ <-. eexists _, _, _. split; [reflexivity |].
    left. repeat split; eauto.
  - apply bind_Returned_inv in H as (? & cut & Hcut & H).
    apply bind_Returned_inv in H as (? & cut' & Hcut' & H).
    injection H as _ <-. eexists _, _, _. split; [reflexivity |].
    right. repeat split.
    apply solve_separation_problem_answer in Hcut.
    destruct (cut_eq_str cut "????").
    + eapply solve_separation_problem_answer, Hcut'.
    + injection Hcut' as _ <-. exact Hcut.
Qed.

Lemma evaluate_solutions_appends sqrt ph_solver ipopt name locals sols :
  ∀ acc w w' acc',
    evaluate_solutions sqrt ph_solver ipopt name locals acc sols w
      = Returned w' acc' →
    ∃ os ds cs,
      acc' = (acc.1.1 ++ os, acc.1.2 ++ ds, acc.2 ++ cs) ∧
      length os = length sols ∧ length ds = length sols ∧
      length cs = length sols ∧
      ∀ i, (i < length sols)%nat →
        ∃ o d c, os !! i = Some o ∧ ds !! i = Some d ∧ cs !! i = Some c ∧
                 slot o d c.
Proof.
  induction sols as [|sol sols IH]; intros acc w w' acc' H.
  - injection H as _ <-. exists [], [], []. rewrite !app_nil_r.
    destruct acc as [[? ?] ?]. repeat split. simpl. lia.
  - simpl in H. unfold mbind in H.
    apply bind_Returned_inv in H as (w1 & acc1 & Hstep & H).
    apply evaluate_solution_appends in Hstep as (o & d & c & -> & Hslot).
    apply IH in H as (os & ds & cs & -> & Hos & Hds & Hcs & Hall). simpl.
    exists (o :: os), (d :: ds), (c :: cs). rewrite <- !app_assoc. simpl.
    repeat split; try (f_equal; assumption).
    intros [|i] Hi; simpl.
    + eauto 8.
    + apply Hall. lia.
Qed.

(** C2, as stated, fails: a scenario that owns the only candidate still
    evaluates it, and the result lists hold an entry for that owned pair (the
    claimed count, candidates times non-owning scenarios, is zero here). *)
Lemma owned_pair_is_evaluated :
  let cplex := Solver "cplex" (λ _ _,
    Some (Results SolverStatus.ok TerminationCondition.optimal
            {["x" := 0]} 7 {["x" := 3]})) in
  let A := Scenario "A" {["x" := 1]} 1 7 in
  let candidates := _collect_unique_scenario_solutions [A] in
  candidates = [({["x" := 1]}, ["A"])] ∧
  Forall (λ c : solution, _name A ∈ c.2) candidates ∧
  ∃ w',
    solve_fixed_scenario_solutions rational_sqrt cplex cplex {["x"]}
      (OfScenario A) candidates 0 (World ∅ 0 [])
    = Returned w' ([Some 7], [Some {["x" := 3]}], [CutString ".  "]).
Proof.
  intros cplex A candidates. split; [reflexivity |]. split.
  - constructor; [left | constructor].
  - eexists. vm_compute. reflexivity.
Qed.

Lemma solve_fixed_scenario_solutions_slots sqrt ph_solver ipopt var_ids problem
    sols epsilon w w' objs duals cuts :
  solve_fixed_scenario_solutions sqrt ph_solver ipopt var_ids problem sols epsilon w
    = Returned w' (objs, duals, cuts) →
  length objs = length sols ∧ length duals = length sols ∧
  length cuts = length sols ∧
  ∀ i, (i < length sols)%nat →
    ∃ o d c, objs !! i = Some o ∧ duals !! i = Some d ∧ cuts !! i = Some c ∧
             slot o d c.
Proof.
  unfold solve_fixed_scenario_solutions, mbind. intros H.
  apply bind_Returned_inv in H as (w1 & ? & _ & H).
  apply evaluate_solutions_appends in H as (os & ds & cs & Heq & Hall).
  simpl in Heq. injection Heq as -> -> ->. exact Hall.
Qed.

(** C2, amended.  When the evaluation phase returns, the three result arrays
    hold one row per subproblem and, in each row, exactly one entry per
    candidate, whether the subproblem owns the candidate or not: a feasible
    entry (objective, duals, the string [".  "]) or an infeasible one (no
    objective, no duals, a cut tuple or a failure string).  The number of
    results is the number of candidates times the number of subproblems. *)
Theorem solve_interscenario_solutions_complete sqrt ph_solver ipopt var_ids self
    subproblems :
  ∀ w w' objs duals cuts probability,
  _solve_interscenario_solutions sqrt ph_solver ipopt var_ids self subproblems w
    = Returned w' (objs, duals, cuts, probability) →
  length objs = length subproblems ∧ length duals = length subproblems ∧
  length cuts = length subproblems ∧
  probability = problem_probability <$> subproblems ∧
  length (concat cuts) =
    (length (unique_scenario_solutions self) * length subproblems)%nat ∧
  ∀ j, (j < length subproblems)%nat →
    ∃ orow drow crow,
      objs !! j = Some orow ∧ duals !! j = Some drow ∧ cuts !! j = Some crow ∧
      length orow = length (unique_scenario_solutions self) ∧
      length drow = length (unique_scenario_solutions self) ∧
      length crow = length (unique_scenario_solutions self) ∧
      ∀ i, (i < length (unique_scenario_solutions self))%nat →
        ∃ o d c, orow !! i = Some o ∧ drow !! i = Some d ∧ crow !! i = Some c ∧
                 slot o d c.
Proof.
  induction subproblems as [|problem rest IH];
    intros w w' objs duals cuts probability H.
  - injection H as _ <- <- <- <-. simpl. repeat split; lia.
  - simpl in H. unfold mbind in H.
    apply bind_Returned_inv in H as (w1 & [[orow drow] crow] & Hrow & H).
    apply bind_Returned_inv in H as (w2 & [[[os ds] cs] ps] & Hrest & H).
    injection H as _ <- <- <- <-. simpl.
    apply solve_fixed_scenario_solutions_slots in Hrow as (Ho & Hd & Hc & Hslots).
    apply IH in Hrest as (Hos & Hds & Hcs & -> & Htotal & Hrows).
    repeat split; try (f_equal; assumption).
    + rewrite length_app, Htotal, Hc. lia.
    + intros [|j] Hj; simpl.
      * exists orow, drow, crow. repeat split; assumption.
      * apply Hrows. lia.
Qed.

Lemma solve_interscenario_solutions_complete_witness :
  let cplex := Solver "cplex" (λ name m,
    if Qeq_bool (default 0 (fixed_variable_values m !! "x")) 1 then
      Some (Results SolverStatus.ok TerminationCondition.optimal
              {["x" := 0]} 7 {["x" := 3]})
    else
      Some (Results SolverStatus.ok TerminationCondition.infeasible ∅ 0 ∅)) in
  let A := Scenario "A" {["x" := 1]} (1 # 2) 7 in
  let B := Scenario "B" {["x" := 2]} (1 # 2) 9 in
  let self := set_unique_scenario_solutions
                (_collect_unique_scenario_solutions [A; B]) __init__ in
  ∃ w' objs duals cuts probability,
    _solve_interscenario_solutions rational_sqrt cplex cplex {["x"]} self
      [OfScenario A; OfScenario B] (World ∅ 0 [])
    = Returned w' (objs, duals, cuts, probability) ∧
    length (concat cuts) = 4%nat.
Proof.
  intros cplex A B self.
  destruct (_solve_interscenario_solutions rational_sqrt cplex cplex {["x"]} self
              [OfScenario A; OfScenario B] (World ∅ 0 []))
    as [w' [[[objs duals] cuts] probability]|w'] eqn:E;
    [| vm_compute in E; discriminate].
  exists w', objs, duals, cuts, probability. split; [reflexivity |].
  destruct (solve_interscenario_solutions_complete _ _ _ _ _ _ _ _ _ _ _ _ E)
    as (_ & _ & _ & _ & Htotal & _).
  exact Htotal.
Defined.


(** ** The fallback solver *)

Lemma bind_set_fixed_values {B} (k : unit → M B) name var_values w m :
  data w !! name = Some m →
  size var_values = size (fixed_variable_values m) →
  dom var_values ⊆ dom (fixed_variable_values m) →
  M_bind unit B k (set_fixed_values name var_values) w =
  k tt (World (<[name := set_fixed_variable_values
                           (var_values ∪ fixed_variable_values m) m]> (data w))
              (redirects w) (calls w)).
Proof.
  intros Hm Hsize Hdom. unfold set_fixed_values. run_model.
  rewrite (bool_decide_eq_true_2 _ Hsize), (bool_decide_eq_true_2 _ Hdom).
  run_model. reflexivity.
Qed.

Lemma bind_Returned {A B} (k : A → M B) (c : M A) w w' a :
  c w = Returned w' a → M_bind A B k c w = k a w'.
Proof. intros H. unfold M_bind. rewrite H. reflexivity. Qed.

(** The pass of the evaluation loop for a candidate whose fixed-value solve
    does not end acceptably and whose separation solve with the primary
    solver does not end acceptably either. *)
Lemma evaluate_solution_primary_fails sqrt ph_solver ipopt name locals
    objs duals cuts var_values names w m r0 r1 :
  data w !! name = Some m →
  size var_values = size (fixed_variable_values m) →
  dom var_values ⊆ dom (fixed_variable_values m) →
  let m0 := set_fixed_variable_values (var_values ∪ fixed_variable_values m) m in
  solve ph_solver name m0 = Some r0 →
  bool_decide (status r0 = SolverStatus.ok)
    && _acceptable_termination_conditions (termination_condition r0) = false →
  solve ph_solver name (prepare_separation m0) = Some r1 →
  bool_decide (status r1 = SolverStatus.ok)
    && _acceptable_termination_conditions (termination_condition r1) = false →
  let w1 := World (<[name := restore_separation (prepare_separation m0)]> (data w))
              (redirects w)
              (calls w ++ [(solver_name ph_solver, name);
                           (solver_name ph_solver, name)]) in
  evaluate_solution sqrt ph_solver ipopt name locals (objs, duals, cuts)
    (var_values, names) w =
  if _infeasible_termination_conditions (termination_condition r1)
  then Returned w1 (objs ++ [None], duals ++ [None], cuts ++ [CutString "!!!!"])
  else M_bind _ _ (λ cut, mret (objs ++ [None], duals ++ [None], cuts ++ [cut]))
         (solve_separation_problem sqrt ipopt name false) w1.
Proof.
  intros Hm Hsize Hdom m0 Hs0 Hok0 Hs1 Hok1 w1.
  unfold evaluate_solution. unfold mbind. cbv zeta.
  assert (Hpass : ∀ (b : bool) (k : unit → M evaluation) w0,
            M_bind unit _ k (if b then mret () else mret ()) w0 = k tt w0)
    by (intros [] ? ?; reflexivity).
  rewrite Hpass.
  erewrite bind_set_fixed_values by eassumption.
  run_model. fold m0. rewrite Hs0, Hok0.
  erewrite bind_Returned; cycle 1.
  { apply solve_separation_problem_fails with (r := r1);
      [apply lookup_insert_eq | exact Hs1 | exact Hok1]. }
  unfold after_solve. cbn [data redirects calls]. rewrite insert_insert_eq.
  rewrite <- app_assoc. cbn [app]. fold w1.
  destruct (_infeasible_termination_conditions (termination_condition r1)).
  - reflexivity.
  - reflexivity.
Qed.

(** C6, as stated, fails: the primary solver ends the separation solve with
    the status [infeasible]; the answer is ["!!!!"], the fallback solver,
    which would have found a cut, is never called, and the pair is reported
    with the failure string. *)
Lemma no_fallback_on_infeasible :
  let cplex := Solver "cplex" (λ _ _,
    Some (Results SolverStatus.warning TerminationCondition.infeasible ∅ 0 ∅)) in
  let ipopt := Solver "ipopt" (λ _ _,
    Some (Results SolverStatus.ok TerminationCondition.optimal
            {["x" := 1 # 2]} 0 ∅)) in
  let m := new_modified_instance {["x"]} 0 in
  let w := World {["A" := m]} 0 [] in
  _infeasible_termination_conditions TerminationCondition.infeasible = true ∧
  (∃ w1, solve_separation_problem rational_sqrt ipopt "A" false w
         = Returned w1 (CutTuple (1 # 2) {["x" := (1 # 2, 0)]})) ∧
  ∃ w',
    evaluate_solution rational_sqrt cplex ipopt "A" ["A"] ([], [], [])
      ({["x" := 1]}, ["B"]) w
    = Returned w' ([None], [None], [CutString "!!!!"]) ∧
    calls w' = [("cplex", "A"); ("cplex", "A")].
Proof.
  intros cplex ipopt m w. split; [reflexivity |]. split.
  - eexists. vm_compute. reflexivity.
  - eexists. split; [vm_compute; reflexivity | reflexivity].
Qed.

(** C6, amended.  Take a candidate whose fixed-value solve does not end
    acceptably and whose separation solve with the primary solver does not
    end acceptably either.  If that separation solve ended with an infeasible
    or invalid-problem status there is no retry: the pair is reported with
    the string ["!!!!"] after exactly two calls of the primary solver.
    Otherwise (the answer ["????"]) the separation problem is solved exactly
    once more, with the fallback solver, and the pair is reported with what
    that solve answers: a cut tuple, or a failure string if it does not end
    acceptably either. *)
Theorem separation_fallback sqrt ph_solver ipopt name locals
    objs duals cuts var_values names w m r0 r1 :
  data w !! name = Some m →
  size var_values = size (fixed_variable_values m) →
  dom var_values ⊆ dom (fixed_variable_values m) →
  let m0 := set_fixed_variable_values (var_values ∪ fixed_variable_values m) m in
  solve ph_solver name m0 = Some r0 →
  bool_decide (status r0 = SolverStatus.ok)
    && _acceptable_termination_conditions (termination_condition r0) = false →
  solve ph_solver name (prepare_separation m0) = Some r1 →
  bool_decide (status r1 = SolverStatus.ok)
    && _acceptable_termination_conditions (termination_condition r1) = false →
  let m1 := restore_separation (prepare_separation m0) in
  let primary := (solver_name ph_solver, name) in
  let after (log : list (string * string)) (m' : model) :=
    World (<[name := m']> (data w)) (redirects w) (calls w ++ log) in
  let report (c : cut_entry) := (objs ++ [None], duals ++ [None], cuts ++ [c]) in
  let ev := evaluate_solution sqrt ph_solver ipopt name locals (objs, duals, cuts)
              (var_values, names) w in
  if _infeasible_termination_conditions (termination_condition r1) then
    ev = Returned (after [primary; primary] m1) (report (CutString "!!!!"))
  else
    match solve ipopt name (prepare_separation m1) with
    | None =>
        ev = Raised (after [primary; primary; (solver_name ipopt, name)]
                       (prepare_separation m1))
    | Some r2 =>
        if bool_decide (status r2 = SolverStatus.ok)
           && _acceptable_termination_conditions (termination_condition r2)
        then
          let loaded := load_from r2 (prepare_separation m1) in
          match separation_cut loaded, separation_obj_value loaded with
          | Some cut, Some obj =>
              ev = Returned (after [primary; primary; (solver_name ipopt, name)]
                               (restore_separation loaded))
                     (report (CutTuple (sqrt obj) cut))
          | _, _ =>
              ev = Raised (after [primary; primary; (solver_name ipopt, name)]
                             loaded)
          end
        else
          ev = Returned (after [primary; primary; (solver_name ipopt, name)]
                           (restore_separation (prepare_separation m1)))
                 (report (CutString
                    (if _infeasible_termination_conditions (termination_condition r2)
                     then "!!!!" else "????")))
    end.
Proof.
  intros Hm Hsize Hdom m0 Hs0 Hok0 Hs1 Hok1 m1 primary after report ev.
  subst ev.
  rewrite (evaluate_solution_primary_fails sqrt ph_solver ipopt name locals
             objs duals cuts var_values names w m r0 r1 Hm Hsize Hdom Hs0 Hok0 Hs1 Hok1).
  fold m0. fold m1.
  destruct (_infeasible_termination_conditions (termination_condition r1));
    [reflexivity |].
  set (w1 := World (<[name := m1]> (data w)) (redirects w)
               (calls w ++ [(solver_name ph_solver, name);
                            (solver_name ph_solver, name)])).
  assert (Hm1 : data w1 !! name = Some m1) by apply lookup_insert_eq.
  assert (Hafter : ∀ m', after_solve w1 ipopt name m' =
            after [primary; primary; (solver_name ipopt, name)] m').
  { intros m'. unfold after_solve, after, w1. cbn [data redirects calls].
    rewrite insert_insert_eq, <- app_assoc. reflexivity. }
  destruct (solve ipopt name (prepare_separation m1)) as [r2|] eqn:Hs2.
  - destruct (bool_decide (status r2 = SolverStatus.ok)
              && _acceptable_termination_conditions (termination_condition r2)) eqn:Hok2.
    + unfold M_bind.
      rewrite (solve_separation_problem_succeeds _ _ _ _ _ _ _ Hm1 Hs2 Hok2).
      cbv zeta.
      destruct (separation_cut _); [| rewrite Hafter; reflexivity].
      destruct (separation_obj_value _); rewrite Hafter; reflexivity.
    + unfold M_bind.
      rewrite (solve_separation_problem_fails _ _ _ _ _ _ _ Hm1 Hs2 Hok2).
      rewrite Hafter. reflexivity.
  - unfold M_bind. rewrite (solve_separation_problem_raises _ _ _ _ _ _ Hm1 Hs2).
    rewrite Hafter. reflexivity.
Qed.

Lemma separation_fallback_witness :
  let failure :=
    Results SolverStatus.error TerminationCondition.solverFailure ∅ 0 ∅ in
  let cplex := Solver "cplex" (λ _ _, Some failure) in
  let ipopt := Solver "ipopt" (λ _ _,
    Some (Results SolverStatus.ok TerminationCondition.optimal
            {["x" := 1 # 2]} 0 ∅)) in
  let m := new_modified_instance {["x"]} 0 in
  let w := World {["A" := m]} 0 [] in
  ∃ w',
    evaluate_solution rational_sqrt cplex ipopt "A" ["A"] ([], [], [])
      ({["x" := 1]}, ["B"]) w
    = Returned w' ([None], [None], [CutTuple (1 # 2) {["x" := (1 # 2, 1)]}]) ∧
    calls w' = [("cplex", "A"); ("cplex", "A"); ("ipopt", "A")].
Proof.
  intros failure cplex ipopt m w.
  assert (Hsize : size ({["x" := 1]} : gmap string Q) = size (fixed_variable_values m))
    by (vm_compute; reflexivity).
  assert (Hdom : dom ({["x" := 1]} : gmap string Q) ⊆ dom (fixed_variable_values m)).
  { intros x Hx. apply elem_of_dom in Hx as [v Hv]. apply elem_of_dom.
    destruct (decide (x = "x")) as [-> | Hne]; [eexists; reflexivity |].
    rewrite lookup_singleton_ne in Hv by congruence. discriminate. }
  pose proof (separation_fallback rational_sqrt cplex ipopt "A" ["A"] [] [] []
                {["x" := 1]} ["B"] w m failure failure
                eq_refl Hsize Hdom eq_refl eq_refl eq_refl eq_refl) as H.
  vm_compute in H. eexists. split; [vm_compute; exact H | reflexivity].
Defined.


(** ** The rho estimates *)

Lemma lookup_dict_iadd acc items g acc' k :
  dict_iadd acc items g = Some acc' →
  acc' !! k = (λ a, match items !! k ≫= g k with
                    | Some y => a + y
                    | None => a
                    end) <$> acc !! k.
Proof.
  unfold dict_iadd. destruct (bool_decide _); [| discriminate]. intros [= <-].
  rewrite map_lookup_imap. destruct (acc !! k); reflexivity.
Qed.

Lemma lookup_abs_over xbar w w' k :
  abs_over xbar w = Some w' →
  w' !! k = (λ r, if bool_decide (is_Some (xbar !! k)) then Qabs r else r) <$> w !! k.
Proof.
  unfold abs_over. destruct (bool_decide _); [| discriminate]. intros [= <-].
  rewrite map_lookup_imap. destruct (w !! k); reflexivity.
Qed.

Lemma lookup_zero_dict xbar k : zero_dict xbar !! k = (λ _, 0) <$> xbar !! k.
Proof. unfold zero_dict. apply lookup_fmap. Qed.

(** The loops update the entries of [weighted_rho] in place: its keys stay
    those of [xbar]. *)
Lemma weighted_rho_loop_keys xbar xd dual_values probability soln_prob :
  ∀ w w' k,
    weighted_rho_loop xbar xd dual_values probability soln_prob w = Some w' →
    is_Some (w' !! k) ↔ is_Some (w !! k).
Proof.
  induction soln_prob as [|[soln_id soln_p] rest IH]; intros w w' k H.
  - injection H as <-. reflexivity.
  - simpl in H. apply bind_Some in H as (r & _ & H).
    apply bind_Some in H as (w1 & Hw1 & H).
    rewrite (IH _ _ k H), (lookup_dict_iadd _ _ _ _ k Hw1), fmap_is_Some.
    reflexivity.
Qed.

(** Every value of the dictionary that [_process_dual_information] returns
    is an absolute value. *)
Lemma weighted_rho_nonneg ph xd dual_values probability soln_prob new_rho v r :
  weighted_rho ph xd dual_values probability soln_prob = Some new_rho →
  new_rho !! v = Some r → 0 <= r.
Proof.
  unfold weighted_rho. intros H Hv. apply bind_Some in H as (w & Hw & H).
  rewrite (lookup_abs_over _ _ _ v H) in Hv.
  destruct (w !! v) as [x|] eqn:Ex; simpl in Hv; [| discriminate].
  injection Hv as <-.
  assert (Hk : is_Some (_xbars ph !! v)).
  { pose proof (proj1 (weighted_rho_loop_keys _ _ _ _ _ _ _ v Hw)) as Hkeys.
    rewrite Ex, lookup_zero_dict, fmap_is_Some in Hkeys. apply Hkeys. eauto. }
  rewrite (bool_decide_eq_true_2 _ Hk). apply Qabs_nonneg.
Qed.

Lemma process_dual_information_inv ph self dual_values probability self' new_rho :
  _process_dual_information ph self dual_values probability = Some (self', new_rho) →
  ∃ soln_prob xd,
    mapM (λ soln_info : solution, solution_probability ph soln_info.2)
         (unique_scenario_solutions self) = Some soln_prob ∧
    match x_deviation self with
    | None => compute_x_deviation (_xbars ph) (unique_scenario_solutions self)
    | Some xd0 => Some xd0
    end = Some xd ∧
    weighted_rho ph xd dual_values probability soln_prob = Some new_rho ∧
    self' = set_x_deviation (Some xd) self.
Proof.
  unfold _process_dual_information. intros H.
  apply bind_Some in H as (soln_prob & Hsp & H).
  apply bind_Some in H as (xd & Hxd & H).
  apply bind_Some in H as (nr & Hnr & [= <- <-]). eauto 10.
Qed.

Lemma update_rho_frame self new_rho self' :
  update_rho self new_rho = Some self' →
  x_deviation self' = x_deviation self ∧ rhoScale self' = rhoScale self ∧
  rhoDamping self' = rhoDamping self.
Proof.
  unfold update_rho. destruct (rho self).
  - destruct (bool_decide _); [| discriminate]. intros [= <-]. repeat split.
  - intros [= <-]. repeat split.
Qed.

(** One update keeps the stored estimates non-negative. *)
Lemma update_rho_nonneg self new_rho self' :
  0 <= rhoScale self → 0 <= rhoDamping self → rhoDamping self <= 1 →
  (∀ v r, new_rho !! v = Some r → 0 <= r) →
  (∀ rho0 v r, rho self = Some rho0 → rho0 !! v = Some r → 0 <= r) →
  update_rho self new_rho = Some self' →
  ∀ rho' v r, rho self' = Some rho' → rho' !! v = Some r → 0 <= r.
Proof.
  intros Hs Hd0 Hd1 Hnew Hold H rho' v r Hrho Hv. unfold update_rho in H.
  destruct (rho self) as [rho0|] eqn:E.
  - destruct (bool_decide _); [| discriminate]. injection H as <-.
    simpl in Hrho. injection Hrho as <-. rewrite map_lookup_imap in Hv.
    destruct (rho0 !! v) as [old|] eqn:Eold; simpl in Hv; [| discriminate].
    injection Hv as <-. pose proof (Hold rho0 v old eq_refl Eold) as Ho.
    destruct (new_rho !! v) as [x|] eqn:Ex; [| exact Ho].
    pose proof (Hnew v x Ex) as Hx.
    assert (Hsx : 0 <= rhoScale self * x) by (apply Qmult_le_0_compat; assumption).
    assert (H1 : 0 <= (1 - rhoDamping self) * old)
      by (apply Qmult_le_0_compat; [lra | assumption]).
    assert (H2 : 0 <= rhoDamping self * (rhoScale self * x))
      by (apply Qmult_le_0_compat; assumption).
    lra.
  - injection H as <-. simpl in Hrho. injection Hrho as <-.
    rewrite lookup_fmap in Hv.
    destruct (new_rho !! v) as [x|] eqn:Ex; simpl in Hv; [| discriminate].
    injection Hv as <-. apply Qmult_le_0_compat; [exact Hs | eapply Hnew, Ex].
Qed.

Lemma rho_cycle_inv self ph sols dual_values probability self' new_rho :
  rho_cycle self (ph, sols, dual_values, probability) = Some (self', new_rho) →
  ∃ self1,
    _process_dual_information ph (set_unique_scenario_solutions sols self)
      dual_values probability = Some (self1, new_rho) ∧
    update_rho self1 new_rho = Some self'.
Proof.
  unfold rho_cycle. intros H. apply bind_Some in H as ([self1 nr] & Hp & H).
  apply bind_Some in H as (self2 & Hu & [= <- <-]). eauto.
Qed.

Lemma rho_cycle_nonneg self run self' new_rho :
  0 <= rhoScale self → 0 <= rhoDamping self → rhoDamping self <= 1 →
  (∀ rho0 v r, rho self = Some rho0 → rho0 !! v = Some r → 0 <= r) →
  rho_cycle self run = Some (self', new_rho) →
  rhoScale self' = rhoScale self ∧ rhoDamping self' = rhoDamping self ∧
  ∀ rho' v r, rho self' = Some rho' → rho' !! v = Some r → 0 <= r.
Proof.
  intros Hs Hd0 Hd1 Hold H. destruct run as [[[ph sols] dv] pr].
  apply rho_cycle_inv in H as (self1 & Hp & Hu).
  apply process_dual_information_inv in Hp as (sp & xd & _ & _ & Hw & ->).
  destruct (update_rho_frame _ _ _ Hu) as (_ & Hscale & Hdamp).
  split; [exact Hscale |]. split; [exact Hdamp |].
  eapply update_rho_nonneg; [.. | exact Hu]; try assumption.
  intros v r. eapply weighted_rho_nonneg, Hw.
Qed.

(** C9. With [rhoScale >= 0] and [rhoDamping] in [[0, 1]], starting from a
    plugin whose rho is unset (as after [reset]) or non-negative, every value
    of [self.rho] is non-negative after each update of any sequence of rho
    updates. *)
Theorem rho_nonnegative runs :
  ∀ self trace,
  0 <= rhoScale self → 0 <= rhoDamping self → rhoDamping self <= 1 →
  (∀ rho0 v r, rho self = Some rho0 → rho0 !! v = Some r → 0 <= r) →
  rho_cycles self runs = Some trace →
  ∀ k st rho' v r,
    trace !! k = Some st → rho st.1 = Some rho' → rho' !! v = Some r → 0 <= r.
Proof.
  induction runs as [|run runs IH]; intros self trace Hs Hd0 Hd1 Hold H k.
  - injection H as <-. intros st rho' v r Hk. destruct k; discriminate.
  - simpl in H. apply bind_Some in H as ([self' nr] & Hcycle & H).
    apply bind_Some in H as (trace' & Htrace & [= <-]).
    destruct (rho_cycle_nonneg _ _ _ _ Hs Hd0 Hd1 Hold Hcycle)
      as (Hscale & Hdamp & Hnew).
    destruct k as [|k]; intros st rho' v r Hk.
    + injection Hk as <-. apply Hnew.
    + simpl in Hk. revert st rho' v r Hk.
      apply (IH self' trace'); simpl; try assumption.
      * rewrite Hscale. exact Hs.
      * rewrite Hdamp. exact Hd0.
      * rewrite Hdamp. exact Hd1.
Qed.

Lemma rho_nonnegative_witness :
  let trace := default [] (rho_cycles (reset __init__) [example_run 3; example_run 5]) in
  let st := default (reset __init__, ∅) (trace !! 1%nat) in
  let rho' := default ∅ (rho st.1) in
  let r := default 0 (rho' !! "x") in
  0 <= rhoScale (reset __init__) ∧
  0 <= rhoDamping (reset __init__) ∧ rhoDamping (reset __init__) <= 1 ∧
  rho_cycles (reset __init__) [example_run 3; example_run 5] = Some trace ∧
  trace !! 1%nat = Some st ∧ rho st.1 = Some rho' ∧ rho' !! "x" = Some r ∧
  0 <= r.
Proof.
  intros trace st rho' r.
  assert (Hs : 0 <= rhoScale (reset __init__)) by (vm_compute; discriminate).
  assert (Hd0 : 0 <= rhoDamping (reset __init__)) by (vm_compute; discriminate).
  assert (Hd1 : rhoDamping (reset __init__) <= 1) by (vm_compute; discriminate).
  assert (Ht : rho_cycles (reset __init__) [example_run 3; example_run 5] = Some trace)
    by (vm_compute; reflexivity).
  assert (Hst : trace !! 1%nat = Some st) by (vm_compute; reflexivity).
  assert (Hrho : rho st.1 = Some rho') by (vm_compute; reflexivity).
  assert (Hr : rho' !! "x" = Some r) by (vm_compute; reflexivity).
  assert (Hnone : ∀ rho0 v r0, rho (reset __init__) = Some rho0 →
                                rho0 !! v = Some r0 → 0 <= r0)
    by (intros rho0 v r0 H; discriminate).
  repeat (split; [assumption |]).
  exact (rho_nonnegative [example_run 3; example_run 5] (reset __init__) trace
           Hs Hd0 Hd1 Hnone Ht 1%nat st rho' "x" r Hst Hrho Hr).
Defined.

Lemma rho_cycle_x_deviation self ph sols dual_values probability self' new_rho :
  rho_cycle self (ph, sols, dual_values, probability) = Some (self', new_rho) →
  match x_deviation self with
  | None => x_deviation self' = compute_x_deviation (_xbars ph) sols ∧
            is_Some (x_deviation self')
  | Some xd => x_deviation self' = Some xd
  end.
Proof.
  intros H. apply rho_cycle_inv in H as (self1 & Hp & Hu).
  apply process_dual_information_inv in Hp as (sp & xd & _ & Hxd & _ & ->).
  destruct (update_rho_frame _ _ _ Hu) as (-> & _). simpl in *.
  destruct (x_deviation self).
  - congruence.
  - split; [congruence | eauto].
Qed.

Lemma rho_cycles_x_deviation runs :
  ∀ self trace xd,
    x_deviation self = Some xd →
    rho_cycles self runs = Some trace →
    ∀ k st, trace !! k = Some st → x_deviation st.1 = Some xd.
Proof.
  induction runs as [|[[[ph sols] dv] pr] runs IH]; intros self trace xd Hxd H k st Hk.
  - injection H as <-. destruct k; discriminate.
  - simpl in H. apply bind_Some in H as ([self' nr] & Hcycle & H).
    apply bind_Some in H as (trace' & Htrace & [= <-]).
    apply rho_cycle_x_deviation in Hcycle. rewrite Hxd in Hcycle.
    destruct k as [|k].
    + injection Hk as <-. exact Hcycle.
    + simpl in Hk. eapply (IH self' trace'); eassumption.
Qed.

(** C10. After a [reset], the first dual-processing call computes
    [x_deviation] as the spread of the candidates of that run; every later
    run of the sequence finds it set, keeps it unchanged, and computes its rho
    estimate from that frozen spread, whatever the candidates of the later
    run are. *)
Theorem x_deviation_frozen self ph sols dual_values probability rest trace :
  rho_cycles (reset self) ((ph, sols, dual_values, probability) :: rest)
    = Some trace →
  ∃ xd,
    compute_x_deviation (_xbars ph) sols = Some xd ∧
    (∀ k st, trace !! k = Some st → x_deviation st.1 = Some xd) ∧
    ∀ k before ph' sols' dual_values' probability',
      trace !! k = Some before →
      rest !! k = Some (ph', sols', dual_values', probability') →
      _process_dual_information ph'
        (set_unique_scenario_solutions sols' before.1) dual_values' probability'
      = (soln_prob ← mapM (λ soln_info : solution,
                             solution_probability ph' soln_info.2) sols';
         new_rho ← weighted_rho ph' xd dual_values' probability' soln_prob;
         Some (set_x_deviation (Some xd)
                 (set_unique_scenario_solutions sols' before.1), new_rho)).
Proof.
  intros H. simpl in H. apply bind_Some in H as ([self' nr] & Hcycle & H).
  apply bind_Some in H as (trace' & Htrace & [= <-]).
  apply rho_cycle_x_deviation in Hcycle. simpl in Hcycle.
  destruct Hcycle as [Hcomp [xd Hxd]]. exists xd.
  assert (Hall : ∀ k st, ((self', nr) :: trace') !! k = Some st →
                         x_deviation st.1 = Some xd).
  { intros [|k] st Hk.
    - injection Hk as <-. exact Hxd.
    - simpl in Hk. eapply rho_cycles_x_deviation; eassumption. }
  split; [congruence |]. split; [exact Hall |].
  intros k before ph' sols' dv' pr' Hb _.
  unfold _process_dual_information. simpl.
  rewrite (Hall k before Hb). reflexivity.
Qed.

(** An instance: the candidates of the second run are spread over [[1, 5]],
    those of the first over [[1, 3]]; the spread in use stays [2]. *)
Lemma x_deviation_frozen_witness :
  let trace := default [] (rho_cycles (reset __init__) [example_run 3; example_run 5]) in
  compute_x_deviation (_xbars example_ph) (example_run 5).1.1.2 = Some {["x" := 4]} ∧
  ∀ k st, trace !! k = Some st → x_deviation st.1 = Some {["x" := 2]}.
Proof.
  intros trace. split; [vm_compute; reflexivity |].
  destruct (x_deviation_frozen __init__ example_ph
              [({["x" := 1]}, ["A"]); ({["x" := 3]}, ["B"])]
              [[Some {["x" := 4]}; None]; [None; Some {["x" := -2]}]]
              [1 # 2; 1 # 2] [example_run 5] trace)
    as (xd & Hxd & Hall & _).
  - vm_compute. reflexivity.
  - assert (E : xd = {["x" := 2]}).
    { vm_compute in Hxd. injection Hxd as <-. vm_compute. reflexivity. }
    rewrite <- E. exact Hall.
Defined.


(** ** The weighted average that the rho update uses *)


Lemma Qsum_cons x l : Qsum (x :: l) = x + Qsum l.
Proof. reflexivity. Qed.










(** ** More on the distribution of cuts *)

Lemma int_nonneg_floor q : 0 <= q → int q = Qfloor q.
Proof.
  destruct q as [n d]. unfold int, Qfloor, Qle. simpl. intros H.
  apply Z.quot_div_nonneg; lia.
Qed.

Lemma py_index_in_range {A} (l : list A) i :
  (0 <= i < Z.of_nat (length l))%Z → ∃ x, py_index l i = Some x ∧ l !! Z.to_nat i = Some x.
Proof.
  intros [H0 H1]. unfold py_index. rewrite (proj2 (Z.leb_le 0 i) H0).
  destruct (lookup_lt_is_Some_2 l (Z.to_nat i)) as [x Hx]; [lia | eauto].
Qed.

(** X2. For a cross-cut fraction in [[0, 1]] the index into the sorted
    magnitudes is in range: [allCutThreshold] never raises, and the cutoff is
    an element of [cutObj] (the constant [1] when [cutObj] is empty). *)
Theorem allCutThreshold_in_range self :
  0 <= cutThreshold_crossCut self → cutThreshold_crossCut self <= 1 →
  ∃ thr, allCutThreshold self = Some thr ∧
         ((cutObj self = [] ∧ thr = 1) ∨ thr ∈ cutObj self).
Proof.
  intros H0 H1. unfold allCutThreshold.
  destruct (cutObj self) as [|h t] eqn:E.
  - exists 1. split; [reflexivity | left; split; reflexivity].
  - set (n := Z.of_nat (length (h :: t))).
    set (q := (1 - cutThreshold_crossCut self) * inject_Z n).
    assert (Hn : (1 <= n)%Z) by (subst n; simpl; lia).
    assert (Hq : 0 <= q).
    { subst q. apply Qmult_le_0_compat; [lra |].
      unfold Qle. simpl. lia. }
    assert (Hi : (0 <= int q)%Z).
    { rewrite (int_nonneg_floor q Hq). change 0%Z with (Qfloor 0).
      apply Qfloor_resp_le, Hq. }
    destruct (py_index_in_range (h :: t) (Z.min (int q) (n - 1))) as (x & Hx & Hl).
    { fold n. lia. }
    exists x. split; [exact Hx |]. right. eapply list_elem_of_lookup_2, Hl.
Qed.

Lemma allCutThreshold_in_range_witness :
  let self := two_scenario_run (1 # 10) (1 # 2) (1 # 2) in
  0 <= cutThreshold_crossCut self ∧ cutThreshold_crossCut self <= 1 ∧
  ∃ thr, allCutThreshold self = Some thr ∧
         ((cutObj self = [] ∧ thr = 1) ∨ thr ∈ cutObj self).
Proof.
  intros self.
  assert (H0 : 0 <= cutThreshold_crossCut self) by (vm_compute; discriminate).
  assert (H1 : cutThreshold_crossCut self <= 1) by (vm_compute; discriminate).
  split; [exact H0 |]. split; [exact H1 |].
  exact (allCutThreshold_in_range self H0 H1).
Defined.

(** X3. A cross-cut fraction of 3 or more sends the index below the start of
    a non-empty [cutObj]: [allCutThreshold], and with it [_distribute_cuts],
    raises an [IndexError]. *)
Theorem allCutThreshold_out_of_range subproblems self :
  3 <= cutThreshold_crossCut self → cutObj self ≠ [] →
  allCutThreshold self = None ∧ _distribute_cuts subproblems self = None.
Proof.
  intros H3 Hne.
  assert (Hthr : allCutThreshold self = None).
  { unfold allCutThreshold. destruct (cutObj self) as [|h t] eqn:E; [congruence |].
    set (n := Z.of_nat (length (h :: t))).
    set (q := (1 - cutThreshold_crossCut self) * inject_Z n).
    assert (Hn : (1 <= n)%Z) by (subst n; simpl; lia).
    assert (Hq : q <= inject_Z (- 2 * n)).
    { subst q. rewrite inject_Z_mult.
      assert (Hn0 : 0 <= inject_Z n) by (unfold Qle; simpl; lia).
      assert (Hc : 1 - cutThreshold_crossCut self <= inject_Z (-2))
        by (change (inject_Z (-2)) with (-2 # 1); lra).
      apply Qmult_le_compat_r; assumption. }
    assert (Hi : (int q <= - 2 * n)%Z).
    { unfold int. destruct q as [a d]. unfold Qle in Hq. simpl in *.
      rewrite Z.mul_1_r in Hq.
      assert (Hd : (0 < Z.pos d)%Z) by lia.
      assert (Hle : (a ÷ Z.pos d <= (- 2 * n * Z.pos d) ÷ Z.pos d)%Z)
        by (apply Z.quot_le_mono; lia).
      rewrite Z.quot_mul in Hle by lia. exact Hle. }
    unfold py_index.
    rewrite (proj2 (Z.leb_gt 0 _)) by lia.
    fold n. rewrite (proj2 (Z.leb_gt 0 _)) by lia. reflexivity. }
  split; [exact Hthr |]. unfold _distribute_cuts. rewrite Hthr. reflexivity.
Qed.

Lemma allCutThreshold_out_of_range_witness :
  let self := two_scenario_run (1 # 10) 3 (1 # 2) in
  3 <= cutThreshold_crossCut self ∧ cutObj self ≠ [] ∧
  allCutThreshold self = None ∧ _distribute_cuts two_scenarios self = None.
Proof.
  intros self.
  assert (H3 : 3 <= cutThreshold_crossCut self) by (vm_compute; discriminate).
  assert (Hne : cutObj self ≠ []) by (vm_compute; discriminate).
  split; [exact H3 |]. split; [exact Hne |].
  exact (allCutThreshold_out_of_range two_scenarios self H3 Hne).
Defined.

(** X4. Every scenario that owns a candidate is handed every cut tuple of
    that candidate's column whose magnitude exceeds [cutThreshold_minDiff],
    whatever the cross-cut fraction. *)
Theorem distribute_cuts_owner subproblems self sent self' :
  _distribute_cuts subproblems self = Some (sent, self') →
  ∀ sc id sol row d cut,
    OfScenario sc ∈ subproblems →
    unique_scenario_solutions self !! id = Some sol →
    _name sc ∈ sol.2 →
    row ∈ feasibility_cuts self →
    row !! id = Some (CutTuple d cut) →
    cutThreshold_minDiff self < d →
    ∃ dl, dl ∈ sent ∧ to dl = _name sc ∧ CutTuple d cut ∈ feasibility dl.
Proof.
  intros H sc id sol row d cut Hsc Hsol Hown Hrow Hid Hd.
  unfold _distribute_cuts in H. apply bind_Some in H as (thr & Hthr & H).
  apply bind_Some in H as (sent0 & Hsent & [= <- <-]).
  destruct (distribute_loop_elem _ _ _ _ Hsent) as [Hto _].
  destruct (Hto _ Hsc) as (cuts & Hcollect & Hdl).
  assert (Hcut : CutTuple d cut ∈ cuts).
  { apply (collect_cuts_elem _ _ _ _ _ _ Hcollect). right. exists id, sol.
    split; [apply elem_of_enumerate, Hsol |]. split; [eauto |]. left.
    split; [| simpl; apply Qgtb_true_iff, Hd].
    simpl. f_equal. apply bool_decide_eq_true. exact Hown. }
  eexists. split; [apply Hdl |].
  - intros ->. apply elem_of_nil in Hcut. exact Hcut.
  - split; [reflexivity | exact Hcut].
Qed.

Lemma distribute_cuts_owner_witness :
  let self := two_scenario_run (1 # 10) 1 (1 # 2) in
  let sent := default [] (fst <$> _distribute_cuts two_scenarios self) in
  ∃ dl, dl ∈ sent ∧ to dl = "A" ∧
        CutTuple (1 # 2) {["x" := (1 # 2, 0)]} ∈ feasibility dl.
Proof.
  intros self sent.
  apply (distribute_cuts_owner two_scenarios self sent
           (set_optimality_cuts [] (set_feasibility_cuts [] self)) eq_refl
           (Scenario "A" {["x" := 0]} (1 # 2) 0) 0%nat ({["x" := 0]}, ["A"])
           [CutTuple (1 # 2) {["x" := (1 # 2, 0)]}; CutString ".  "]
           (1 # 2) {["x" := (1 # 2, 0)]}).
  - left.
  - reflexivity.
  - left.
  - right. left.
  - reflexivity.
  - reflexivity.
Defined.

(** X5. With bundles, [_distribute_cuts] reads [scenario._name] off the
    scenario names of the bundle and raises as soon as a bundle with a
    scenario meets a candidate. *)
Theorem distribute_cuts_bundles_raise b rest self thr :
  allCutThreshold self = Some thr →
  _scenario_names b ≠ [] →
  unique_scenario_solutions self ≠ [] →
  _distribute_cuts (OfBundle b :: rest) self = None.
Proof.
  intros Hthr Hb Hsols. unfold _distribute_cuts. rewrite Hthr. simpl.
  destruct (unique_scenario_solutions self) as [|[x s] sols]; [congruence |].
  destruct (_scenario_names b) as [|n ns] eqn:E; [congruence |].
  unfold enumerate. simpl. rewrite E. reflexivity.
Qed.

Lemma distribute_cuts_bundles_raise_witness :
  let self := two_scenario_run (1 # 10) 1 (1 # 2) in
  _distribute_cuts [OfBundle (Bundle "AB" ["A"; "B"] 1)] self = None.
Proof.
  intros self.
  apply (distribute_cuts_bundles_raise (Bundle "AB" ["A"; "B"] 1) [] self (1 # 2)).
  - reflexivity.
  - discriminate.
  - discriminate.
Defined.


(** ** More on the registry *)

Lemma register_scenario_names_perm sols s :
  concat (snd <$> register_scenario sols s) ≡ₚ concat (snd <$> sols) ++ [_name s].
Proof.
  induction sols as [|c sols IH]; simpl.
  - reflexivity.
  - destruct (dict_eqb (_x s) c.1); simpl.
    + rewrite <- !app_assoc. apply Permutation_app_head, Permutation_app_comm.
    + rewrite IH, app_assoc. reflexivity.
Qed.

Lemma register_scenario_length sols s :
  (length sols <= length (register_scenario sols s) <= S (length sols))%nat.
Proof.
  induction sols as [|c sols IH]; simpl; [lia |].
  destruct (dict_eqb (_x s) c.1); simpl; lia.
Qed.

(** X6. [_collect_unique_scenario_solutions] records every scenario exactly
    once: the name lists of the registry, taken together, are a permutation of
    the scenario names, and there are at most as many candidates as
    scenarios. *)
Theorem collect_unique_scenario_solutions_partition (scenarios : list scenario) :
  concat (snd <$> _collect_unique_scenario_solutions scenarios)
    ≡ₚ _name <$> scenarios ∧
  (length (_collect_unique_scenario_solutions scenarios) <= length scenarios)%nat.
Proof.
  unfold _collect_unique_scenario_solutions.
  induction scenarios as [|s l IH] using rev_ind.
  - split; [reflexivity | simpl; lia].
  - rewrite fold_left_app. simpl. destruct IH as [IHp IHl]. split.
    + rewrite register_scenario_names_perm, IHp, fmap_app. reflexivity.
    + pose proof (register_scenario_length (fold_left register_scenario l []) s).
      rewrite length_app. simpl. lia.
Qed.


(** ** More on the rho update *)



(** X8. An estimate for a variable that [self.rho] does not hold makes the
    damped update raise a [KeyError]. *)
Theorem update_rho_missing_key self new_rho rho0 v r :
  rho self = Some rho0 → new_rho !! v = Some r → rho0 !! v = None →
  update_rho self new_rho = None.
Proof.
  intros Hrho Hv Hmiss. unfold update_rho. rewrite Hrho.
  rewrite bool_decide_eq_false_2; [reflexivity |].
  intros Hall. destruct (Hall v r Hv) as [x Hx]. congruence.
Qed.

Lemma update_rho_missing_key_witness :
  update_rho (set_rho (Some {["x" := 1]}) __init__) {["y" := 4]} = None.
Proof.
  apply (update_rho_missing_key (set_rho (Some {["x" := 1]}) __init__)
           {["y" := 4]} {["x" := 1]} "y" 4); reflexivity.
Defined.


(** ** The spread of the candidates *)

Lemma py_max_spec l m : py_max l = Some m → m ∈ l ∧ ∀ x, x ∈ l → x <= m.
Proof.
  destruct l as [|x0 rest]; [discriminate |]. simpl. intros [= <-].
  revert x0. induction rest as [|y rest IH]; intros x0; simpl.
  - split; [left |]. intros x Hx. apply list_elem_of_singleton in Hx as ->.
    apply Qle_refl.
  - destruct (IH (if Qgtb y x0 then y else x0)) as [Hin Hmax].
    assert (Hb : x0 <= (if Qgtb y x0 then y else x0) ∧
                 y <= (if Qgtb y x0 then y else x0)).
    { destruct (Qgtb y x0) eqn:E.
      - apply Qgtb_true_iff in E. split; [apply Qlt_le_weak, E | apply Qle_refl].
      - apply Qgtb_false_iff in E. split; [apply Qle_refl | exact E]. }
    pose proof (Hmax _ (list_elem_of_here _ _)) as H0. split.
    + apply elem_of_cons in Hin as [-> | Hin].
      * destruct (Qgtb y x0); [right; left | left].
      * right; right; exact Hin.
    + intros x Hx. apply elem_of_cons in Hx as [-> | Hx].
      * eapply Qle_trans; [apply Hb | exact H0].
      * apply elem_of_cons in Hx as [-> | Hx].
        -- eapply Qle_trans; [apply Hb | exact H0].
        -- apply Hmax. right. exact Hx.
Qed.

Lemma py_min_spec l m : py_min l = Some m → m ∈ l ∧ ∀ x, x ∈ l → m <= x.
Proof.
  destruct l as [|x0 rest]; [discriminate |]. simpl. intros [= <-].
  revert x0. induction rest as [|y rest IH]; intros x0; simpl.
  - split; [left |]. intros x Hx. apply list_elem_of_singleton in Hx as ->.
    apply Qle_refl.
  - destruct (IH (if Qgtb x0 y then y else x0)) as [Hin Hmin].
    assert (Hb : (if Qgtb x0 y then y else x0) <= x0 ∧
                 (if Qgtb x0 y then y else x0) <= y).
    { destruct (Qgtb x0 y) eqn:E.
      - apply Qgtb_true_iff in E. split; [apply Qlt_le_weak, E | apply Qle_refl].
      - apply Qgtb_false_iff in E. split; [apply Qle_refl | exact E]. }
    pose proof (Hmin _ (list_elem_of_here _ _)) as H0. split.
    + apply elem_of_cons in Hin as [-> | Hin].
      * destruct (Qgtb x0 y); [right; left | left].
      * right; right; exact Hin.
    + intros x Hx. apply elem_of_cons in Hx as [-> | Hx].
      * eapply Qle_trans; [exact H0 | apply Hb].
      * apply elem_of_cons in Hx as [-> | Hx].
        -- eapply Qle_trans; [exact H0 | apply Hb].
        -- apply Hmin. right. exact Hx.
Qed.

Lemma lookup_dict_from_keys keys f d v :
  dict_from_keys keys f = Some d → d !! v = keys !! v ≫= λ _, f v.
Proof.
  unfold dict_from_keys. destruct (bool_decide _); [| discriminate]. intros [= <-].
  apply map_lookup_imap.
Qed.

(** X9. The spread that the first dual-processing call stores is defined for
    exactly the variables of [xbar], is the difference of two of the
    candidates' values, and is never negative, so that [x_dev + 1] is at
    least 1. *)
Theorem compute_x_deviation_spec xbar sols xd :
  compute_x_deviation xbar sols = Some xd →
  (∀ v, is_Some (xd !! v) ↔ is_Some (xbar !! v)) ∧
  ∀ v x, xd !! v = Some x →
    0 <= x ∧ 1 <= x + 1 ∧
    ∃ hi lo, x = hi - lo ∧
             (∃ s, s ∈ sols ∧ s.1 !! v = Some hi) ∧
             (∃ s, s ∈ sols ∧ s.1 !! v = Some lo) ∧
             ∀ s y, s ∈ sols → s.1 !! v = Some y → lo <= y ∧ y <= hi.
Proof.
  unfold compute_x_deviation. intros H.
  assert (Hlk := λ v, lookup_dict_from_keys _ _ _ v H).
  assert (Hdef : ∀ v, is_Some (xbar !! v) → is_Some (spread sols v)).
  { unfold dict_from_keys in H. destruct (bool_decide _) eqn:E; [| discriminate].
    apply bool_decide_eq_true in E. intros v [b Hb]. exact (E v b Hb). }
  split.
  - intros v. rewrite Hlk. split.
    + intros [x Hx]. destruct (xbar !! v); [eauto | discriminate].
    + intros [b Hb]. rewrite Hb. simpl. apply Hdef. eauto.
  - intros v x Hx. rewrite Hlk in Hx.
    destruct (xbar !! v) as [b|]; simpl in Hx; [| discriminate].
    unfold spread in Hx. apply bind_Some in Hx as (values & Hvals & Hx).
    apply bind_Some in Hx as (hi & Hhi & Hx).
    apply bind_Some in Hx as (lo & Hlo & [= <-]).
    apply py_max_spec in Hhi as [Hhi_in Hhi]. apply py_min_spec in Hlo as [Hlo_in Hlo].
    apply mapM_Some in Hvals.
    assert (Hfrom : ∀ y, y ∈ values → ∃ s, s ∈ sols ∧ s.1 !! v = Some y).
    { intros y Hy. apply list_elem_of_lookup in Hy as [i Hi].
      destruct (Forall2_lookup_r _ _ _ _ _ Hvals Hi) as (s & Hs & Hsv).
      exists s. split; [eapply list_elem_of_lookup_2, Hs | exact Hsv]. }
    assert (Hto : ∀ s y, s ∈ sols → s.1 !! v = Some y → y ∈ values).
    { intros s y Hs Hy. apply list_elem_of_lookup in Hs as [i Hi].
      destruct (Forall2_lookup_l _ _ _ _ _ Hvals Hi) as (y' & Hy' & Hsv).
      rewrite Hy in Hsv. injection Hsv as <-. eapply list_elem_of_lookup_2, Hy'. }
    pose proof (Hhi lo Hlo_in) as Hle.
    split; [lra |]. split; [lra |]. exists hi, lo. split; [reflexivity |].
    split; [apply Hfrom, Hhi_in |]. split; [apply Hfrom, Hlo_in |].
    intros s y Hs Hy. split; [apply Hlo | apply Hhi]; eapply Hto; eassumption.
Qed.

Lemma compute_x_deviation_spec_witness :
  let sols : list solution := [({["x" := 1]}, ["A"]); ({["x" := 5]}, ["B"])] in
  let xd := default ∅ (compute_x_deviation {["x" := 2]} sols) in
  let x := default 0 (xd !! "x") in
  compute_x_deviation {["x" := 2]} sols = Some xd ∧ xd !! "x" = Some x ∧
  0 <= x ∧ 1 <= x + 1.
Proof.
  intros sols xd x.
  assert (H : compute_x_deviation {["x" := 2]} sols = Some xd)
    by (vm_compute; reflexivity).
  assert (Hx : xd !! "x" = Some x) by (vm_compute; reflexivity).
  split; [exact H |]. split; [exact Hx |].
  destruct (compute_x_deviation_spec _ _ _ H) as [_ Hall].
  destruct (Hall "x" x Hx) as (H0 & H1 & _). split; assumption.
Defined.

(** X10. Without candidates there is no spread to take: for a non-empty
    [xbar] the first dual-processing call after a [reset] raises (the
    [ValueError] of [max] on an empty sequence). *)
Theorem process_dual_information_no_candidates ph self dual_values probability :
  x_deviation self = None → unique_scenario_solutions self = [] →
  _xbars ph ≠ ∅ →
  _process_dual_information ph self dual_values probability = None.
Proof.
  intros Hxd Hsols Hxbar. unfold _process_dual_information.
  rewrite Hxd, Hsols. simpl.
  unfold compute_x_deviation, dict_from_keys.
  rewrite bool_decide_eq_false_2; [reflexivity |].
  intros Hall. apply Hxbar. apply map_empty. intros v.
  destruct (_xbars ph !! v) as [b|] eqn:E; [| reflexivity].
  destruct (Hall v b E) as [x Hx]. discriminate.
Qed.

Lemma process_dual_information_no_candidates_witness :
  _process_dual_information example_ph (reset __init__) [] [] = None.
Proof.
  apply (process_dual_information_no_candidates example_ph (reset __init__) [] []).
  - reflexivity.
  - reflexivity.
  - intros H. apply (f_equal (λ m : gmap string Q, m !! "x")) in H. discriminate.
Defined.


(** ** The expected objective of a candidate *)

Lemma objective_loop_spec partial_obj_values soln_id (probability : list Q) :
  ∀ k obj o,
    objective_loop partial_obj_values soln_id
      (imap (λ i, pair (k + i)%nat) probability) obj = Some o →
    match o with
    | None =>
        ∃ i row, (i < length probability)%nat ∧
                 partial_obj_values !! (k + i)%nat = Some row ∧
                 row !! soln_id = Some None
    | Some val =>
        ∃ vals, length vals = length probability ∧
                (∀ i v, vals !! i = Some v →
                   ∃ row, partial_obj_values !! (k + i)%nat = Some row ∧
                          row !! soln_id = Some (Some v)) ∧
                val == obj + Qsum (zip_with Qmult probability vals)
    end.
Proof.
  induction probability as [|p rest IH]; intros k obj o H.
  - simpl in H. injection H as <-. exists []. split; [reflexivity |]. split.
    + intros i v Hi. destruct i; discriminate.
    + unfold Qsum. simpl. ring.
  - simpl in H. rewrite Nat.add_0_r in H.
    destruct (partial_obj_values !! k) as [row|] eqn:Erow; simpl in H; [| discriminate].
    destruct (row !! soln_id) as [[v0|]|] eqn:Eo; simpl in H; try discriminate.
    + rewrite (imap_ext _ (λ i, pair (S k + i)%nat)) in H
        by (intros; simpl; f_equal; lia).
      apply IH in H. destruct o as [val|].
      * destruct H as (vals & Hlen & Hvals & Hval). exists (v0 :: vals).
        split; [simpl; lia |]. split.
        -- intros [|i] v Hi; simpl in Hi.
           ++ injection Hi as <-. rewrite Nat.add_0_r. eauto.
           ++ replace (k + S i)%nat with (S k + i)%nat by lia. eauto.
        -- change (zip_with Qmult (p :: rest) (v0 :: vals))
             with (p * v0 :: zip_with Qmult rest vals).
           rewrite Qsum_cons, Hval. ring.
      * destruct H as (i & row' & Hi & Hrow & Hnone). exists (S i), row'.
        split; [simpl; lia |].
        replace (k + S i)%nat with (S k + i)%nat by lia. eauto.
    + injection H as <-. exists 0%nat, row. rewrite Nat.add_0_r.
      split; [simpl; lia |]. eauto.
Qed.

(** X11. [_compute_objective] answers one entry per candidate.  The entry is
    [None] only if some scenario reported [None] for the candidate; otherwise
    every scenario reported an objective for it and the entry is their
    probability-weighted sum. *)
Theorem compute_objective_spec self partial_obj_values probability objs :
  _compute_objective self partial_obj_values probability = Some objs →
  length objs = length (unique_scenario_solutions self) ∧
  ∀ soln_id o, objs !! soln_id = Some o →
    match o with
    | None =>
        ∃ scen row, (scen < length probability)%nat ∧
                    partial_obj_values !! scen = Some row ∧
                    row !! soln_id = Some None
    | Some val =>
        ∃ vals, length vals = length probability ∧
                (∀ scen v, vals !! scen = Some v →
                   ∃ row, partial_obj_values !! scen = Some row ∧
                          row !! soln_id = Some (Some v)) ∧
                val == Qsum (zip_with Qmult probability vals)
    end.
Proof.
  intros H. split.
  - unfold _compute_objective in H. apply mapM_Some, Forall2_length in H.
    rewrite length_seq in H. symmetry. exact H.
  - intros soln_id o Ho.
    pose proof (compute_objective_lookup _ _ _ _ _ _ H Ho) as Hloop.
    apply (objective_loop_spec _ _ probability 0%nat 0 o) in Hloop.
    destruct o as [val|]; [| exact Hloop].
    destruct Hloop as (vals & Hlen & Hvals & Hval).
    exists vals. split; [exact Hlen |]. split; [exact Hvals |].
    rewrite Hval. ring.
Qed.

Lemma compute_objective_spec_witness :
  let pov := [[Some 4; None]; [Some 6; Some 1]] in
  let self := set_unique_scenario_solutions [(∅, ["A"]); (∅, ["B"])] __init__ in
  let objs := default [] (_compute_objective self pov [1 # 4; 3 # 4]) in
  let val := default 0 (default None (objs !! 0%nat)) in
  _compute_objective self pov [1 # 4; 3 # 4] = Some objs ∧
  length objs = 2%nat ∧
  objs !! 0%nat = Some (Some val) ∧
  (∃ vals, length vals = 2%nat ∧
           val == Qsum (zip_with Qmult [1 # 4; 3 # 4] vals)) ∧
  objs !! 1%nat = Some None.
Proof.
  intros pov self objs val.
  assert (H : _compute_objective self pov [1 # 4; 3 # 4] = Some objs)
    by (vm_compute; reflexivity).
  assert (H0 : objs !! 0%nat = Some (Some val)) by (vm_compute; reflexivity).
  destruct (compute_objective_spec _ _ _ _ H) as [Hlen Hall].
  split; [exact H |]. split; [exact Hlen |]. split; [exact H0 |]. split.
  - destruct (Hall _ _ H0) as (vals & Hl & _ & Hv). exists vals. split; assumption.
  - vm_compute. reflexivity.
Defined.

Lemma objective_loop_total partial_obj_values soln_id (probability : list Q) :
  ∀ k obj,
    (∀ i, (i < length probability)%nat →
       ∃ row, partial_obj_values !! (k + i)%nat = Some row ∧
              is_Some (row !! soln_id)) →
    is_Some (objective_loop partial_obj_values soln_id
               (imap (λ i, pair (k + i)%nat) probability) obj).
Proof.
  induction probability as [|p rest IH]; intros k obj Hrect.
  - simpl. eauto.
  - simpl. rewrite Nat.add_0_r.
    destruct (Hrect 0%nat) as (row & Hrow & [o Ho]); [simpl; lia |].
    rewrite Nat.add_0_r in Hrow. rewrite Hrow. simpl. rewrite Ho. simpl.
    destruct o as [v|]; [| eauto].
    rewrite (imap_ext _ (λ i, pair (S k + i)%nat))
      by (intros; simpl; f_equal; lia).
    apply IH. intros i Hi. destruct (Hrect (S i)) as (row' & Hrow' & Hsome).
    { simpl. lia. }
    exists row'. replace (S k + i)%nat with (k + S i)%nat by lia. eauto.
Qed.

(** X12. [_compute_objective] does not raise when every scenario of the
    probability list returned a row with an entry for every candidate. *)
Theorem compute_objective_rectangular self partial_obj_values probability :
  (∀ scen, (scen < length probability)%nat →
     ∃ row, partial_obj_values !! scen = Some row ∧
            (length (unique_scenario_solutions self) <= length row)%nat) →
  ∃ objs, _compute_objective self partial_obj_values probability = Some objs.
Proof.
  intros Hrect. unfold _compute_objective.
  apply (mapM_is_Some_2 (λ soln_id,
           objective_loop partial_obj_values soln_id (enumerate probability) 0)).
  apply Forall_forall. intros soln_id Hin. simpl.
  apply elem_of_seq in Hin as [_ Hlt].
  apply (objective_loop_total _ _ probability 0%nat 0).
  intros i Hi. destruct (Hrect i Hi) as (row & Hrow & Hlen).
  exists row. split; [exact Hrow |]. apply lookup_lt_is_Some. simpl in Hlt. lia.
Qed.

Lemma compute_objective_rectangular_witness :
  ∃ objs,
    _compute_objective
      (set_unique_scenario_solutions [(∅, ["A"]); (∅, ["B"])] __init__)
      [[Some 4; None]; [Some 6; Some 1]] [1 # 4; 3 # 4] = Some objs.
Proof.
  apply (compute_objective_rectangular
           (set_unique_scenario_solutions [(∅, ["A"]); (∅, ["B"])] __init__)
           [[Some 4; None]; [Some 6; Some 1]] [1 # 4; 3 # 4]).
  intros scen Hscen. simpl in Hscen.
  destruct scen as [|[|scen]]; [| | lia]; eexists; (split; [reflexivity | simpl; lia]).
Defined.


(** ** The optimality cuts *)

Ltac solve_members :=
  let H := fresh in
  split; intros H;
  repeat match goal with
         | H : _ ∨ _ |- _ => destruct H
         | H : _ ∧ _ |- _ => destruct H
         | H : (_, _) = (_, _) |- _ => apply pair_equal_spec in H
         end;
  subst; try discriminate; try contradiction; eauto 7.

Lemma classify_variables_spec vars fixed :
  ∀ bs ints,
    match classify_variables vars fixed bs ints with
    | None => ∃ v, (v, OtherDomain) ∈ vars ∧ v ∉ fixed
    | Some r =>
        (∀ v, v ∈ r.1 ↔ v ∈ bs ∨ ((v, BinaryDomain) ∈ vars ∧ v ∉ fixed)) ∧
        (∀ v, v ∈ r.2 ↔ v ∈ ints ∨ ((v, IntegerDomain) ∈ vars ∧ v ∉ fixed))
    end.
Proof.
  induction vars as [|[v0 d0] vars IH]; intros bs ints; simpl.
  - split; intros v; rewrite elem_of_nil; tauto.
  - destruct (decide (v0 ∈ fixed)) as [Hfix | Hfree]; [| destruct d0].
    + specialize (IH bs ints). destruct (classify_variables vars fixed bs ints) as [r|].
      * destruct IH as [Hb Hi].
        split; intros v; [rewrite Hb | rewrite Hi]; rewrite elem_of_cons;
          solve_members.
      * destruct IH as (v & Hv & Hnf). exists v. split; [right; exact Hv | exact Hnf].
    + specialize (IH (bs ++ [v0]) ints).
      destruct (classify_variables vars fixed (bs ++ [v0]) ints) as [r|].
      * destruct IH as [Hb Hi].
        split; intros v; [rewrite Hb | rewrite Hi];
          rewrite ?elem_of_app, ?list_elem_of_singleton, elem_of_cons;
          solve_members.
      * destruct IH as (v & Hv & Hnf). exists v. split; [right; exact Hv | exact Hnf].
    + specialize (IH bs (ints ++ [v0])).
      destruct (classify_variables vars fixed bs (ints ++ [v0])) as [r|].
      * destruct IH as [Hb Hi].
        split; intros v; [rewrite Hb | rewrite Hi];
          rewrite ?elem_of_app, ?list_elem_of_singleton, elem_of_cons;
          solve_members.
      * destruct IH as (v & Hv & Hnf). exists v. split; [right; exact Hv | exact Hnf].
    + exists v0. split; [left | exact Hfree].
Qed.

Lemma classify_variables_continuous vars fixed bs ints v :
  (v, OtherDomain) ∈ vars → v ∉ fixed →
  classify_variables vars fixed bs ints = None.
Proof.
  revert bs ints. induction vars as [|[v0 d0] vars IH]; intros bs ints Hin Hfree.
  - apply elem_of_nil in Hin as [].
  - simpl. apply elem_of_cons in Hin as [[= <- <-] | Hin].
    + destruct (decide (v ∈ fixed)); [contradiction | reflexivity].
    + destruct (decide (v0 ∈ fixed)); [apply IH; assumption |].
      destruct d0; [apply IH; assumption | apply IH; assumption | reflexivity].
Qed.

Lemma restrict_dict_spec _x vars d :
  restrict_dict _x vars = Some d →
  ∀ v x, d !! v = Some x ↔ v ∈ vars ∧ _x !! v = Some x.
Proof.
  unfold restrict_dict. intros H. apply bind_Some in H as (kvs & Hkvs & [= <-]).
  apply mapM_Some in Hkvs.
  assert (Hel : ∀ v x, (v, x) ∈ kvs ↔ v ∈ vars ∧ _x !! v = Some x).
  { intros v x. split.
    - intros Hin. apply list_elem_of_lookup in Hin as [i Hi].
      destruct (Forall2_lookup_r _ _ _ _ _ Hkvs Hi) as (vid & Hvid & Hf).
      destruct (_x !! vid) as [y|] eqn:E; simpl in Hf; [| discriminate].
      injection Hf as -> ->. split; [eapply list_elem_of_lookup_2, Hvid | exact E].
    - intros [Hin Hx]. apply list_elem_of_lookup in Hin as [i Hi].
      destruct (Forall2_lookup_l _ _ _ _ _ Hkvs Hi) as (kv & Hkv & Hf).
      rewrite Hx in Hf. simpl in Hf. injection Hf as <-.
      eapply list_elem_of_lookup_2, Hkv. }
  intros v x. rewrite <- Hel. split.
  - apply elem_of_list_to_map_2.
  - intros Hin. apply elem_of_list_to_map_1'; [| exact Hin].
    intros y Hy. apply Hel in Hin as [_ Hx]. apply Hel in Hy as [_ Hy]. congruence.
Qed.

Lemma feasible_obj_fst (objs : list (option Q)) :
  ∀ k,
    NoDup (omap (λ o : nat * option Q, v ← o.2; Some (o.1, v))
             (imap (λ i, pair (k + i)%nat) objs)).*1 ∧
    Forall (λ i, (k <= i)%nat)
      (omap (λ o : nat * option Q, v ← o.2; Some (o.1, v))
         (imap (λ i, pair (k + i)%nat) objs)).*1 ∧
    length (omap (λ o : nat * option Q, v ← o.2; Some (o.1, v))
              (imap (λ i, pair (k + i)%nat) objs))
      = length (filter (λ o, is_Some o) objs).
Proof.
  induction objs as [|o objs IH]; intros k.
  - simpl. split; [constructor |]. split; [constructor | reflexivity].
  - destruct (IH (S k)) as (Hnd & Hge & Hlen).
    rewrite filter_cons. remember (filter (λ o, is_Some o) objs) as fl eqn:Efl.
    simpl.
    rewrite (imap_ext _ (λ i, pair (S k + i)%nat))
      by (intros; simpl; f_equal; lia).
    destruct o as [v|]; simpl.
    + split; [| split; [| f_equal; exact Hlen]].
      * constructor; [| exact Hnd]. intros Hin.
        rewrite Forall_forall in Hge. apply Hge in Hin. lia.
      * constructor; [lia |]. eapply Forall_impl; [exact Hge |]. simpl. lia.
    + split; [exact Hnd |]. split; [| exact Hlen].
      eapply Forall_impl; [exact Hge |]. simpl. lia.
Qed.

Lemma length_filter_other (l : list (nat * Q)) x :
  NoDup l.*1 → x ∈ l.*1 →
  length (filter (λ o : nat * Q, o.1 ≠ x) l) = (length l - 1)%nat.
Proof.
  induction l as [|a l IH]; intros Hnd Hin.
  - apply elem_of_nil in Hin as [].
  - rewrite fmap_cons in Hnd, Hin. apply NoDup_cons in Hnd as [Hnotin Hnd].
    destruct (decide (a.1 = x)) as [Heq | Hne].
    + rewrite filter_cons_False by (intros Hc; apply Hc, Heq).
      simpl. rewrite Nat.sub_0_r. f_equal.
      clear IH Hin Hnd. subst x. induction l as [|b l IHl]; [reflexivity |].
      rewrite fmap_cons in Hnotin. apply not_elem_of_cons in Hnotin as [Hb Hl].
      rewrite filter_cons_True by (intros Hc; apply Hb; symmetry; exact Hc).
      f_equal. apply IHl, Hl.
    + rewrite filter_cons_True by exact Hne.
      apply elem_of_cons in Hin as [Hx | Hin]; [congruence |].
      simpl. rewrite IH by assumption.
      assert (0 < length l)%nat; [| lia].
      destruct l; [apply elem_of_nil in Hin as [] | simpl; lia].
Qed.

(** X13. No optimality cut is derived when some first-stage variable that is
    not fixed has a continuous domain: [_update_incumbent] leaves
    [self.optimality_cuts] as it was. *)
Theorem update_incumbent_continuous ph self self' v :
  _variable_datas ph !! v = Some OtherDomain → v ∉ _fixed ph →
  _update_incumbent ph self = Some self' →
  optimality_cuts self' = optimality_cuts self.
Proof.
  intros Hv Hfree. unfold _update_incumbent.
  destruct (omap _ (enumerate (feasible_objectives self))) as [|x xs].
  { intros [= <-]. reflexivity. }
  destruct (min_itemgetter_1 _ _) as [best_id best_obj].
  intros H. apply bind_Some in H as (self1 & H1 & H2).
  assert (Hframe : optimality_cuts self1 = optimality_cuts self).
  { match type of H1 with
    | (if ?c then _ else _) = _ => destruct c
    end.
    - apply bind_Some in H1 as (sol & _ & [= <-]). reflexivity.
    - injection H1 as <-. reflexivity. }
  destruct (length (x :: xs) <=? 1)%nat; [injection H2 as <-; exact Hframe |].
  rewrite (classify_variables_continuous _ _ _ _ v) in H2.
  - injection H2 as <-. exact Hframe.
  - apply elem_of_map_to_list, Hv.
  - exact Hfree.
Qed.

Lemma update_incumbent_continuous_witness :
  let ph := {| _objective_sense := minimize; _current_iteration := 0;
               _scenarios := []; _variable_datas := {["x" := OtherDomain]};
               _fixed := ∅; _xbars := ∅ |} in
  let self :=
    set_feasible_objectives [Some 3; Some 1]
      (set_unique_scenario_solutions
         [({["x" := 0]}, ["A"]); ({["x" := 1]}, ["B"])] (reset __init__)) in
  let self' := default self (_update_incumbent ph self) in
  _update_incumbent ph self = Some self' ∧
  optimality_cuts self' = optimality_cuts self.
Proof.
  intros ph self self'.
  assert (H : _update_incumbent ph self = Some self') by (vm_compute; reflexivity).
  split; [exact H |].
  apply (update_incumbent_continuous ph self self' "x").
  - reflexivity.
  - apply not_elem_of_empty.
  - exact H.
Defined.

(** X14. When every first-stage variable that is not fixed is binary or
    integer, [_update_incumbent] appends one optimality cut for every
    globally feasible candidate but one: a candidate of least sense-adjusted
    objective is spared.  Each cut holds the values that its candidate gives
    to the free binary variables and to the free integer variables. *)
Theorem update_incumbent_optimality_cuts ph self self' :
  (∀ v, _variable_datas ph !! v = Some OtherDomain → v ∈ _fixed ph) →
  _update_incumbent ph self = Some self' →
  ∃ new,
    optimality_cuts self' = optimality_cuts self ++ new ∧
    length new
      = (length (filter (λ o, is_Some o) (feasible_objectives self)) - 1)%nat ∧
    (new = [] ∨
     ∃ best o,
       feasible_objectives self !! best = Some (Some o) ∧
       (∀ j o', feasible_objectives self !! j = Some (Some o') →
                _sense_to_min self * o <= _sense_to_min self * o') ∧
       ∀ cut, cut ∈ new →
         ∃ id o' sol,
           id ≠ best ∧
           feasible_objectives self !! id = Some (Some o') ∧
           unique_scenario_solutions self !! id = Some sol ∧
           (∀ v x, cut.1 !! v = Some x ↔
                   (_variable_datas ph !! v = Some BinaryDomain ∧
                    v ∉ _fixed ph) ∧ sol.1 !! v = Some x) ∧
           (∀ v x, cut.2 !! v = Some x ↔
                   (_variable_datas ph !! v = Some IntegerDomain ∧
                    v ∉ _fixed ph) ∧ sol.1 !! v = Some x)).
Proof.
  intros Hdiscrete. unfold _update_incumbent.
  pose proof (feasible_obj_fst (feasible_objectives self) 0) as (Hnd & _ & Hlen).
  change (imap (λ i : nat, pair (0 + i)%nat) (feasible_objectives self))
    with (enumerate (feasible_objectives self)) in Hnd, Hlen.
  set (fo := omap _ (enumerate (feasible_objectives self))) in *.
  assert (Hfo : ∀ i v, (i, v) ∈ fo ↔ feasible_objectives self !! i = Some (Some v))
    by apply elem_of_feasible_obj.
  rewrite <- Hlen. clear Hlen.
  destruct fo as [|x xs] eqn:Efo.
  { intros [= <-]. exists []. rewrite app_nil_r. repeat split. left. reflexivity. }
  set (s := _sense_to_min self) in *.
  pose proof (min_itemgetter_1_spec (x.1, s * x.2)
                ((λ x : nat * Q, (x.1, s * x.2)) <$> xs)) as [Hin Hmin].
  destruct (min_itemgetter_1 _ _) as [best_id best_obj]. simpl in Hmin.
  change ((x.1, s * x.2) :: ((λ x : nat * Q, (x.1, s * x.2)) <$> xs))
    with ((λ x : nat * Q, (x.1, s * x.2)) <$> (x :: xs)) in Hin, Hmin.
  apply list_elem_of_fmap in Hin as ([id o] & Heq & Hino). simpl in Heq.
  injection Heq as -> ->.
  intros H. apply bind_Some in H as (self1 & H1 & H2).
  assert (Hframe : optimality_cuts self1 = optimality_cuts self ∧
                   unique_scenario_solutions self1 = unique_scenario_solutions self).
  { match type of H1 with
    | (if ?c then _ else _) = _ => destruct c
    end.
    - apply bind_Some in H1 as (sol & _ & [= <-]). split; reflexivity.
    - injection H1 as <-. split; reflexivity. }
  destruct Hframe as [Hcuts Hsols].
  destruct (length (x :: xs) <=? 1)%nat eqn:Elen.
  { injection H2 as <-. exists []. rewrite app_nil_r.
    apply Nat.leb_le in Elen. repeat split; [exact Hcuts | simpl in *; lia |].
    left. reflexivity. }
  pose proof (classify_variables_spec (map_to_list (_variable_datas ph))
                (_fixed ph) [] []) as Hclass.
  destruct (classify_variables _ _ _ _) as [[binary_vars integer_vars]|].
  2:{ destruct Hclass as (v & Hv & Hfree). apply elem_of_map_to_list in Hv.
      destruct (Hfree (Hdiscrete v Hv)). }
  destruct Hclass as [Hb Hi]. simpl in Hb, Hi.
  apply bind_Some in H2 as (cuts & Hmap & [= <-]). simpl.
  apply mapM_Some in Hmap. exists cuts. split; [rewrite Hcuts; reflexivity |].
  split.
  { rewrite <- (Forall2_length _ _ _ Hmap). apply length_filter_other.
    - exact Hnd.
    - apply list_elem_of_fmap. exists (id, o). split; [reflexivity | exact Hino]. }
  right. exists id, o. split; [apply Hfo, Hino |]. split.
  { intros j o' Hj. apply Hfo in Hj.
    apply (Hmin (j, s * o')). apply list_elem_of_fmap.
    exists (j, o'). split; [reflexivity | exact Hj]. }
  intros cut Hcut. apply list_elem_of_lookup in Hcut as [n Hn].
  destruct (Forall2_lookup_r _ _ _ _ _ Hmap Hn) as ([id' o'] & Hsrc & Hf).
  apply list_elem_of_lookup_2 in Hsrc. apply list_elem_of_filter in Hsrc as [Hne Hsrc].
  simpl in Hne, Hf. rewrite Hsols in Hf.
  apply bind_Some in Hf as (sol & Hsol & Hf).
  apply bind_Some in Hf as (b & Hbd & Hf).
  apply bind_Some in Hf as (i & Hid & [= <-]). simpl.
  exists id', o', sol. split; [exact Hne |]. split; [apply Hfo, Hsrc |].
  split; [exact Hsol |]. split.
  - intros v y. rewrite (restrict_dict_spec _ _ _ Hbd), Hb, elem_of_nil,
      elem_of_map_to_list. tauto.
  - intros v y. rewrite (restrict_dict_spec _ _ _ Hid), Hi, elem_of_nil,
      elem_of_map_to_list. tauto.
Qed.

Lemma update_incumbent_optimality_cuts_witness :
  let ph := {| _objective_sense := minimize; _current_iteration := 0;
               _scenarios := []; _variable_datas := {["x" := BinaryDomain]};
               _fixed := ∅; _xbars := ∅ |} in
  let self :=
    set_feasible_objectives [Some 3; Some 1]
      (set_unique_scenario_solutions
         [({["x" := 0]}, ["A"]); ({["x" := 1]}, ["B"])] (reset __init__)) in
  let self' := default self (_update_incumbent ph self) in
  _update_incumbent ph self = Some self' ∧
  ∃ new, optimality_cuts self' = optimality_cuts self ++ new ∧ length new = 1%nat.
Proof.
  intros ph self self'.
  assert (H : _update_incumbent ph self = Some self') by (vm_compute; reflexivity).
  split; [exact H |].
  destruct (update_incumbent_optimality_cuts ph self self') as (new & Hnew & Hlen & _).
  - intros v Hv. simpl in Hv. destruct (decide (v = "x")) as [-> | Hne].
    + rewrite lookup_singleton_eq in Hv. discriminate.
    + rewrite lookup_singleton_ne in Hv by congruence. discriminate.
  - exact H.
  - exists new. split; [exact Hnew | exact Hlen].
Defined.


(** ** The duals of the fixing constraints *)

Lemma read_duals_spec m d :
  read_duals m = Some d →
  ∀ v x, d !! v = Some x ↔
         is_Some (fixed_variable_values m !! v) ∧ dual m !! v = Some x.
Proof.
  unfold read_duals. intros H. apply bind_Some in H as (kvs & Hkvs & [= <-]).
  apply mapM_Some in Hkvs.
  assert (Hel : ∀ v x, (v, x) ∈ kvs ↔
                       is_Some (fixed_variable_values m !! v) ∧ dual m !! v = Some x).
  { intros v x. split.
    - intros Hin. apply list_elem_of_lookup in Hin as [i Hi].
      destruct (Forall2_lookup_r _ _ _ _ _ Hkvs Hi) as ([k p] & Hkp & Hf).
      simpl in Hf.
      destruct (dual m !! k) as [y|] eqn:E; simpl in Hf; [| discriminate].
      injection Hf as -> ->. apply list_elem_of_lookup_2 in Hkp.
      apply elem_of_map_to_list in Hkp. split; [eauto | exact E].
    - intros [[p Hp] Hx]. apply elem_of_map_to_list in Hp.
      apply list_elem_of_lookup in Hp as [i Hi].
      destruct (Forall2_lookup_l _ _ _ _ _ Hkvs Hi) as (kv & Hkv & Hf).
      simpl in Hf. rewrite Hx in Hf. simpl in Hf. injection Hf as <-.
      eapply list_elem_of_lookup_2, Hkv. }
  intros v x. rewrite <- Hel. split.
  - apply elem_of_list_to_map_2.
  - intros Hin. apply elem_of_list_to_map_1'; [| exact Hin].
    intros y Hy. apply Hel in Hin as [_ Hx]. apply Hel in Hy as [_ Hy]. congruence.
Qed.

Lemma get_dual_values_body_false solver name w m :
  data w !! name = Some m →
  get_dual_values_body solver name false w =
  match read_duals m with
  | Some d => Returned w d
  | None => Raised w
  end.
Proof.
  intros Hm. unfold get_dual_values_body. run_model.
  destruct (read_duals m); reflexivity.
Qed.

Lemma get_dual_values_body_true solver name w m :
  data w !! name = Some m →
  get_dual_values_body solver name true w =
  match solve solver name (set_relaxed true m) with
  | None => Raised (after_solve w solver name (set_relaxed true m))
  | Some r =>
      if bool_decide (status r = SolverStatus.ok)
         && _acceptable_termination_conditions (termination_condition r)
      then match read_duals (load_from r (set_relaxed true m)) with
           | Some d =>
               Returned (after_solve w solver name
                           (set_relaxed false (load_from r (set_relaxed true m)))) d
           | None =>
               Raised (after_solve w solver name (load_from r (set_relaxed true m)))
           end
      else Returned (after_solve w solver name
                       (set_relaxed false (set_relaxed true m))) ∅
  end.
Proof.
  intros Hm. unfold get_dual_values_body. run_model.
  erewrite bind_call_solve by lookup_model.
  destruct (solve solver name (set_relaxed true m)) as [r|]; [| reflexivity].
  destruct (bool_decide _ && _); run_model.
  - destruct (read_duals _) as [d|]; [| reflexivity].
    rewrite bind_of_option_Some. run_model. reflexivity.
  - reflexivity.
Qed.

Lemma get_dual_values_cached solver name w m b :
  data w !! name = Some m → discrete_stage2_vars m = Some b →
  get_dual_values solver name w = get_dual_values_body solver name b w.
Proof.
  intros Hm Hb. unfold get_dual_values. run_model. rewrite Hb. reflexivity.
Qed.

Lemma get_dual_values_first solver name w m :
  data w !! name = Some m → discrete_stage2_vars m = None →
  get_dual_values solver name w =
  match read_duals m with
  | Some d =>
      Returned (World (<[name := set_discrete_stage2_vars (Some false) m]> (data w))
                  (redirects w) (calls w)) d
  | None =>
      get_dual_values_body solver name true
        (World (<[name := set_discrete_stage2_vars (Some true) m]> (data w))
           (redirects w) (calls w))
  end.
Proof.
  intros Hm Hb. unfold get_dual_values. run_model. rewrite Hb.
  unfold try_except. run_model.
  erewrite get_dual_values_body_false by lookup_model.
  change (read_duals (set_discrete_stage2_vars (Some false) m)) with (read_duals m).
  destruct (read_duals m) as [d|]; [reflexivity |].
  run_model. reflexivity.
Qed.

(** What every run of [get_dual_values] on an existing model does to the
    state, whether it returns or raises. *)
Lemma get_dual_values_state solver name w m :
  data w !! name = Some m →
  ∃ m' extra,
    advances name w (state_of (get_dual_values solver name w)) m' extra ∧
    is_Some (discrete_stage2_vars m') ∧
    (∀ b, discrete_stage2_vars m = Some b → discrete_stage2_vars m' = Some b) ∧
    extra = (if discrete_stage2_vars m' is Some true
             then [(solver_name solver, name)] else []) ∧
    fixed_variable_values m' = fixed_variable_values m ∧
    original_obj_active m' = original_obj_active m ∧
    separation_obj_active m' = separation_obj_active m ∧
    sep_fixed m' = sep_fixed m.
Proof.
  intros Hm.
  assert (Htrue : ∀ w0 m0,
    data w0 !! name = Some m0 → discrete_stage2_vars m0 = Some true →
    ∃ m' extra,
      advances name w0 (state_of (get_dual_values_body solver name true w0)) m' extra ∧
      is_Some (discrete_stage2_vars m') ∧
      (∀ b, discrete_stage2_vars m0 = Some b → discrete_stage2_vars m' = Some b) ∧
      extra = (if discrete_stage2_vars m' is Some true
               then [(solver_name solver, name)] else []) ∧
      fixed_variable_values m' = fixed_variable_values m0 ∧
      original_obj_active m' = original_obj_active m0 ∧
      separation_obj_active m' = separation_obj_active m0 ∧
      sep_fixed m' = sep_fixed m0).
  { intros w0 m0 Hm0 Hb. rewrite (get_dual_values_body_true _ _ _ _ Hm0).
    assert (Hgo : ∀ (o : outcome (gmap string Q)) mx,
              state_of o = after_solve w0 solver name mx →
              discrete_stage2_vars mx = Some true →
              fixed_variable_values mx = fixed_variable_values m0 →
              original_obj_active mx = original_obj_active m0 →
              separation_obj_active mx = separation_obj_active m0 →
              sep_fixed mx = sep_fixed m0 →
              ∃ m' extra,
                advances name w0 (state_of o) m' extra ∧
                is_Some (discrete_stage2_vars m') ∧
                (∀ b, discrete_stage2_vars m0 = Some b →
                      discrete_stage2_vars m' = Some b) ∧
                extra = (if discrete_stage2_vars m' is Some true
                         then [(solver_name solver, name)] else []) ∧
                fixed_variable_values m' = fixed_variable_values m0 ∧
                original_obj_active m' = original_obj_active m0 ∧
                separation_obj_active m' = separation_obj_active m0 ∧
                sep_fixed m' = sep_fixed m0).
    { intros o mx -> Hmx Hf Ho Hs Hx. exists mx, [(solver_name solver, name)].
      split; [| rewrite Hmx; split; [eauto |]; split; [congruence |];
                repeat split; assumption].
      unfold advances, after_solve. simpl. repeat split. repeat constructor. }
    destruct (solve solver name (set_relaxed true m0)) as [r|].
    - destruct (bool_decide _ && _).
      + destruct (read_duals _); eapply Hgo; try reflexivity; exact Hb.
      + eapply Hgo; try reflexivity; exact Hb.
    - eapply Hgo; try reflexivity; exact Hb. }
  destruct (discrete_stage2_vars m) as [[|]|] eqn:Hb.
  - rewrite (get_dual_values_cached _ _ _ _ _ Hm Hb).
    destruct (Htrue w m Hm Hb) as (m' & extra & H). rewrite Hb in H. eauto.
  - rewrite (get_dual_values_cached _ _ _ _ _ Hm Hb),
      (get_dual_values_body_false _ _ _ _ Hm).
    exists m, []. rewrite Hb.
    assert (Hadv : advances name w w m []).
    { unfold advances. rewrite app_nil_r, insert_id by exact Hm.
      repeat split. constructor. }
    destruct (read_duals m); simpl; (split; [exact Hadv |]);
      (split; [eauto |]); repeat split; auto.
  - rewrite (get_dual_values_first _ _ _ _ Hm Hb).
    destruct (read_duals m) as [d|].
    + exists (set_discrete_stage2_vars (Some false) m), []. simpl.
      split; [| split; [eauto |]; repeat split; intros; discriminate].
      unfold advances. simpl. rewrite app_nil_r. repeat split. constructor.
    + edestruct (Htrue (World (<[name := set_discrete_stage2_vars (Some true) m]>
                                 (data w)) (redirects w) (calls w)))
        as (m' & extra & Hadv & Hsome & Hkeep & Hextra & Hf & Ho & Hs & Hx);
        [apply lookup_insert_eq | reflexivity |].
      exists m', extra. split.
      { destruct Hadv as (Hd & Hr & Hc & Hall). simpl in Hd, Hr, Hc.
        rewrite insert_insert_eq in Hd. repeat split; assumption. }
      split; [exact Hsome |]. split; [intros; discriminate |].
      split; [exact Hextra |]. repeat split; assumption.
Qed.

(** X15. [get_dual_values] remembers per model whether the duals need a
    relaxed re-solve: once it has run (returning or raising) the entry of the
    model is set, an entry that was set is never changed, and the solver is
    called exactly once when the entry says discrete and not at all
    otherwise.  No other model is written. *)
Theorem get_dual_values_memo solver name w m :
  data w !! name = Some m →
  ∃ m',
    data (state_of (get_dual_values solver name w)) = <[name := m']> (data w) ∧
    is_Some (discrete_stage2_vars m') ∧
    (∀ b, discrete_stage2_vars m = Some b → discrete_stage2_vars m' = Some b) ∧
    calls (state_of (get_dual_values solver name w))
      = calls w ++ (if discrete_stage2_vars m' is Some true
                    then [(solver_name solver, name)] else []).
Proof.
  intros Hm.
  destruct (get_dual_values_state solver name w m Hm)
    as (m' & extra & (Hd & _ & Hc & _) & Hsome & Hkeep & Hextra & _).
  exists m'. rewrite <- Hextra. repeat split; assumption.
Qed.

Lemma get_dual_values_memo_witness :
  let cplex := Solver "cplex" (λ _ _,
    Some (Results SolverStatus.ok TerminationCondition.optimal ∅ 0 {["x" := 3]})) in
  let m := new_modified_instance {["x"]} 0 in
  let w := World {["A" := m]} 0 [] in
  ∃ m',
    data (state_of (get_dual_values cplex "A" w)) = <["A" := m']> (data w) ∧
    is_Some (discrete_stage2_vars m') ∧
    calls (state_of (get_dual_values cplex "A" w))
      = calls w ++ (if discrete_stage2_vars m' is Some true
                    then [(solver_name cplex, "A")] else []).
Proof.
  intros cplex m w.
  destruct (get_dual_values_memo cplex "A" w m) as (m' & Hd & Hsome & _ & Hc).
  - reflexivity.
  - exists m'. repeat split; assumption.
Defined.

(** What a run of [get_dual_values] that returns leaves in the model. *)
Lemma get_dual_values_result solver name w m w' duals :
  data w !! name = Some m →
  get_dual_values solver name w = Returned w' duals →
  ∃ m',
    data w' !! name = Some m' ∧
    fixed_variable_values m' = fixed_variable_values m ∧
    (relaxed m = false → relaxed m' = false) ∧
    (∀ v x, duals !! v = Some x →
            is_Some (fixed_variable_values m !! v) ∧ dual m' !! v = Some x) ∧
    (duals = ∅ ∨
     ∀ v, is_Some (fixed_variable_values m !! v) → is_Some (duals !! v)).
Proof.
  intros Hm.
  assert (Hcover : ∀ mx d, read_duals mx = Some d →
            ∀ v, is_Some (fixed_variable_values mx !! v) → is_Some (d !! v)).
  { intros mx d Hd v Hv. pose proof Hd as Hd'. unfold read_duals in Hd'.
    apply bind_Some in Hd' as (kvs & Hkvs & _).
    assert (Hx : is_Some (dual mx !! v)).
    { destruct Hv as [p Hp]. apply elem_of_map_to_list in Hp.
      apply list_elem_of_lookup in Hp as [i Hi]. apply mapM_Some in Hkvs.
      destruct (Forall2_lookup_l _ _ _ _ _ Hkvs Hi) as (kv & _ & Hf).
      simpl in Hf. destruct (dual mx !! v); [eauto | discriminate]. }
    destruct Hx as [x Hx]. exists x.
    apply (read_duals_spec mx d Hd). split; assumption. }
  assert (Hfalse : ∀ w0 m0 d, data w0 !! name = Some m0 → read_duals m0 = Some d →
            fixed_variable_values m0 = fixed_variable_values m →
            (relaxed m = false → relaxed m0 = false) →
            ∃ m', data w0 !! name = Some m' ∧
              fixed_variable_values m' = fixed_variable_values m ∧
              (relaxed m = false → relaxed m' = false) ∧
              (∀ v x, d !! v = Some x →
                 is_Some (fixed_variable_values m !! v) ∧ dual m' !! v = Some x) ∧
              (d = ∅ ∨ ∀ v, is_Some (fixed_variable_values m !! v) → is_Some (d !! v))).
  { intros w0 m0 d Hm0 Hd Hf Hr. exists m0. split; [exact Hm0 |].
    split; [exact Hf |]. split; [exact Hr |]. split.
    - intros v x Hx. apply (read_duals_spec _ _ Hd) in Hx. rewrite <- Hf. exact Hx.
    - right. rewrite <- Hf. apply Hcover, Hd. }
  assert (Htrue : ∀ w0 m0, data w0 !! name = Some m0 →
            fixed_variable_values m0 = fixed_variable_values m →
            get_dual_values_body solver name true w0 = Returned w' duals →
            ∃ m', data w' !! name = Some m' ∧
              fixed_variable_values m' = fixed_variable_values m ∧
              (relaxed m = false → relaxed m' = false) ∧
              (∀ v x, duals !! v = Some x →
                 is_Some (fixed_variable_values m !! v) ∧ dual m' !! v = Some x) ∧
              (duals = ∅ ∨
               ∀ v, is_Some (fixed_variable_values m !! v) → is_Some (duals !! v))).
  { intros w0 m0 Hm0 Hf. rewrite (get_dual_values_body_true _ _ _ _ Hm0).
    destruct (solve solver name (set_relaxed true m0)) as [r|]; [| discriminate].
    destruct (bool_decide _ && _).
    - destruct (read_duals _) as [d|] eqn:Hd; [| discriminate].
      intros [= <- <-].
      eapply (Hfalse _ (set_relaxed false (load_from r (set_relaxed true m0))) d).
      + apply lookup_insert_eq.
      + exact Hd.
      + exact Hf.
      + reflexivity.
    - intros [= <- <-]. eexists. split; [apply lookup_insert_eq |].
      split; [exact Hf |]. split; [reflexivity |]. split; [| left; reflexivity].
      intros v x Hx. rewrite lookup_empty in Hx. discriminate. }
  destruct (discrete_stage2_vars m) as [[|]|] eqn:Hb.
  - rewrite (get_dual_values_cached _ _ _ _ _ Hm Hb). apply (Htrue w m Hm eq_refl).
  - rewrite (get_dual_values_cached _ _ _ _ _ Hm Hb),
      (get_dual_values_body_false _ _ _ _ Hm).
    destruct (read_duals m) as [d|] eqn:Hd; [| discriminate].
    intros [= <- <-]. apply (Hfalse w m d Hm Hd eq_refl). auto.
  - rewrite (get_dual_values_first _ _ _ _ Hm Hb).
    destruct (read_duals m) as [d|] eqn:Hd.
    + intros [= <- <-].
      apply (Hfalse _ (set_discrete_stage2_vars (Some false) m) d);
        [apply lookup_insert_eq | exact Hd | reflexivity | auto].
    + apply (Htrue _ (set_discrete_stage2_vars (Some true) m));
        [apply lookup_insert_eq | reflexivity].
Qed.

(** X16. The duals that [get_dual_values] returns are multipliers that the
    solution loaded in the model holds for the fixing constraints; they cover
    every first-stage variable, unless the relaxed re-solve failed, in which
    case the dictionary is empty.  A model that was not relaxed is not
    relaxed afterwards, and the fixed values are as they were. *)
Theorem get_dual_values_returns solver name w m w' duals :
  data w !! name = Some m →
  get_dual_values solver name w = Returned w' duals →
  ∃ m',
    data w' !! name = Some m' ∧
    fixed_variable_values m' = fixed_variable_values m ∧
    (relaxed m = false → relaxed m' = false) ∧
    (∀ v x, duals !! v = Some x →
            is_Some (fixed_variable_values m !! v) ∧ dual m' !! v = Some x) ∧
    (duals = ∅ ∨
     ∀ v, is_Some (fixed_variable_values m !! v) → is_Some (duals !! v)).
Proof. apply get_dual_values_result. Qed.

Lemma get_dual_values_returns_witness :
  let cplex := Solver "cplex" (λ _ _,
    Some (Results SolverStatus.ok TerminationCondition.optimal ∅ 0 {["x" := 3]})) in
  let m := new_modified_instance {["x"]} 0 in
  let w := World {["A" := m]} 0 [] in
  let w' := state_of (get_dual_values cplex "A" w) in
  let duals : gmap string Q := {["x" := 3]} in
  get_dual_values cplex "A" w = Returned w' duals ∧
  ∃ m', data w' !! "A" = Some m' ∧ (relaxed m = false → relaxed m' = false).
Proof.
  intros cplex m w w' duals.
  assert (H : get_dual_values cplex "A" w = Returned w' duals)
    by (vm_compute; reflexivity).
  split; [exact H |].
  destruct (get_dual_values_returns cplex "A" w m w' duals) as (m' & Hm' & _ & Hr & _).
  - reflexivity.
  - exact H.
  - exists m'. split; assumption.
Defined.

(** X17. When the solver raises during the relaxed re-solve of
    [get_dual_values], the exception propagates and the relaxation of the
    discrete domains is not undone: the model stays relaxed. *)
Theorem get_dual_values_solver_raises solver name w m :
  data w !! name = Some m →
  (discrete_stage2_vars m = Some true ∨
   (discrete_stage2_vars m = None ∧ read_duals m = None)) →
  (∀ m0, relaxed m0 = true → solve solver name m0 = None) →
  ∃ w' m',
    get_dual_values solver name w = Raised w' ∧
    data w' !! name = Some m' ∧ relaxed m' = true ∧
    discrete_stage2_vars m' = Some true.
Proof.
  intros Hm Hcase Hraise.
  destruct Hcase as [Hb | [Hb Hd]].
  - rewrite (get_dual_values_cached _ _ _ _ _ Hm Hb),
      (get_dual_values_body_true _ _ _ _ Hm), Hraise by reflexivity.
    eexists _, _. split; [reflexivity |]. split; [apply lookup_insert_eq |].
    split; [reflexivity | exact Hb].
  - rewrite (get_dual_values_first _ _ _ _ Hm Hb), Hd.
    erewrite get_dual_values_body_true by apply lookup_insert_eq.
    rewrite Hraise by reflexivity.
    eexists _, _. split; [reflexivity |]. split; [apply lookup_insert_eq |].
    split; reflexivity.
Qed.

Lemma get_dual_values_solver_raises_witness :
  let cplex := Solver "cplex" (λ _ m0, if relaxed m0 then None else
    Some (Results SolverStatus.ok TerminationCondition.optimal ∅ 0 ∅)) in
  let m := new_modified_instance {["x"]} 0 in
  let w := World {["A" := m]} 0 [] in
  ∃ w' m',
    get_dual_values cplex "A" w = Raised w' ∧
    data w' !! "A" = Some m' ∧ relaxed m' = true.
Proof.
  intros cplex m w.
  destruct (get_dual_values_solver_raises cplex "A" w m) as (w' & m' & H & Hm' & Hr & _).
  - reflexivity.
  - right. split; vm_compute; reflexivity.
  - intros m0 Hm0. simpl. rewrite Hm0. reflexivity.
  - exists w', m'. repeat split; assumption.
Defined.


(** ** The evaluation loop *)

Lemma advances_refl name w m : data w !! name = Some m → advances name w w m [].
Proof.
  intros Hm. unfold advances. rewrite app_nil_r, insert_id by exact Hm.
  repeat split. constructor.
Qed.

Lemma advances_trans name w w1 w2 m1 m2 e1 e2 :
  advances name w w1 m1 e1 → advances name w1 w2 m2 e2 →
  advances name w w2 m2 (e1 ++ e2).
Proof.
  intros (Hd1 & Hr1 & Hc1 & Ha1) (Hd2 & Hr2 & Hc2 & Ha2). unfold advances.
  rewrite Hd2, Hd1, insert_insert_eq, Hr2, Hr1, Hc2, Hc1, app_assoc.
  repeat split. apply Forall_app. split; assumption.
Qed.

Lemma advances_lookup name w w' m' extra :
  advances name w w' m' extra → data w' !! name = Some m'.
Proof. intros (Hd & _). rewrite Hd. apply lookup_insert_eq. Qed.

Lemma union_same_dom (a b : gmap string Q) :
  size a = size b → dom a ⊆ dom b → dom a = dom b ∧ a ∪ b = a.
Proof.
  intros Hsize Hdom.
  assert (Heq : dom a = dom b).
  { apply set_subseteq_size_eq; [exact Hdom |]. rewrite !size_dom. lia. }
  split; [exact Heq |]. apply map_eq. intros i.
  destruct (a !! i) as [x|] eqn:Ea.
  - apply lookup_union_Some_l, Ea.
  - apply lookup_union_None. split; [exact Ea |].
    apply not_elem_of_dom. rewrite <- Heq. apply not_elem_of_dom, Ea.
Qed.

Lemma set_fixed_values_returns name var_values w m w1 a :
  data w !! name = Some m →
  set_fixed_values name var_values w = Returned w1 a →
  dom var_values = dom (fixed_variable_values m) ∧
  w1 = World (<[name := set_fixed_variable_values var_values m]> (data w))
         (redirects w) (calls w).
Proof.
  intros Hm. unfold set_fixed_values. run_model.
  destruct (bool_decide (size var_values = size (fixed_variable_values m))) eqn:Es;
    [| discriminate].
  destruct (bool_decide (dom var_values ⊆ dom (fixed_variable_values m))) eqn:Ed;
    [| discriminate].
  apply bool_decide_eq_true in Es, Ed.
  destruct (union_same_dom _ _ Es Ed) as [Hdom Hun].
  unfold modify_model. rewrite (alter_Some _ _ _ _ Hm), Hun.
  intros [= <- _]. split; [exact Hdom | reflexivity].
Qed.

Lemma restore_separation_evaluation_state m : evaluation_state (restore_separation m).
Proof. repeat split. Qed.

Lemma solve_separation_problem_returns sqrt solver name fallback w m w' ans :
  data w !! name = Some m →
  solve_separation_problem sqrt solver name fallback w = Returned w' ans →
  ∃ m', advances name w w' m' [(solver_name solver, name)] ∧
        evaluation_state m' ∧
        fixed_variable_values m' = fixed_variable_values m.
Proof.
  intros Hm.
  assert (Hgo : ∀ mx, fixed_variable_values mx = fixed_variable_values m →
            ∃ m', advances name w (after_solve w solver name (restore_separation mx))
                    m' [(solver_name solver, name)] ∧
                  evaluation_state m' ∧
                  fixed_variable_values m' = fixed_variable_values m).
  { intros mx Hf. exists (restore_separation mx).
    split; [| split; [apply restore_separation_evaluation_state | exact Hf]].
    unfold advances, after_solve. simpl. repeat split. repeat constructor. }
  destruct (solve solver name (prepare_separation m)) as [r|] eqn:Hs.
  - destruct (bool_decide (status r = SolverStatus.ok)
              && _acceptable_termination_conditions (termination_condition r)) eqn:Hok.
    + rewrite (solve_separation_problem_succeeds _ _ _ _ _ _ _ Hm Hs Hok). cbv zeta.
      destruct (separation_cut _); [| discriminate].
      destruct (separation_obj_value _); [| discriminate].
      intros [= <- _]. apply Hgo. reflexivity.
    + rewrite (solve_separation_problem_fails _ _ _ _ _ _ _ Hm Hs Hok).
      intros [= <- _]. apply Hgo. reflexivity.
  - rewrite (solve_separation_problem_raises _ _ _ _ _ _ Hm Hs). discriminate.
Qed.

(** One pass of the evaluation loop that returns. *)
Lemma evaluate_solution_returns sqrt ph_solver ipopt name locals
    objs duals cuts var_values names w m w' acc' :
  data w !! name = Some m →
  evaluate_solution sqrt ph_solver ipopt name locals (objs, duals, cuts)
    (var_values, names) w = Returned w' acc' →
  dom var_values = dom (fixed_variable_values m) ∧
  ∃ r m' extra,
    solve ph_solver name (set_fixed_variable_values var_values m) = Some r ∧
    advances name w w' m' ((solver_name ph_solver, name) :: extra) ∧
    (length extra <= 2)%nat ∧
    fixed_variable_values m' = var_values ∧
    (evaluation_state m → evaluation_state m') ∧
    if bool_decide (status r = SolverStatus.ok)
       && _acceptable_termination_conditions (termination_condition r)
    then ∃ d, acc' = (objs ++ [Some (sol_original_obj r)], duals ++ [Some d],
                      cuts ++ [CutString ".  "]) ∧
              ∀ v x, d !! v = Some x → is_Some (var_values !! v)
    else ∃ cut, acc' = (objs ++ [None], duals ++ [None], cuts ++ [cut]) ∧
                separation_answer cut.
Proof.
  intros Hm. unfold evaluate_solution. unfold mbind. cbv zeta.
  assert (Hpass : ∀ (b : bool) (k : unit → M evaluation) w0,
            M_bind unit _ k (if b then mret () else mret ()) w0 = k tt w0)
    by (intros [] ? ?; reflexivity).
  rewrite Hpass. intros H.
  apply bind_Returned_inv in H as (w1 & [] & Hset & H).
  apply (set_fixed_values_returns _ _ _ _ _ _ Hm) in Hset as [Hdom ->].
  split; [exact Hdom |].
  set (m0 := set_fixed_variable_values var_values m) in *.
  revert H. run_model.
  destruct (solve ph_solver name m0) as [r|] eqn:Hs; [| discriminate].
  set (w2 := World (<[name := m0]> (data w)) (redirects w)
               (calls w ++ [(solver_name ph_solver, name)])).
  assert (Hadv2 : advances name w w2 m0 [(solver_name ph_solver, name)]).
  { unfold advances, w2. simpl. repeat split. repeat constructor. }
  destruct (bool_decide (status r = SolverStatus.ok)
            && _acceptable_termination_conditions (termination_condition r)) eqn:Hok.
  - run_model. intros H.
    apply bind_Returned_inv in H as (w3 & d & Hdual & H). injection H as <- <-.
    match type of Hdual with
    | get_dual_values _ _ ?wx = _ => set (w2' := wx) in *
    end.
    assert (Hadv2' : advances name w w2' (load_from r m0)
                       [(solver_name ph_solver, name)]).
    { unfold advances, w2', w2. simpl. rewrite ?insert_insert_eq.
      repeat split. repeat constructor. }
    assert (Hm2 : data w2' !! name = Some (load_from r m0)) by apply lookup_insert_eq.
    destruct (get_dual_values_state ph_solver name w2' _ Hm2)
      as (m' & extra & Hadv & _ & _ & Hextra & Hf & Ho & Hsa & Hx).
    rewrite Hdual in Hadv. simpl in Hadv.
    destruct (get_dual_values_result _ _ _ _ _ _ Hm2 Hdual)
      as (m'' & Hm'' & _ & Hr & Hd & _).
    rewrite (advances_lookup _ _ _ _ _ Hadv) in Hm''. injection Hm'' as <-.
    exists r, m', extra. rewrite Hok. split; [reflexivity |].
    split; [apply (advances_trans _ _ _ _ _ _ _ _ Hadv2' Hadv) |].
    split; [rewrite Hextra; destruct (discrete_stage2_vars m') as [[|]|]; simpl; lia |].
    split; [exact Hf |]. split.
    + intros (H1 & H2 & H3 & H4). unfold evaluation_state.
      rewrite Ho, Hsa, Hx. repeat split; try assumption. apply Hr. exact H1.
    + exists d. split; [reflexivity |]. intros v x Hv. apply Hd in Hv as [Hv _].
      exact Hv.
  - intros H.
    apply bind_Returned_inv in H as (w3 & cut & Hcut & H).
    apply bind_Returned_inv in H as (w4 & cut' & Hcut' & H). injection H as <- <-.
    assert (Hm2 : data w2 !! name = Some m0) by apply lookup_insert_eq.
    pose proof (solve_separation_problem_answer _ _ _ _ _ _ _ Hcut) as Hans.
    apply (solve_separation_problem_returns _ _ _ _ _ _ _ _ Hm2) in Hcut
      as (m3 & Hadv3 & Hst3 & Hf3).
    pose proof (advances_trans _ _ _ _ _ _ _ _ Hadv2 Hadv3) as Hadv.
    destruct (cut_eq_str cut "????").
    + pose proof (solve_separation_problem_answer _ _ _ _ _ _ _ Hcut') as Hans'.
      apply (solve_separation_problem_returns _ _ _ _ _ _ _ _
               (advances_lookup _ _ _ _ _ Hadv3)) in Hcut'
        as (m4 & Hadv4 & Hst4 & Hf4).
      exists r, m4, [(solver_name ph_solver, name); (solver_name ipopt, name)].
      rewrite Hok. split; [reflexivity |].
      split; [apply (advances_trans _ _ _ _ _ _ _ _ Hadv Hadv4) |].
      split; [simpl; lia |]. split; [rewrite Hf4, Hf3; reflexivity |].
      split; [intros _; exact Hst4 |]. exists cut'. split; [reflexivity | exact Hans'].
    + injection Hcut' as <- <-.
      exists r, m3, [(solver_name ph_solver, name)]. rewrite Hok.
      split; [reflexivity |].
      split; [exact Hadv |]. split; [simpl; lia |].
      split; [rewrite Hf3; reflexivity |].
      split; [intros _; exact Hst3 |]. exists cut. split; [reflexivity | exact Hans].
Qed.

(** X18. A pass of the evaluation loop that returns has asked the solver about
    the model with the fixed values set to exactly the candidate's values
    (the candidate assigns the model's first-stage variables, no more and no
    fewer), and leaves the model fixed at those values.  When the solver
    ended acceptably, the objective recorded is the value it reported for
    the original objective, with duals of first-stage variables only and
    the string [".  "]; otherwise no objective and no duals are recorded,
    and the cut entry is the answer of the separation problem. *)
Theorem evaluate_solution_at_candidate sqrt ph_solver ipopt name locals
    objs duals cuts var_values names w m w' acc' :
  data w !! name = Some m →
  evaluate_solution sqrt ph_solver ipopt name locals (objs, duals, cuts)
    (var_values, names) w = Returned w' acc' →
  dom var_values = dom (fixed_variable_values m) ∧
  ∃ r m',
    solve ph_solver name (set_fixed_variable_values var_values m) = Some r ∧
    data w' !! name = Some m' ∧ fixed_variable_values m' = var_values ∧
    if bool_decide (status r = SolverStatus.ok)
       && _acceptable_termination_conditions (termination_condition r)
    then ∃ d, acc' = (objs ++ [Some (sol_original_obj r)], duals ++ [Some d],
                      cuts ++ [CutString ".  "]) ∧
              ∀ v x, d !! v = Some x → is_Some (var_values !! v)
    else ∃ cut, acc' = (objs ++ [None], duals ++ [None], cuts ++ [cut]) ∧
                separation_answer cut.
Proof.
  intros Hm H.
  destruct (evaluate_solution_returns _ _ _ _ _ _ _ _ _ _ _ _ _ _ Hm H)
    as (Hdom & r & m' & extra & Hs & Hadv & _ & Hf & _ & Hres).
  split; [exact Hdom |]. exists r, m'. split; [exact Hs |].
  split; [exact (advances_lookup _ _ _ _ _ Hadv) |]. split; [exact Hf | exact Hres].
Qed.

Lemma evaluate_solution_at_candidate_witness :
  let cplex := Solver "cplex" (λ _ m0,
    Some (Results SolverStatus.ok TerminationCondition.optimal ∅
            (default 0 (fixed_variable_values m0 !! "x") + 10) {["x" := 3]})) in
  let m := new_modified_instance {["x"]} 0 in
  let w := World {["A" := m]} 0 [] in
  let o := evaluate_solution rational_sqrt cplex cplex "A" ["A"] ([], [], [])
             ({["x" := 5]}, ["B"]) w in
  let acc' := match o with Returned _ a => a | Raised _ => ([], [], []) end in
  o = Returned (state_of o) acc' ∧
  ∃ r m',
    solve cplex "A" (set_fixed_variable_values {["x" := 5]} m) = Some r ∧
    data (state_of o) !! "A" = Some m' ∧
    fixed_variable_values m' = {["x" := 5]}.
Proof.
  intros cplex m w o acc'.
  assert (H : o = Returned (state_of o) acc') by (vm_compute; reflexivity).
  split; [exact H |].
  destruct (evaluate_solution_at_candidate rational_sqrt cplex cplex "A" ["A"]
              [] [] [] {["x" := 5]} ["B"] w m (state_of o) acc')
    as (_ & r & m' & Hs & Hm' & Hf & _).
  - reflexivity.
  - exact H.
  - exists r, m'. repeat split; assumption.
Defined.

(** X19. A candidate with a different number of values than the model has
    first-stage variables fails the assertion of the evaluation loop: the
    pass raises before any solver is called and before anything is
    written. *)
Theorem evaluate_solution_size_mismatch sqrt ph_solver ipopt name locals acc
    var_values names w m :
  data w !! name = Some m →
  size var_values ≠ size (fixed_variable_values m) →
  evaluate_solution sqrt ph_solver ipopt name locals acc (var_values, names) w
    = Raised w.
Proof.
  intros Hm Hsize. destruct acc as [[objs duals] cuts].
  unfold evaluate_solution. unfold mbind. cbv zeta.
  assert (Hpass : ∀ (b : bool) (k : unit → M evaluation) w0,
            M_bind unit _ k (if b then mret () else mret ()) w0 = k tt w0)
    by (intros [] ? ?; reflexivity).
  rewrite Hpass. unfold set_fixed_values. run_model.
  rewrite (bool_decide_eq_false_2 _ Hsize). reflexivity.
Qed.

Lemma evaluate_solution_size_mismatch_witness :
  let cplex := Solver "cplex" (λ _ _,
    Some (Results SolverStatus.ok TerminationCondition.optimal ∅ 0 ∅)) in
  let w := World {["A" := new_modified_instance {["x"]} 0]} 0 [] in
  evaluate_solution rational_sqrt cplex cplex "A" ["A"] ([], [], [])
    ((<["y" := 1]> {["x" := 5]}), ["B"]) w = Raised w.
Proof.
  intros cplex w.
  apply (evaluate_solution_size_mismatch rational_sqrt cplex cplex "A" ["A"]
           ([], [], []) (<["y" := 1]> {["x" := 5]}) ["B"] w
           (new_modified_instance {["x"]} 0)).
  - reflexivity.
  - vm_compute. discriminate.
Defined.

Lemma evaluate_solutions_returns sqrt ph_solver ipopt name locals sols :
  ∀ acc w m w' acc',
    data w !! name = Some m → evaluation_state m →
    evaluate_solutions sqrt ph_solver ipopt name locals acc sols w
      = Returned w' acc' →
    ∃ m' extra,
      advances name w w' m' extra ∧ evaluation_state m' ∧
      (length sols <= length extra)%nat ∧
      (length extra <= 3 * length sols)%nat ∧
      fixed_variable_values m'
        = default (fixed_variable_values m) (fst <$> last sols).
Proof.
  induction sols as [|sol sols IH]; intros acc w m w' acc' Hm Hst H.
  - injection H as <- <-. exists m, []. split; [apply advances_refl, Hm |].
    split; [exact Hst |]. simpl. repeat split; lia.
  - simpl in H. unfold mbind in H.
    apply bind_Returned_inv in H as (w1 & acc1 & H1 & H).
    destruct acc as [[objs duals] cuts], sol as [var_values names].
    destruct (evaluate_solution_returns _ _ _ _ _ _ _ _ _ _ _ _ _ _ Hm H1)
      as (_ & r & m1 & extra1 & _ & Hadv1 & Hlen1 & Hf1 & Hst1 & _).
    destruct (IH _ _ _ _ _ (advances_lookup _ _ _ _ _ Hadv1) (Hst1 Hst) H)
      as (m' & extra & Hadv & Hst' & Hlo & Hhi & Hf).
    exists m', (((solver_name ph_solver, name) :: extra1) ++ extra).
    split; [apply (advances_trans _ _ _ _ _ _ _ _ Hadv1 Hadv) |].
    split; [exact Hst' |]. rewrite length_app. simpl.
    split; [lia |]. split; [lia |].
    rewrite Hf. destruct sols as [|sol' sols']; [exact Hf1 |].
    change (last ((var_values, names) :: sol' :: sols')) with (last (sol' :: sols')).
    destruct (last (sol' :: sols')) eqn:El; [reflexivity |].
    apply last_None in El. discriminate.
Qed.

(** X20. When [solve_fixed_scenario_solutions] returns for a subproblem whose
    model is new or in the evaluation configuration, the model is in the
    evaluation configuration again (not relaxed, original objective active,
    separation objective inactive, separation variables fixed) and is left
    fixed at the values of the last candidate; no other model was written,
    the output redirection is as deep as before, and every candidate cost at
    least one and at most three solver calls, all on this model. *)
Theorem solve_fixed_scenario_solutions_restores sqrt ph_solver ipopt var_ids
    problem sols eps w w' res :
  (∀ m, data w !! problem_name problem = Some m → evaluation_state m) →
  solve_fixed_scenario_solutions sqrt ph_solver ipopt var_ids problem sols eps w
    = Returned w' res →
  ∃ m' extra,
    data w' = <[problem_name problem := m']> (data w) ∧
    redirects w' = redirects w ∧
    calls w' = calls w ++ extra ∧
    Forall (λ c, c.2 = problem_name problem) extra ∧
    (length sols <= length extra)%nat ∧ (length extra <= 3 * length sols)%nat ∧
    evaluation_state m' ∧
    ∀ sol, last sols = Some sol → fixed_variable_values m' = sol.1.
Proof.
  intros Hst. unfold solve_fixed_scenario_solutions, mbind.
  set (name := problem_name problem) in *. intros H.
  apply bind_Returned_inv in H as (w1 & [] & Hget & H).
  unfold get_modified_instance in Hget.
  destruct (data w !! name) as [m|] eqn:Hm.
  - injection Hget as <-.
    destruct (evaluate_solutions_returns _ _ _ _ _ _ _ _ _ _ _ Hm (Hst m eq_refl) H)
      as (m' & extra & (Hd & Hr & Hc & Hall) & Hst' & Hlo & Hhi & Hf).
    exists m', extra.
    split; [exact Hd |]. split; [exact Hr |]. split; [exact Hc |].
    split; [exact Hall |]. split; [exact Hlo |]. split; [exact Hhi |].
    split; [exact Hst' |].
    intros sol Hlast. rewrite Hf, Hlast. reflexivity.
  - injection Hget as <-.
    set (m0 := new_modified_instance var_ids eps) in *.
    assert (Hst0 : evaluation_state m0) by (repeat split).
    edestruct (evaluate_solutions_returns sqrt ph_solver ipopt name
                 (local_scenarios problem) sols) as
      (m' & extra & (Hd & Hr & Hc & Hall) & Hst' & Hlo & Hhi & Hf);
      [| exact Hst0 | exact H |]; [apply lookup_insert_eq |].
    simpl in Hd, Hr, Hc. rewrite insert_insert_eq in Hd.
    exists m', extra.
    split; [exact Hd |]. split; [exact Hr |]. split; [exact Hc |].
    split; [exact Hall |]. split; [exact Hlo |]. split; [exact Hhi |].
    split; [exact Hst' |].
    intros sol Hlast. rewrite Hf, Hlast. reflexivity.
Qed.

Lemma solve_fixed_scenario_solutions_restores_witness :
  let cplex := Solver "cplex" (λ _ m0,
    if Qeq_bool (default 0 (fixed_variable_values m0 !! "x")) 1
    then Some (Results SolverStatus.ok TerminationCondition.optimal ∅ 7 {["x" := 3]})
    else if separation_obj_active m0
         then Some (Results SolverStatus.ok TerminationCondition.optimal
                      {["x" := 1]} 0 ∅)
         else Some (Results SolverStatus.warning TerminationCondition.infeasible
                      ∅ 0 ∅)) in
  let problem := OfScenario (Scenario "A" {["x" := 1]} (1 # 2) 0) in
  let sols : list solution := [({["x" := 1]}, ["A"]); ({["x" := 2]}, ["B"])] in
  let w := World ∅ 0 [] in
  let o := solve_fixed_scenario_solutions rational_sqrt cplex cplex {["x"]}
             problem sols 0 w in
  let res := match o with Returned _ a => a | Raised _ => ([], [], []) end in
  o = Returned (state_of o) res ∧
  ∃ m' extra,
    data (state_of o) = <["A" := m']> (data w) ∧
    calls (state_of o) = calls w ++ extra ∧
    (2 <= length extra)%nat ∧ (length extra <= 6)%nat ∧ evaluation_state m'.
Proof.
  intros cplex problem sols w o res.
  assert (H : o = Returned (state_of o) res) by (vm_compute; reflexivity).
  split; [exact H |].
  destruct (solve_fixed_scenario_solutions_restores rational_sqrt cplex cplex
              {["x"]} problem sols 0 w (state_of o) res)
    as (m' & extra & Hd & _ & Hc & _ & Hlo & Hhi & Hst & _).
  - intros m Hm. simpl in Hm. rewrite lookup_empty in Hm. discriminate.
  - exact H.
  - exists m', extra.
    split; [exact Hd |]. split; [exact Hc |]. split; [exact Hlo |].
    split; [exact Hhi | exact Hst].
Defined.


(** ** The cuts that [add_new_cuts] adds *)

Lemma foldl_Qplus {A} (g : A → Q) (l : list A) :
  ∀ acc, foldl (λ acc t, acc + g t) acc l == acc + Qsum (g <$> l).
Proof.
  induction l as [|t l IH]; intros acc.
  - unfold Qsum. simpl. ring.
  - cbn [foldl]. rewrite IH, fmap_cons, Qsum_cons. ring.
Qed.

Lemma Qsum_scale {A} (g h : A → Q) (c : Q) (l : list A) :
  (∀ t, t ∈ l → g t == c * h t) → Qsum (g <$> l) == c * Qsum (h <$> l).
Proof.
  induction l as [|t l IH]; intros Hall.
  - unfold Qsum. simpl. ring.
  - rewrite !fmap_cons, !Qsum_cons, IH, (Hall t) by (intros; apply Hall; right; assumption) || left.
    ring.
Qed.

Lemma Qsum_squares_nonneg {A} (h : A → Q) (l : list A) :
  0 <= Qsum ((λ t, h t * h t) <$> l).
Proof.
  induction l as [|t l IH].
  - unfold Qsum. simpl. apply Qle_refl.
  - rewrite fmap_cons, Qsum_cons.
    assert (Hsq : 0 <= h t * h t) by nra. lra.
Qed.

Lemma Qsum_squares_pos {A} (h : A → Q) (l : list A) :
  l ≠ [] → (∀ t, t ∈ l → ¬ h t == 0) → 0 < Qsum ((λ t, h t * h t) <$> l).
Proof.
  destruct l as [|t l]; [congruence |]. intros _ Hall.
  rewrite fmap_cons, Qsum_cons.
  pose proof (Qsum_squares_nonneg h l) as Hrest.
  assert (Hpos : 0 < h t * h t).
  { assert (Hne : ¬ h t == 0) by (apply Hall; left).
    destruct (Qlt_le_dec 0 (h t)) as [Hgt | Hle].
    - apply Qmult_lt_0_compat; exact Hgt.
    - assert (Hlt : h t < 0).
      { apply Qle_lteq in Hle as [Hlt | Heq]; [exact Hlt | contradiction]. }
      assert (Hneg : 0 < (- h t) * (- h t)) by (apply Qmult_lt_0_compat; lra).
      assert (Heq : (- h t) * (- h t) == h t * h t) by ring.
      rewrite <- Heq. exact Hneg. }
  lra.
Qed.

Lemma cut_terms_elem epsilon cut t :
  t ∈ cut_terms epsilon cut → cut !! t.1 = Some t.2 ∧ epsilon < Qabs t.2.1.
Proof.
  unfold cut_terms. intros Hin. apply list_elem_of_filter in Hin as [Hgt Hin].
  destruct t as [i x]. apply elem_of_map_to_list in Hin.
  split; [exact Hin | apply Qgtb_true_iff, Hgt].
Qed.

Lemma feasibility_expr_at_candidate e terms p :
  (∀ t, t ∈ terms → value_of p t.1 == t.2.2) →
  feasibility_expr e terms p
    == - (2 * (1 - e) * (1 - e))
       * Qsum ((λ t : string * (Q * Q), t.2.1 * t.2.1) <$> terms).
Proof.
  intros Hp. unfold feasibility_expr.
  rewrite (foldl_Qplus
             (λ t : string * (Q * Q),
                2 * (t.2.1 * (1 - e)) * (value_of p t.1 - (t.2.2 + t.2.1 * (1 - e))))).
  rewrite Qplus_0_l. apply Qsum_scale. intros t Ht. rewrite (Hp t Ht). ring.
Qed.

Lemma feasibility_expr_at_projection e terms p :
  (∀ t, t ∈ terms → value_of p t.1 == t.2.2 + t.2.1) →
  feasibility_expr e terms p
    == (2 * (1 - e) * e)
       * Qsum ((λ t : string * (Q * Q), t.2.1 * t.2.1) <$> terms).
Proof.
  intros Hp. unfold feasibility_expr.
  rewrite (foldl_Qplus
             (λ t : string * (Q * Q),
                2 * (t.2.1 * (1 - e)) * (value_of p t.1 - (t.2.2 + t.2.1 * (1 - e))))).
  rewrite Qplus_0_l. apply Qsum_scale. intros t Ht. rewrite (Hp t Ht). ring.
Qed.

(** X21. The feasibility cuts that [add_new_cuts] adds to a block separate:
    every constraint added comes from one of the cut tuples, is violated at
    the candidate for which the tuple was generated (every variable at its
    fixed value [_par]), and holds at the point that the separation problem
    found ([_par + _sep]).  A tuple adds at most one constraint, and none
    when no separation exceeds [epsilon]; nothing else of the block is
    changed. *)
Theorem add_feasibility_cuts_separate eps cuts m m' :
  0 <= eps → eps < 1 →
  add_feasibility_cuts eps eps cuts m = Some m' →
  local_stage1_varmap m' = local_stage1_varmap m ∧
  abs_int_vars m' = abs_int_vars m ∧ abs_binary_vars m' = abs_binary_vars m ∧
  ∃ new,
    cutlist m' = cutlist m ++ new ∧ (length new <= length cuts)%nat ∧
    ((∀ d cut, CutTuple d cut ∈ cuts → cut_terms eps cut = []) → new = []) ∧
    ∀ c, c ∈ new →
      ∃ d cut,
        CutTuple d cut ∈ cuts ∧
        (∀ p, (∀ i sep par, cut !! i = Some (sep, par) → value_of p i == par) →
              c p = false) ∧
        (∀ p, (∀ i sep par, cut !! i = Some (sep, par) →
                 value_of p i == par + sep) →
              c p = true).
Proof.
  intros Heps0 Heps1. revert m.
  induction cuts as [|[d cut|s] cuts IH]; intros m H; simpl in H.
  - injection H as <-. repeat split. exists []. rewrite app_nil_r.
    repeat split; [simpl; lia |]. intros c Hc. apply elem_of_nil in Hc as [].
  - destruct (bool_decide _) eqn:Ekeys; [| discriminate].
    destruct (cut_terms eps cut) as [|t0 terms0] eqn:Eterms.
    + destruct (IH _ H) as (Hv & Hi & Hb & new & Hnew & Hlen & Hnone & Hall).
      split; [exact Hv |]. split; [exact Hi |]. split; [exact Hb |].
      exists new. split; [exact Hnew |]. split; [simpl; lia |]. split.
      * intros Hno. apply Hnone. intros d' cut' Hin. apply (Hno d' cut'). right. exact Hin.
      * intros c Hc. destruct (Hall c Hc) as (d' & cut' & Hin & Hc1 & Hc2).
        exists d', cut'. split; [right; exact Hin |]. split; assumption.
    + destruct (IH _ H) as (Hv & Hi & Hb & new & Hnew & Hlen & Hnone & Hall).
      simpl in Hv, Hi, Hb, Hnew.
      split; [exact Hv |]. split; [exact Hi |]. split; [exact Hb |].
      set (c0 := λ p : point, Qle_bool 0 (feasibility_expr eps (t0 :: terms0) p)) in *.
      exists (c0 :: new). split; [rewrite Hnew, <- app_assoc; reflexivity |].
      split; [simpl; lia |]. split.
      * intros Hno. rewrite (Hno d cut) in Eterms by left. discriminate.
      * assert (Hsum : 0 < Qsum ((λ t : string * (Q * Q), t.2.1 * t.2.1)
                                  <$> (t0 :: terms0))).
        { apply (Qsum_squares_pos (λ t : string * (Q * Q), t.2.1)); [discriminate |].
          intros t Ht Hzero. rewrite <- Eterms in Ht.
          apply cut_terms_elem in Ht as [_ Hgt]. rewrite Hzero in Hgt.
          change (Qabs 0) with 0 in Hgt. lra. }
        assert (Hterm : ∀ t, t ∈ t0 :: terms0 → cut !! t.1 = Some (t.2.1, t.2.2)).
        { intros t Ht. rewrite <- Eterms in Ht. apply cut_terms_elem in Ht as [Ht _].
          rewrite Ht. destruct t as [i [sep par]]. reflexivity. }
        intros c Hc. apply elem_of_cons in Hc as [-> | Hc].
        -- exists d, cut. split; [left |]. split; intros p Hp; unfold c0.
           ++ apply not_true_iff_false. rewrite Qle_bool_iff.
              rewrite feasibility_expr_at_candidate
                by (intros t Ht; apply (Hp t.1 t.2.1 t.2.2), Hterm, Ht).
              assert (0 < (1 - eps) * (1 - eps)) by (apply Qmult_lt_0_compat; lra).
              nra.
           ++ apply Qle_bool_iff.
              rewrite feasibility_expr_at_projection
                by (intros t Ht; apply (Hp t.1 t.2.1 t.2.2), Hterm, Ht).
              assert (0 <= (1 - eps) * eps) by (apply Qmult_le_0_compat; lra).
              nra.
        -- destruct (Hall c Hc) as (d' & cut' & Hin & Hc1 & Hc2).
           exists d', cut'. split; [right; exact Hin |]. split; assumption.
  - discriminate.
Qed.

Lemma add_feasibility_cuts_separate_witness :
  let m := CutBlock {["x" := Some 1]} [] 0 0 in
  let cuts := [CutTuple 1 {["x" := (1, 0)]}] in
  let m' := default m (add_feasibility_cuts 0 0 cuts m) in
  add_feasibility_cuts 0 0 cuts m = Some m' ∧
  ∃ new, cutlist m' = cutlist m ++ new ∧ (length new <= 1)%nat.
Proof.
  intros m cuts m'.
  assert (H : add_feasibility_cuts 0 0 cuts m = Some m') by (vm_compute; reflexivity).
  split; [exact H |].
  destruct (add_feasibility_cuts_separate 0 cuts m m') as (_ & _ & _ & new & Hnew & Hlen & _).
  - lra.
  - lra.
  - exact H.
  - exists new. split; [exact Hnew | exact Hlen].
Defined.

Lemma int_value_nonneg p i : 0 <= int_value p i.
Proof.
  unfold int_value, Qle. simpl. pose proof (N2Z.is_nonneg (abs_int_value p i)). lia.
Qed.

Lemma binary_value_cases p i : binary_value p i == 0 ∨ binary_value p i == 1.
Proof. unfold binary_value. destruct (abs_binary_value p i); [right | left]; reflexivity. Qed.

Lemma Qsum_zero {A} (g : A → Q) (l : list A) :
  (∀ t, t ∈ l → g t == 0) → Qsum (g <$> l) == 0.
Proof.
  intros Hall. rewrite (Qsum_scale g (λ _, 0) 0).
  - ring.
  - intros t Ht. rewrite (Hall t Ht). ring.
Qed.

Lemma Qsum_01 {A} (g : A → Q) (l : list A) :
  (∀ t, t ∈ l → g t == 0 ∨ g t == 1) →
  0 <= Qsum (g <$> l) ∧ (1 <= Qsum (g <$> l) ↔ ∃ t, t ∈ l ∧ g t == 1).
Proof.
  induction l as [|t l IH]; intros Hall.
  - unfold Qsum. simpl. split; [lra |]. split; [lra |].
    intros (t & Ht & _). apply elem_of_nil in Ht as [].
  - rewrite fmap_cons, Qsum_cons.
    destruct IH as [Hnn Hiff]; [intros; apply Hall; right; assumption |].
    destruct (Hall t) as [H0 | H1]; [left | |].
    + split; [lra |]. rewrite H0, Qplus_0_l, Hiff. split.
      * intros (t' & Ht' & H'). exists t'. split; [right; exact Ht' | exact H'].
      * intros (t' & Ht' & H'). apply elem_of_cons in Ht' as [-> | Ht'].
        -- rewrite H0 in H'. lra.
        -- exists t'. split; assumption.
    + split; [lra |]. split; [| lra]. intros _. exists t. split; [left | exact H1].
Qed.

Lemma integer_terms_spec vals :
  ∀ m ib m' ib',
    integer_terms vals m ib = Some (m', ib') →
    local_stage1_varmap m' = local_stage1_varmap m ∧
    abs_int_vars m' = (abs_int_vars m + 2 * length vals)%nat ∧
    abs_binary_vars m' = (abs_binary_vars m + 2 * length vals)%nat ∧
    ∃ new zs,
      cutlist m' = cutlist m ++ new ∧ length new = (4 * length vals)%nat ∧
      ib' = ib ++ zs ∧ length zs = length vals ∧
      ∀ p, (∀ t, t ∈ vals → value_of p t.1 == t.2) →
           (∃ c, c ∈ new ∧ c p = false) ∨ (∀ z, z ∈ zs → binary_value p z == 0).
Proof.
  induction vals as [|[vid val] vals IH]; intros m ib m' ib' H.
  - injection H as <- <-. repeat split; [simpl; lia | simpl; lia |].
    exists [], []. rewrite !app_nil_r. repeat split.
    intros p _. right. intros z Hz. apply elem_of_nil in Hz as [].
  - simpl in H.
    destruct (local_stage1_varmap m !! vid) as [[ub|]|]; simpl in H; try discriminate.
    apply IH in H as (Hv & Hi & Hb & new & zs & Hnew & Hlen & Hib & Hzs & Hsem).
    simpl in Hv, Hi, Hb, Hnew.
    split; [exact Hv |]. split; [rewrite Hi; simpl; lia |].
    split; [rewrite Hb; simpl; lia |].
    set (b := S (abs_int_vars m)) in *. set (c := S (S (abs_int_vars m))) in *.
    set (z := S (abs_binary_vars m)) in *. set (y := S (S (abs_binary_vars m))) in *.
    set (c1 := λ p : point, Qle_bool (binary_value p z) (int_value p b + int_value p c)) in *.
    set (c2 := λ p : point, Qle_bool (int_value p b) (ub * binary_value p y)) in *.
    set (c3 := λ p : point, Qle_bool (int_value p c) (ub * (1 - binary_value p y))) in *.
    set (c4 := λ p : point, Qeq_bool (value_of p vid - val) (int_value p c - int_value p b)) in *.
    exists ([c1; c2; c3; c4] ++ new), (z :: zs).
    split; [rewrite Hnew, <- !app_assoc; reflexivity |].
    split; [simpl; lia |].
    split; [rewrite Hib, <- app_assoc; reflexivity |].
    split; [simpl; lia |].
    intros p Hp.
    destruct (Hsem p) as [(c0 & Hc0 & Hfalse) | Hzero];
      [intros t Ht; apply Hp; right; exact Ht | |].
    { left. exists c0. split; [apply elem_of_app; right; exact Hc0 | exact Hfalse]. }
    destruct (c1 p) eqn:E1;
      [| left; exists c1; split; [apply elem_of_app; left; left | exact E1]].
    destruct (c2 p) eqn:E2;
      [| left; exists c2; split;
           [apply elem_of_app; left; right; left | exact E2]].
    destruct (c3 p) eqn:E3;
      [| left; exists c3; split;
           [apply elem_of_app; left; right; right; left | exact E3]].
    destruct (c4 p) eqn:E4;
      [| left; exists c4; split;
           [apply elem_of_app; left; right; right; right; left | exact E4]].
    right. intros z' Hz'. apply elem_of_cons in Hz' as [-> | Hz']; [| apply Hzero, Hz'].
    unfold c1, c2, c3, c4 in *.
    apply Qle_bool_iff in E1, E2, E3. apply Qeq_bool_iff in E4.
    pose proof (Hp (vid, val) (list_elem_of_here _ _)) as Hx. simpl in Hx.
    pose proof (int_value_nonneg p b) as Hb0. pose proof (int_value_nonneg p c) as Hc0.
    destruct (binary_value_cases p z) as [Hz0 | Hz1]; [exact Hz0 |].
    exfalso. destruct (binary_value_cases p y) as [Hy | Hy]; rewrite Hy in E2, E3; lra.
Qed.

Lemma integer_terms_defined vals :
  ∀ m ib, is_Some (integer_terms vals m ib) ↔
          ∀ t, t ∈ vals → ∃ ub, local_stage1_varmap m !! t.1 = Some (Some ub).
Proof.
  induction vals as [|[vid val] vals IH]; intros m ib.
  - simpl. split; [| eauto]. intros _ t Ht. apply elem_of_nil in Ht as [].
  - simpl. destruct (local_stage1_varmap m !! vid) as [[ub|]|] eqn:E; simpl.
    + rewrite IH. simpl. split.
      * intros Hall t Ht. apply elem_of_cons in Ht as [-> | Ht]; [eauto | apply Hall, Ht].
      * intros Hall t Ht. apply Hall. right. exact Ht.
    + split; [intros [? ?]; discriminate |]. intros Hall.
      destruct (Hall (vid, val)) as [ub Hub]; [left |]. simpl in Hub. congruence.
    + split; [intros [? ?]; discriminate |]. intros Hall.
      destruct (Hall (vid, val)) as [ub Hub]; [left |]. simpl in Hub. congruence.
Qed.

(** X22. The optimality cuts that [add_new_cuts] adds to a block exclude
    their candidates: for each cut, four constraints per integer variable and
    one more are added (with two new integer and two new binary variables
    per integer variable), and at a point that gives the cut's binary and
    integer variables the candidate's values, one of the added constraints is
    violated, whatever values the auxiliary variables take. *)
Theorem add_optimality_cuts_exclude cuts :
  ∀ m m',
    add_optimality_cuts cuts m = Some m' →
    local_stage1_varmap m' = local_stage1_varmap m ∧
    abs_int_vars m'
      = (abs_int_vars m + 2 * sum_list ((λ cut, size cut.2) <$> cuts))%nat ∧
    abs_binary_vars m'
      = (abs_binary_vars m + 2 * sum_list ((λ cut, size cut.2) <$> cuts))%nat ∧
    ∃ new,
      cutlist m' = cutlist m ++ new ∧
      length new
        = (4 * sum_list ((λ cut, size cut.2) <$> cuts) + length cuts)%nat ∧
      ∀ cut p,
        cut ∈ cuts →
        (∀ v val, cut.1 !! v = Some val →
                  (val == 0 ∨ val == 1) ∧ value_of p v == val) →
        (∀ v val, cut.2 !! v = Some val → value_of p v == val) →
        ∃ c, c ∈ new ∧ c p = false.
Proof.
  induction cuts as [|cut cuts IH]; intros m m' H.
  - injection H as <-. simpl. repeat split; try lia.
    exists []. rewrite app_nil_r. repeat split.
    intros cut p Hin. apply elem_of_nil in Hin as [].
  - simpl in H. apply bind_Some in H as ([m1 ib] & Hint & H). simpl in H.
    destruct (bool_decide _); [| discriminate].
    apply integer_terms_spec in Hint
      as (Hv1 & Hi1 & Hb1 & new1 & zs & Hnew1 & Hlen1 & Hib & Hzs & Hsem).
    simpl in Hib. subst ib.
    rewrite length_map_to_list in Hi1, Hb1, Hlen1, Hzs.
    set (c0 := λ p : point,
           Qle_bool 1 (int_binaries_expr zs p + binary_expr (map_to_list cut.1) p)) in *.
    assert (Hrest : add_optimality_cuts cuts (add_constraint c0 m1) = Some m').
    { destruct zs, (map_to_list cut.1); [discriminate | exact H | exact H | exact H]. }
    apply IH in Hrest as (Hv & Hi & Hb & new & Hnew & Hlen & Hsem').
    simpl in Hv, Hi, Hb, Hnew.
    split; [congruence |]. rewrite fmap_cons. simpl.
    split; [lia |]. split; [lia |].
    exists (new1 ++ [c0] ++ new).
    split; [rewrite Hnew, Hnew1, <- !app_assoc; reflexivity |].
    split; [rewrite length_app; simpl; lia |].
    intros cut' p Hin Hbin Hintv. apply elem_of_cons in Hin as [-> | Hin].
    + destruct (Hsem p) as [(c & Hc & Hfalse) | Hzero].
      { intros [v val] Ht. apply elem_of_map_to_list in Ht. apply (Hintv v val Ht). }
      { exists c. split; [apply elem_of_app; left; exact Hc | exact Hfalse]. }
      exists c0. split; [apply elem_of_app; right; left |].
      unfold c0. apply not_true_iff_false. rewrite Qle_bool_iff.
      unfold int_binaries_expr, binary_expr.
      rewrite (foldl_Qplus (λ z, binary_value p z)).
      rewrite (foldl_Qplus (λ t : string * Q,
                 if Qgtb (1 # 2) t.2 then value_of p t.1 else 1 - value_of p t.1)).
      rewrite (Qsum_zero _ _ Hzero), Qsum_zero; [lra |].
      intros [v val] Ht. apply elem_of_map_to_list in Ht.
      destruct (Hbin v val Ht) as [[H0 | H1] Hx]; simpl.
      * destruct (Qgtb (1 # 2) val) eqn:E; [lra |].
        apply Qgtb_false_iff in E. lra.
      * destruct (Qgtb (1 # 2) val) eqn:E; [| lra].
        apply Qgtb_true_iff in E. lra.
    + destruct (Hsem' cut' p Hin Hbin Hintv) as (c & Hc & Hfalse).
      exists c. split; [| exact Hfalse].
      apply elem_of_app. right. right. exact Hc.
Qed.

Lemma add_optimality_cuts_exclude_witness :
  let m := CutBlock (<["n" := Some 9]> {["x" := Some 1]}) [] 0 0 in
  let cuts : list (gmap string Q * gmap string Q) :=
    [({["x" := 1]}, {["n" := 4]})] in
  let m' := default m (add_optimality_cuts cuts m) in
  add_optimality_cuts cuts m = Some m' ∧
  abs_int_vars m' = 2%nat ∧
  ∃ new, cutlist m' = cutlist m ++ new ∧ length new = 5%nat.
Proof.
  intros m cuts m'.
  assert (H : add_optimality_cuts cuts m = Some m') by (vm_compute; reflexivity).
  split; [exact H |].
  destruct (add_optimality_cuts_exclude cuts m m' H)
    as (_ & Hi & _ & new & Hnew & Hlen & _).
  split; [exact Hi |]. exists new. split; [exact Hnew | exact Hlen].
Defined.

(** X23. An optimality cut over binary variables only is exact: it adds one
    constraint and no auxiliary variable, and a point with binary values
    satisfies the constraint if and only if it differs from the candidate in
    at least one of the cut's variables. *)
Theorem binary_optimality_cut_exact bvals m m' :
  add_optimality_cuts [(bvals, ∅)] m = Some m' →
  abs_int_vars m' = abs_int_vars m ∧ abs_binary_vars m' = abs_binary_vars m ∧
  ∃ c,
    cutlist m' = cutlist m ++ [c] ∧
    ∀ p,
      (∀ v val, bvals !! v = Some val →
                (val == 0 ∨ val == 1) ∧
                (value_of p v == 0 ∨ value_of p v == 1)) →
      (c p = true ↔ ∃ v val, bvals !! v = Some val ∧ ¬ value_of p v == val).
Proof.
  intros H. unfold add_optimality_cuts in H. cbn [fst snd] in H.
  rewrite map_to_list_empty in H. cbn [integer_terms mbind option_bind] in H.
  cbn [fst snd] in H.
  destruct (bool_decide _); [| discriminate].
  destruct (map_to_list bvals) as [|t0 l0] eqn:El; [discriminate |].
  change (Some (add_constraint
                  (λ p, Qle_bool 1 (int_binaries_expr [] p
                                    + binary_expr (t0 :: l0) p)) m) = Some m') in H.
  rewrite <- El in H. injection H as <-.
  cbn [add_constraint abs_int_vars abs_binary_vars cutlist]. repeat split.
  eexists. split; [reflexivity |]. intros p Hbin. cbv beta.
  rewrite Qle_bool_iff. unfold binary_expr.
  change (int_binaries_expr [] p) with 0.
  rewrite (foldl_Qplus (λ t : string * Q,
             if Qgtb (1 # 2) t.2 then value_of p t.1 else 1 - value_of p t.1)).
  rewrite !Qplus_0_l.
  assert (Hterm : ∀ t : string * Q, t ∈ map_to_list bvals →
            let g := if Qgtb (1 # 2) t.2 then value_of p t.1 else 1 - value_of p t.1 in
            (g == 0 ∨ g == 1) ∧ (g == 1 ↔ ¬ value_of p t.1 == t.2)).
  { intros [v val] Ht. apply elem_of_map_to_list in Ht. simpl.
    destruct (Hbin v val Ht) as [Hval Hx].
    destruct (Qgtb (1 # 2) val) eqn:E.
    - apply Qgtb_true_iff in E.
      assert (Hv0 : val == 0) by (destruct Hval; [assumption | lra]).
      split; [exact Hx |]. rewrite Hv0. destruct Hx as [Hx | Hx]; rewrite Hx; lra.
    - apply Qgtb_false_iff in E.
      assert (Hv1 : val == 1) by (destruct Hval; [lra | assumption]).
      rewrite Hv1. destruct Hx as [Hx | Hx]; rewrite Hx; split;
        try (left; lra); try (right; lra); lra. }
  destruct (Qsum_01 (λ t : string * Q,
              if Qgtb (1 # 2) t.2 then value_of p t.1 else 1 - value_of p t.1)
              (map_to_list bvals)) as [_ Hiff].
  { intros t Ht. apply (Hterm t Ht). }
  rewrite Hiff. split.
  - intros ([v val] & Ht & H1). exists v, val.
    split; [apply elem_of_map_to_list, Ht |]. apply (Hterm _ Ht), H1.
  - intros (v & val & Hv & Hne). exists (v, val).
    assert (Ht : (v, val) ∈ map_to_list bvals) by (apply elem_of_map_to_list, Hv).
    split; [exact Ht |]. apply (Hterm _ Ht), Hne.
Qed.

Lemma binary_optimality_cut_exact_witness :
  let m := CutBlock {["x" := Some 1]} [] 0 0 in
  let m' := default m (add_optimality_cuts [({["x" := 1]}, ∅)] m) in
  add_optimality_cuts [({["x" := 1]}, ∅)] m = Some m' ∧
  abs_int_vars m' = abs_int_vars m ∧
  ∃ c, cutlist m' = cutlist m ++ [c].
Proof.
  intros m m'.
  assert (H : add_optimality_cuts [({["x" := 1]}, ∅)] m = Some m')
    by (vm_compute; reflexivity).
  split; [exact H |].
  destruct (binary_optimality_cut_exact {["x" := 1]} m m' H) as (Hi & _ & c & Hc & _).
  split; [exact Hi |]. exists c. exact Hc.
Defined.


(** ** Collecting the results of the distributed evaluation *)

Section distributed_results.

Context {handle : Type} `{EqDecision handle}.

Lemma list_index_Some (l : list handle) x i :
  list_index l x = Some i → l !! i = Some x.
Proof.
  unfold list_index. intros H. apply fmap_Some in H as ([j y] & Hfind & ->).
  apply list_find_Some in Hfind as (Hj & -> & _). exact Hj.
Qed.

Lemma list_index_elem_of (l : list handle) x :
  x ∈ l → ∃ i, list_index l x = Some i.
Proof.
  intros Hin. unfold list_index.
  destruct (list_find_elem_of (λ y, y = x) l x Hin eq_refl) as [[i y] Hfind].
  rewrite Hfind. exists i. reflexivity.
Qed.

Lemma collect_results_spec (action_handles : list handle) get_results res :
  NoDup action_handles →
  (∀ h, h ∈ action_handles → get_results h = Some (res h)) →
  ∀ wait_any r0 r1 r2,
    (∀ h, h ∈ wait_any → h ∈ action_handles) →
    length r0 = length action_handles → length r1 = length action_handles →
    length r2 = length action_handles →
    ∃ r0' r1' r2',
      collect_results action_handles get_results (length wait_any) wait_any
        (r0, r1, r2) = Some (r0', r1', r2') ∧
      length r0' = length action_handles ∧ length r1' = length action_handles ∧
      length r2' = length action_handles ∧
      ∀ i h, action_handles !! i = Some h →
        r0' !! i = (if decide (h ∈ wait_any) then Some (Some (res h).1.1) else r0 !! i) ∧
        r1' !! i = (if decide (h ∈ wait_any) then Some (Some (res h).1.2) else r1 !! i) ∧
        r2' !! i = (if decide (h ∈ wait_any) then Some (Some (res h).2) else r2 !! i).
Proof.
  intros Hnd Hget. induction wait_any as [|h0 wait_any IH];
    intros r0 r1 r2 Hsub H0 H1 H2.
  - exists r0, r1, r2. simpl. repeat split; try assumption;
      (destruct (decide (h ∈ [])) as [Hin | _]; [apply elem_of_nil in Hin as [] | reflexivity]).
  - assert (Hh0 : h0 ∈ action_handles) by (apply Hsub; left).
    destruct (list_index_elem_of _ _ Hh0) as [i0 Hi0].
    pose proof (list_index_Some _ _ _ Hi0) as Hat.
    simpl. rewrite Hi0, (Hget h0 Hh0). simpl.
    destruct (IH (<[i0 := Some (res h0).1.1]> r0) (<[i0 := Some (res h0).1.2]> r1)
                (<[i0 := Some (res h0).2]> r2))
      as (r0' & r1' & r2' & Hrun & L0 & L1 & L2 & Hall).
    { intros h Hin. apply Hsub. right. exact Hin. }
    { rewrite length_insert. exact H0. }
    { rewrite length_insert. exact H1. }
    { rewrite length_insert. exact H2. }
    exists r0', r1', r2'. split; [exact Hrun |].
    split; [exact L0 |]. split; [exact L1 |]. split; [exact L2 |].
    intros i h Hi. destruct (Hall i h Hi) as (E0 & E1 & E2).
    assert (Hlt : (i < length action_handles)%nat) by (eapply lookup_lt_Some, Hi).
    destruct (decide (h = h0)) as [-> | Hne].
    + assert (i = i0) as -> by (eapply NoDup_lookup; eassumption).
      destruct (decide (h0 ∈ h0 :: wait_any)) as [_ | Hn];
        [| exfalso; apply Hn; left].
      rewrite E0, E1, E2.
      destruct (decide (h0 ∈ wait_any)); [repeat split |].
      rewrite !list_lookup_insert_eq by lia. repeat split.
    + assert (Hi_ne : i0 ≠ i).
      { intros <-. rewrite Hat in Hi. congruence. }
      rewrite E0, E1, E2, !list_lookup_insert_ne by exact Hi_ne.
      destruct (decide (h ∈ wait_any)) as [Hin | Hnin];
        destruct (decide (h ∈ h0 :: wait_any)) as [Hin' | Hnin'];
        try (repeat split; fail).
      * exfalso. apply Hnin'. right. exact Hin.
      * exfalso. apply elem_of_cons in Hin' as [? | ?]; contradiction.
Qed.

(** X24. With the distributed solver manager the results are stored by the
    position of their action handle: when the handles are distinct and every
    queued action completes once, in whatever order, the three result lists
    hold the results of the subproblems in the order of the subproblems, with
    no placeholder left, and the probabilities are those of the subproblems
    in the same order. *)
Theorem solve_interscenario_solutions_distributed_order
    subproblems (action_handles : list handle) get_results res wait_any :
  NoDup action_handles →
  wait_any ≡ₚ action_handles →
  (∀ h, h ∈ action_handles → get_results h = Some (res h)) →
  _solve_interscenario_solutions_distributed subproblems action_handles
    get_results wait_any
  = Some ((λ h, Some (res h).1.1) <$> action_handles,
          (λ h, Some (res h).1.2) <$> action_handles,
          (λ h, Some (res h).2) <$> action_handles,
          problem_probability <$> subproblems).
Proof.
  intros Hnd Hperm Hget. unfold _solve_interscenario_solutions_distributed.
  set (n := length action_handles).
  destruct (collect_results_spec action_handles get_results res Hnd Hget wait_any
              (replicate n None) (replicate n None) (replicate n None))
    as (r0 & r1 & r2 & Hrun & L0 & L1 & L2 & Hall).
  { intros h Hin. rewrite <- Hperm. exact Hin. }
  { apply length_replicate. }
  { apply length_replicate. }
  { apply length_replicate. }
  rewrite (Permutation_length Hperm) in Hrun. fold n in Hrun.
  rewrite Hrun. simpl. do 2 f_equal.
  assert (Heq : ∀ {A} (f : handle → A) (r : list (option A)),
            length r = length action_handles →
            (∀ i h, action_handles !! i = Some h → r !! i = Some (Some (f h))) →
            r = (λ h, Some (f h)) <$> action_handles).
  { intros A f r Hlen Hr. apply list_eq. intros i. rewrite list_lookup_fmap.
    destruct (action_handles !! i) as [h|] eqn:Hi; simpl.
    - apply Hr, Hi.
    - apply lookup_ge_None. apply lookup_ge_None in Hi. lia. }
  f_equal; [f_equal |]; apply Heq; try assumption; intros i h Hi;
    destruct (Hall i h Hi) as (E0 & E1 & E2);
    (destruct (decide (h ∈ wait_any)) as [_ | Hn];
       [assumption |
        exfalso; apply Hn; rewrite Hperm; eapply list_elem_of_lookup_2, Hi]).
Qed.

End distributed_results.

Lemma solve_interscenario_solutions_distributed_order_witness :
  let res (h : nat) : evaluation := ([Some (inject_Z (Z.of_nat h))], [None], []) in
  _solve_interscenario_solutions_distributed
    [OfScenario (Scenario "A" ∅ (1 # 2) 0); OfScenario (Scenario "B" ∅ (1 # 2) 0)]
    [7%nat; 3%nat] (λ h, Some (res h)) [3%nat; 7%nat]
  = Some ((λ h, Some (res h).1.1) <$> [7%nat; 3%nat],
          (λ h, Some (res h).1.2) <$> [7%nat; 3%nat],
          (λ h, Some (res h).2) <$> [7%nat; 3%nat],
          [1 # 2; 1 # 2]).
Proof.
  intros res.
  apply (solve_interscenario_solutions_distributed_order
           [OfScenario (Scenario "A" ∅ (1 # 2) 0); OfScenario (Scenario "B" ∅ (1 # 2) 0)]
           [7%nat; 3%nat] (λ h, Some (res h)) res [3%nat; 7%nat]).
  - repeat constructor; rewrite ?elem_of_cons, ?elem_of_nil; intuition discriminate.
  - apply Permutation_swap.
  - intros h _. reflexivity.
Defined.


(** ** From the cut library to the constraint lists *)

Lemma add_feasibility_cuts_defined eps ceps cuts :
  ∀ m,
    (∀ e, e ∈ cuts →
       ∃ d cut, e = CutTuple d cut ∧
                ∀ i x, cut !! i = Some x → is_Some (local_stage1_varmap m !! i)) →
    ∃ m', add_feasibility_cuts eps ceps cuts m = Some m'.
Proof.
  induction cuts as [|e cuts IH]; intros m Hall.
  - exists m. reflexivity.
  - destruct (Hall e) as (d & cut & -> & Hkeys); [left |]. simpl.
    rewrite bool_decide_eq_true_2.
    2:{ apply Forall_forall. intros t Ht. apply cut_terms_elem in Ht as [Ht _].
        eapply Hkeys, Ht. }
    apply IH. intros e' He'.
    destruct (Hall e') as (d' & cut' & -> & Hkeys'); [right; exact He' |].
    exists d', cut'. split; [reflexivity |].
    destruct (cut_terms eps cut); exact Hkeys'.
Qed.

(** X25. Everything that [_distribute_cuts] hands to [add_new_cuts] as a
    feasibility cut is a cut tuple of the library, so the loop of
    [add_new_cuts] can unpack it: on a block that has the variables of the
    cuts, and for an [epsilon] in [0, 1), the feasibility cuts of a delivery
    are added without an exception. *)
Theorem distributed_cuts_are_added subproblems self sent self' dl eps m :
  0 <= eps → eps < 1 →
  _distribute_cuts subproblems self = Some (sent, self') →
  dl ∈ sent →
  (∀ d cut i x, CutTuple d cut ∈ feasibility dl → cut !! i = Some x →
                is_Some (local_stage1_varmap m !! i)) →
  (∀ e, e ∈ feasibility dl →
     is_tuple e = true ∧ ∃ row, row ∈ feasibility_cuts self ∧ e ∈ row) ∧
  ∃ m', add_feasibility_cuts eps eps (feasibility dl) m = Some m'.
Proof.
  intros _ _ H Hdl Hkeys. unfold _distribute_cuts in H.
  apply bind_Some in H as (thr & Hthr & H).
  apply bind_Some in H as (sent0 & Hsent & [= <- <-]).
  destruct (distribute_loop_elem _ _ _ _ Hsent) as [_ Hfrom].
  destruct (Hfrom dl Hdl) as (problem & _ & Hcollect).
  assert (Htuple : ∀ e, e ∈ feasibility dl →
            is_tuple e = true ∧ ∃ row, row ∈ feasibility_cuts self ∧ e ∈ row).
  { intros e He.
    apply (collect_cuts_elem _ _ _ _ _ _ Hcollect e) in He
      as [He | (id & sol & _ & (row & Hrow & Hid) & Hab)].
    - apply elem_of_nil in He as [].
    - split.
      + destruct Hab as [(_ & Hab) | (_ & _ & Hab)];
          apply above_true_iff in Hab as (d & cut & -> & _); reflexivity.
      + exists row. split; [exact Hrow | eapply list_elem_of_lookup_2, Hid]. }
  split; [exact Htuple |].
  apply add_feasibility_cuts_defined. intros e He.
  destruct (Htuple e He) as [Ht _]. destruct e as [d cut | s]; [| discriminate].
  exists d, cut. split; [reflexivity |]. intros i x Hx. apply (Hkeys d cut i x He Hx).
Qed.

Lemma distributed_cuts_are_added_witness :
  let self := two_scenario_run (1 # 10) 1 (1 # 2) in
  let out := default ([], self) (_distribute_cuts two_scenarios self) in
  let dl := default (Delivery "" [] []) (out.1 !! 0%nat) in
  let m := CutBlock {["x" := Some 1]} [] 0 0 in
  _distribute_cuts two_scenarios self = Some (out.1, out.2) ∧
  dl ∈ out.1 ∧
  ∃ m', add_feasibility_cuts 0 0 (feasibility dl) m = Some m'.
Proof.
  intros self out dl m.
  assert (H : _distribute_cuts two_scenarios self = Some (out.1, out.2))
    by (vm_compute; reflexivity).
  assert (Hdl : dl ∈ out.1).
  { apply (list_elem_of_lookup_2 _ 0%nat). vm_compute. reflexivity. }
  split; [exact H |]. split; [exact Hdl |].
  destruct (distributed_cuts_are_added two_scenarios self out.1 out.2 dl 0 m)
    as [_ Hadd]; [lra | lra | exact H | exact Hdl | | exact Hadd].
  intros d cut i x Hin Hx.
  assert (Hcut : feasibility dl = [CutTuple (1 # 2) {["x" := (1 # 2, 0)]}])
    by (vm_compute; reflexivity).
  rewrite Hcut in Hin. apply list_elem_of_singleton in Hin. injection Hin as _ ->.
  destruct (decide (i = "x")) as [-> | Hne].
  - simpl. rewrite lookup_singleton_eq. eauto.
  - rewrite lookup_singleton_ne in Hx by congruence. discriminate.
Defined.

Lemma distribute_loop_deliveries self threshold subproblems :
  ∀ sent,
    distribute_loop self threshold subproblems = Some sent →
    ∀ dl, dl ∈ sent →
      optimality dl = optimality_cuts self ∧
      (feasibility dl ≠ [] ∨ optimality_cuts self ≠ []) ∧
      ∃ problem, problem ∈ subproblems ∧ to dl = problem_name problem.
Proof.
  induction subproblems as [|problem rest IH]; intros sent Hsent dl Hdl;
    simpl in Hsent.
  - injection Hsent as <-. apply elem_of_nil in Hdl as [].
  - apply bind_Some in Hsent as (cuts & _ & Hsent).
    apply bind_Some in Hsent as (sent1 & Hrest & Hsent).
    assert (Hback : dl ∈ sent1 →
              optimality dl = optimality_cuts self ∧
              (feasibility dl ≠ [] ∨ optimality_cuts self ≠ []) ∧
              ∃ problem0, problem0 ∈ problem :: rest ∧ to dl = problem_name problem0).
    { intros Hin. destruct (IH sent1 Hrest dl Hin) as (Ho & Hne & p0 & Hp0 & Hto).
      split; [exact Ho |]. split; [exact Hne |].
      exists p0. split; [right; exact Hp0 | exact Hto]. }
    assert (Hnew : cuts ≠ [] ∨ optimality_cuts self ≠ [] →
              dl = Delivery (problem_name problem) cuts (optimality_cuts self) →
              optimality dl = optimality_cuts self ∧
              (feasibility dl ≠ [] ∨ optimality_cuts self ≠ []) ∧
              ∃ problem0, problem0 ∈ problem :: rest ∧ to dl = problem_name problem0).
    { intros Hne ->. simpl. split; [reflexivity |]. split; [exact Hne |].
      exists problem. split; [left | reflexivity]. }
    destruct cuts as [|c cuts], (optimality_cuts self) as [|o os] eqn:Eo;
      injection Hsent as <-.
    + apply Hback, Hdl.
    + apply elem_of_cons in Hdl as [Hdl | Hdl]; [| apply Hback, Hdl].
      apply Hnew; [right; discriminate | exact Hdl].
    + apply elem_of_cons in Hdl as [Hdl | Hdl]; [| apply Hback, Hdl].
      apply Hnew; [left; discriminate | exact Hdl].
    + apply elem_of_cons in Hdl as [Hdl | Hdl]; [| apply Hback, Hdl].
      apply Hnew; [left; discriminate | exact Hdl].
Qed.

(** X26. Cuts are handed out once: when [pre_iteration_k_solves] returns, both
    cut lists of the plugin are empty and nothing else of the plugin has
    changed, so that calling it again makes no call of [add_new_cuts].  Every
    call of [add_new_cuts] made is for a subproblem of the tree, carries all
    the optimality cuts, and carries at least one cut. *)
Theorem pre_iteration_k_solves_once subproblems self sent self' :
  pre_iteration_k_solves subproblems self = Some (sent, self') →
  self' = set_optimality_cuts [] (set_feasibility_cuts [] self) ∧
  pre_iteration_k_solves subproblems self' = Some ([], self') ∧
  ∀ dl, dl ∈ sent →
    optimality dl = optimality_cuts self ∧
    (feasibility dl ≠ [] ∨ optimality_cuts self ≠ []) ∧
    ∃ problem, problem ∈ subproblems ∧ to dl = problem_name problem.
Proof.
  unfold pre_iteration_k_solves. intros H.
  assert (Hd : (feasibility_cuts self = [] ∧ optimality_cuts self = [] ∧
                sent = [] ∧ self' = self) ∨
               _distribute_cuts subproblems self = Some (sent, self')).
  { destruct (feasibility_cuts self) eqn:Ef, (optimality_cuts self) eqn:Eo;
      try (right; exact H).
    injection H as <- <-. left. repeat split. }
  destruct Hd as [(Ef & Eo & -> & ->) | Hd].
  - split; [destruct self; simpl in *; subst; reflexivity |].
    rewrite Ef, Eo. split; [reflexivity |].
    intros dl Hdl. apply elem_of_nil in Hdl as [].
  - unfold _distribute_cuts in Hd.
    apply bind_Some in Hd as (thr & Hthr & Hd).
    apply bind_Some in Hd as (sent0 & Hsent & [= <- <-]).
    split; [reflexivity |]. split; [reflexivity |].
    apply (distribute_loop_deliveries _ _ _ _ Hsent).
Qed.

Lemma pre_iteration_k_solves_once_witness :
  let self := two_scenario_run (1 # 10) 1 (1 # 2) in
  let out := default ([], self) (pre_iteration_k_solves two_scenarios self) in
  pre_iteration_k_solves two_scenarios self = Some (out.1, out.2) ∧
  feasibility_cuts out.2 = [] ∧
  pre_iteration_k_solves two_scenarios out.2 = Some ([], out.2).
Proof.
  intros self out.
  assert (H : pre_iteration_k_solves two_scenarios self = Some (out.1, out.2))
    by (vm_compute; reflexivity).
  split; [exact H |].
  destruct (pre_iteration_k_solves_once two_scenarios self out.1 out.2 H)
    as (Hself & Hagain & _).
  split; [rewrite Hself; reflexivity | exact Hagain].
Defined.

(** ** The cost statistics *)

(** X27. The cost statistics of [_interscenario_plugin] return only when the
    probability-weighted average of the scenario costs is not zero (the
    summary line divides by it); [self.average_solution] is then that
    average, taken over the scenarios in the order of the candidates that
    own them, and nothing else of the plugin has changed. *)
Theorem scenario_statistics_spec ph self self' :
  scenario_statistics ph self = Some self' →
  ∃ scens avg,
    mapM (get_scenario ph) (concat (snd <$> unique_scenario_solutions self))
      = Some scens ∧
    scens ≠ [] ∧
    avg == Qsum ((λ s, _probability s * _cost s) <$> scens) ∧
    ¬ avg == 0 ∧
    self' = set_average_solution (Some avg) self.
Proof.
  unfold scenario_statistics. intros H.
  apply bind_Some in H as (scens & Hscens & H). cbv zeta in H.
  apply bind_Some in H as (_max & Hmax & H).
  apply bind_Some in H as (_min & _ & H).
  apply bind_Some in H as ([] & _ & H).
  destruct (Qeq_bool _ 0) eqn:Eavg; [discriminate |].
  injection H as <-. eexists scens, _. split; [exact Hscens |]. split.
  { intros ->. discriminate. }
  split; [| split; [| reflexivity]].
  - rewrite (foldl_Qplus (λ x : Q, x)), Qplus_0_l. clear.
    induction scens as [|s scens IH].
    + reflexivity.
    + rewrite !fmap_cons.
      change (zip_with Qmult (_probability s :: (_probability <$> scens))
                (_cost s :: (_cost <$> scens)))
        with (_probability s * _cost s
              :: zip_with Qmult (_probability <$> scens) (_cost <$> scens)).
      rewrite fmap_cons, !Qsum_cons, IH. reflexivity.
  - intros Hzero. apply Qeq_bool_neq in Eavg. apply Eavg, Hzero.
Qed.

Lemma scenario_statistics_spec_witness :
  let ph := {| _objective_sense := minimize; _current_iteration := 0;
               _scenarios := [Scenario "A" {["x" := 1]} (1 # 2) 4;
                              Scenario "B" {["x" := 3]} (1 # 2) 6];
               _variable_datas := ∅; _fixed := ∅; _xbars := {["x" := 2]} |} in
  let self := set_unique_scenario_solutions
                [({["x" := 1]}, ["A"]); ({["x" := 3]}, ["B"])] (reset __init__) in
  let self' := default self (scenario_statistics ph self) in
  scenario_statistics ph self = Some self' ∧
  ∃ avg, average_solution self' = Some avg ∧ ¬ avg == 0.
Proof.
  intros ph self self'.
  assert (H : scenario_statistics ph self = Some self') by (vm_compute; reflexivity).
  split; [exact H |].
  destruct (scenario_statistics_spec ph self self' H) as (scens & avg & _ & _ & _ & Hne & ->).
  exists avg. split; [reflexivity | exact Hne].
Defined.


(** ** From the separation problem to the cut *)

Lemma separation_cut_spec m cut :
  separation_cut m = Some cut →
  (∀ i s par, cut !! i = Some (s, par) ↔
              fixed_variable_values m !! i = Some par ∧
              separation_variables m !! i = Some s) ∧
  ∀ i, is_Some (fixed_variable_values m !! i) → is_Some (cut !! i).
Proof.
  unfold separation_cut. intros H. apply bind_Some in H as (kvs & Hkvs & [= <-]).
  apply mapM_Some in Hkvs.
  assert (Hel : ∀ i s par, (i, (s, par)) ∈ kvs ↔
                  fixed_variable_values m !! i = Some par ∧
                  separation_variables m !! i = Some s).
  { intros i s par. split.
    - intros Hin. apply list_elem_of_lookup in Hin as [n Hn].
      destruct (Forall2_lookup_r _ _ _ _ _ Hkvs Hn) as ([k p] & Hkp & Hf).
      simpl in Hf.
      destruct (separation_variables m !! k) as [y|] eqn:E; simpl in Hf; [| discriminate].
      injection Hf as -> -> ->. apply list_elem_of_lookup_2 in Hkp.
      apply elem_of_map_to_list in Hkp. split; [exact Hkp | exact E].
    - intros [Hp Hs]. apply elem_of_map_to_list in Hp.
      apply list_elem_of_lookup in Hp as [n Hn].
      destruct (Forall2_lookup_l _ _ _ _ _ Hkvs Hn) as (kv & Hkv & Hf).
      simpl in Hf. rewrite Hs in Hf. simpl in Hf. injection Hf as <-.
      eapply list_elem_of_lookup_2, Hkv. }
  assert (Hlk : ∀ i s par, list_to_map (M := gmap string (Q * Q)) kvs !! i = Some (s, par) ↔
                  (i, (s, par)) ∈ kvs).
  { intros i s par. split.
    - apply elem_of_list_to_map_2.
    - intros Hin. apply elem_of_list_to_map_1'; [| exact Hin].
      intros [s' par'] Hy. apply Hel in Hin as [H1 H2]. apply Hel in Hy as [H3 H4].
      congruence. }
  split.
  - intros i s par. rewrite Hlk. apply Hel.
  - intros i [par Hp].
    assert (Hs : is_Some (separation_variables m !! i)).
    { pose proof Hp as Hp'. apply elem_of_map_to_list in Hp'.
      apply list_elem_of_lookup in Hp' as [n Hn].
      destruct (Forall2_lookup_l _ _ _ _ _ Hkvs Hn) as (kv & _ & Hf).
      simpl in Hf. destruct (separation_variables m !! i); [eauto | discriminate]. }
    destruct Hs as [s Hs]. exists (s, par). apply Hlk, Hel. split; assumption.
Qed.

Lemma cut_terms_nil eps cut :
  cut_terms eps cut = [] ↔ ∀ i sep par, cut !! i = Some (sep, par) → Qabs sep <= eps.
Proof.
  unfold cut_terms. split.
  - intros Hnil i sep par Hi. apply Qgtb_false_iff. apply not_true_iff_false.
    intros Hgt.
    assert (Hin : (i, (sep, par)) ∈
                  filter (λ t : string * (Q * Q), Qgtb (Qabs t.2.1) eps = true)
                    (map_to_list cut)).
    { apply list_elem_of_filter. split; [exact Hgt | apply elem_of_map_to_list, Hi]. }
    rewrite Hnil in Hin. apply elem_of_nil in Hin as [].
  - intros Hall.
    destruct (filter _ (map_to_list cut)) as [|[i [sep par]] l] eqn:E; [reflexivity |].
    assert (Hin : (i, (sep, par)) ∈
                  filter (λ t : string * (Q * Q), Qgtb (Qabs t.2.1) eps = true)
                    (map_to_list cut)) by (rewrite E; left).
    apply list_elem_of_filter in Hin as [Hgt Hin]. simpl in Hgt.
    apply elem_of_map_to_list in Hin. apply Qgtb_true_iff in Hgt.
    pose proof (Hall i sep par Hin). lra.
Qed.

(** X28. The cut that the separation problem answers cuts off the candidate
    it was solved for: the tuple covers exactly the first-stage variables,
    and the constraint that [add_new_cuts] builds from it is violated at
    every point that gives the first-stage variables the values at which the
    model was fixed.  No constraint is built exactly when no separation
    exceeds [epsilon]. *)
Theorem separation_cut_excludes_candidate sqrt solver name fallback w m w' d cut
    eps blk blk' :
  data w !! name = Some m →
  solve_separation_problem sqrt solver name fallback w
    = Returned w' (CutTuple d cut) →
  0 <= eps → eps < 1 →
  add_feasibility_cuts eps eps [CutTuple d cut] blk = Some blk' →
  (∀ i, is_Some (cut !! i) ↔ is_Some (fixed_variable_values m !! i)) ∧
  ∃ new,
    cutlist blk' = cutlist blk ++ new ∧
    (new = [] ↔ ∀ i sep par, cut !! i = Some (sep, par) → Qabs sep <= eps) ∧
    ∀ p, (∀ i par, fixed_variable_values m !! i = Some par → value_of p i == par) →
         ∀ c, c ∈ new → c p = false.
Proof.
  intros Hm Hsep Heps0 Heps1 Hadd.
  assert (Hcut : ∃ mx, fixed_variable_values mx = fixed_variable_values m ∧
                       separation_cut mx = Some cut).
  { destruct (solve solver name (prepare_separation m)) as [r|] eqn:Hs.
    - destruct (bool_decide (status r = SolverStatus.ok)
                && _acceptable_termination_conditions (termination_condition r))
        eqn:Hok.
      + rewrite (solve_separation_problem_succeeds _ _ _ _ _ _ _ Hm Hs Hok) in Hsep.
        cbv zeta in Hsep.
        destruct (separation_cut _) as [cut0|] eqn:Ecut; [| discriminate].
        destruct (separation_obj_value _); [| discriminate].
        injection Hsep as _ _ <-. eexists. split; [| exact Ecut]. reflexivity.
      + rewrite (solve_separation_problem_fails _ _ _ _ _ _ _ Hm Hs Hok) in Hsep.
        discriminate.
    - rewrite (solve_separation_problem_raises _ _ _ _ _ _ Hm Hs) in Hsep.
      discriminate. }
  destruct Hcut as (mx & Hfix & Hcut).
  destruct (separation_cut_spec _ _ Hcut) as [Hspec Hcover]. rewrite Hfix in Hspec, Hcover.
  split.
  { intros i. split; [| apply Hcover].
    intros [[s par] Hi]. apply Hspec in Hi as [Hi _]. eauto. }
  simpl in Hadd. destruct (bool_decide _); [| discriminate].
  destruct (cut_terms eps cut) as [|t0 terms0] eqn:Eterms; injection Hadd as <-.
  - exists []. rewrite app_nil_r. split; [reflexivity |]. split.
    + split; [intros _; apply cut_terms_nil, Eterms | reflexivity].
    + intros p _ c Hc. apply elem_of_nil in Hc as [].
  - eexists [_]. split; [reflexivity |]. split.
    + split; [discriminate |]. intros Hall. apply cut_terms_nil in Hall.
      rewrite Hall in Eterms. discriminate.
    + intros p Hp c Hc. apply list_elem_of_singleton in Hc as ->.
      apply not_true_iff_false. rewrite Qle_bool_iff.
      assert (Hterm : ∀ t, t ∈ t0 :: terms0 →
                ¬ t.2.1 == 0 ∧ value_of p t.1 == t.2.2).
      { intros t Ht. rewrite <- Eterms in Ht. apply cut_terms_elem in Ht as [Ht Hgt].
        split.
        - intros Hzero. rewrite Hzero in Hgt. change (Qabs 0) with 0 in Hgt. lra.
        - destruct t as [i [sep par]]. apply Hspec in Ht as [Ht _].
          apply (Hp i par Ht). }
      rewrite feasibility_expr_at_candidate by (intros t Ht; apply Hterm, Ht).
      assert (Hsum : 0 < Qsum ((λ t : string * (Q * Q), t.2.1 * t.2.1)
                                <$> (t0 :: terms0))).
      { apply (Qsum_squares_pos (λ t : string * (Q * Q), t.2.1)); [discriminate |].
        intros t Ht. apply Hterm, Ht. }
      assert (0 < (1 - eps) * (1 - eps)) by (apply Qmult_lt_0_compat; lra).
      nra.
Qed.

Lemma separation_cut_excludes_candidate_witness :
  let cplex := Solver "cplex" (λ _ _,
    Some (Results SolverStatus.ok TerminationCondition.optimal {["x" := 3]} 0 ∅)) in
  let m := set_fixed_variable_values {["x" := 5]} (new_modified_instance {["x"]} 0) in
  let w := World {["A" := m]} 0 [] in
  let o := solve_separation_problem rational_sqrt cplex "A" true w in
  let ans := match o with Returned _ a => a | Raised _ => CutString "" end in
  let d := default 0 (magnitude ans) in
  let cut := match ans with CutTuple _ c => c | CutString _ => ∅ end in
  let blk := CutBlock {["x" := Some 9]} [] 0 0 in
  let blk' := default blk (add_feasibility_cuts 0 0 [CutTuple d cut] blk) in
  o = Returned (state_of o) (CutTuple d cut) ∧
  add_feasibility_cuts 0 0 [CutTuple d cut] blk = Some blk' ∧
  ∃ new, cutlist blk' = cutlist blk ++ new ∧
         ∀ p, (∀ i par, fixed_variable_values m !! i = Some par →
                        value_of p i == par) →
              ∀ c, c ∈ new → c p = false.
Proof.
  intros cplex m w o ans d cut blk blk'.
  assert (H : o = Returned (state_of o) (CutTuple d cut)) by (vm_compute; reflexivity).
  assert (Hadd : add_feasibility_cuts 0 0 [CutTuple d cut] blk = Some blk')
    by (vm_compute; reflexivity).
  split; [exact H |]. split; [exact Hadd |].
  destruct (separation_cut_excludes_candidate rational_sqrt cplex "A" true w m
              (state_of o) d cut 0 blk blk') as (_ & new & Hnew & _ & Hall).
  - reflexivity.
  - exact H.
  - lra.
  - lra.
  - exact Hadd.
  - exists new. split; [exact Hnew | exact Hall].
Defined.
